(** * python-import-copier: the path-to-module translator and the
      symbol-name extractor of [src/core.ts], embedded and verified.

    JavaScript strings are modelled as lists of 8-bit code units
    ([list ascii], read as the Latin-1 range of UTF-16), which is where
    every character the source inspects lives.  The functions of Node's
    [path] module that the source calls are modelled for a POSIX host
    ([path] = [path.posix]); [process.cwd()] and [process.platform] are
    explicit arguments. *)

From Stdlib Require Import Ascii String List Bool Arith ZArith Lia.
Import ListNotations.

Local Open Scope string_scope.
Local Open Scope nat_scope.
Local Open Scope list_scope.

(** ** JavaScript strings *)

Abbreviation jsstring := (list ascii).

Coercion list_ascii_of_string : string >-> list.

Abbreviation js := list_ascii_of_string (only parsing).

Definition ascii_eqb (a b : ascii) : bool := Ascii.eqb a b.

Fixpoint str_eqb (s t : jsstring) : bool :=
  match s, t with
  | [], [] => true
  | a :: s', b :: t' => ascii_eqb a b && str_eqb s' t'
  | _, _ => false
  end.

(** Truthiness of a string: [!s] holds exactly for the empty string. *)
Definition truthy (s : jsstring) : bool :=
  match s with [] => false | _ :: _ => true end.

Definition code (a : ascii) : nat := nat_of_ascii a.

Definition in_range (lo hi : nat) (a : ascii) : bool :=
  (lo <=? code a) && (code a <=? hi).

(** WhiteSpace and LineTerminator code units below 256: TAB, LF, VT, FF,
    CR, SPACE and NBSP.  Both [String.prototype.trim] and the regular
    expression class [\s] use this set. *)
Definition is_space (a : ascii) : bool :=
  in_range 9 13 a || (code a =? 32) || (code a =? 160).

Definition is_upper (a : ascii) : bool :=
  in_range 65 90 a || (in_range 192 222 a && negb (code a =? 215)).

Definition char_toLowerCase (a : ascii) : ascii :=
  if is_upper a then ascii_of_nat (code a + 32) else a.

Definition toLowerCase (s : jsstring) : jsstring := map char_toLowerCase s.

Fixpoint drop_while (p : ascii -> bool) (s : jsstring) : jsstring :=
  match s with
  | [] => []
  | a :: s' => if p a then drop_while p s' else s
  end.

Definition drop_while_end (p : ascii -> bool) (s : jsstring) : jsstring :=
  rev (drop_while p (rev s)).

(** [String.prototype.trim]. *)
Definition trim (s : jsstring) : jsstring :=
  drop_while_end is_space (drop_while is_space s).

(** [s.startsWith(p)]. *)
Fixpoint startsWith (p s : jsstring) : bool :=
  match p, s with
  | [], _ => true
  | a :: p', b :: s' => ascii_eqb a b && startsWith p' s'
  | _ :: _, [] => false
  end.

(** [s.slice(0, -n)] for [n > 0]. *)
Definition slice_drop_end (s : jsstring) (n : nat) : jsstring :=
  firstn (length s - n) s.

(** [s.slice(a, b)] for [0 <= a], [0 <= b]. *)
Definition slice (s : jsstring) (a b : nat) : jsstring :=
  firstn (b - a) (skipn a s).

(** [Array.prototype.join]. *)
Fixpoint join (sep : jsstring) (l : list jsstring) : jsstring :=
  match l with
  | [] => []
  | [x] => x
  | x :: rest => x ++ sep ++ join sep rest
  end.

Definition slash : ascii := "/"%char.
Definition backslash : ascii := "\"%char.
Definition dot : ascii := "."%char.

Definition is_slash (a : ascii) : bool := ascii_eqb a slash.

(** The character class [[\\/]]. *)
Definition is_sep (a : ascii) : bool :=
  ascii_eqb a slash || ascii_eqb a backslash.

(** ** Node's [path] module on a POSIX host

    The source imports Node's [path]; these are models of the POSIX
    functions it calls.  [normalizeString] and [relative] are written over
    the sequence of [/]-separated components, the scans of [dirname],
    [basename] and [extname] run over the characters from the right as
    Node's loops do. *)

Module Path.

(** The pieces between single separators, empty pieces included. *)
Fixpoint split_on (p : ascii -> bool) (s : jsstring) : list jsstring :=
  match s with
  | [] => [[]]
  | a :: s' =>
      if p a then [] :: split_on p s'
      else match split_on p s' with
           | w :: ws => (a :: w) :: ws
           | [] => [[a]]
           end
  end.

(** The non-empty [/]-separated components of a path. *)
Definition components (p : jsstring) : list jsstring :=
  filter truthy (split_on is_slash p).

(** [normalizeString] resolves [.] and [..] components; [acc] is the
    stack of components kept so far, innermost first. *)
Fixpoint norm_components (allowAboveRoot : bool) (acc segs : list jsstring)
  : list jsstring :=
  match segs with
  | [] => rev acc
  | seg :: rest =>
      if str_eqb seg "." then norm_components allowAboveRoot acc rest
      else if str_eqb seg ".." then
        match acc with
        | top :: acc' =>
            if str_eqb top ".." then
              if allowAboveRoot
              then norm_components allowAboveRoot (seg :: acc) rest
              else norm_components allowAboveRoot acc rest
            else norm_components allowAboveRoot acc' rest
        | [] =>
            if allowAboveRoot
            then norm_components allowAboveRoot [seg] rest
            else norm_components allowAboveRoot [] rest
        end
      else norm_components allowAboveRoot (seg :: acc) rest
  end.

Definition normalizeString (p : jsstring) (allowAboveRoot : bool) : jsstring :=
  join "/" (norm_components allowAboveRoot [] (components p)).

(** [path.isAbsolute]. *)
Definition isAbsolute (p : jsstring) : bool :=
  match p with
  | [] => false
  | a :: _ => is_slash a
  end.

Definition ends_with_slash (p : jsstring) : bool :=
  match rev p with
  | [] => false
  | a :: _ => is_slash a
  end.

(** [path.normalize]. *)
Definition normalize (p : jsstring) : jsstring :=
  match p with
  | [] => "."
  | _ :: _ =>
      let isAbs := isAbsolute p in
      let trailingSeparator := ends_with_slash p in
      let np := normalizeString p (negb isAbs) in
      match np with
      | [] => if isAbs then "/" else if trailingSeparator then "./" else "."
      | _ :: _ =>
          let np' := if trailingSeparator then np ++ "/" else np in
          if isAbs then "/" ++ np' else np'
      end
  end.

(** [path.resolve(p)] with one argument; [cwd] is [process.cwd()]. *)
Definition resolve (cwd p : jsstring) : jsstring :=
  let '(resolvedPath, resolvedAbsolute) :=
    match p with
    | [] => ([], false)
    | _ :: _ => (p ++ "/", isAbsolute p)
    end in
  let '(resolvedPath, resolvedAbsolute) :=
    if resolvedAbsolute then (resolvedPath, resolvedAbsolute)
    else match cwd with
         | [] => (resolvedPath, resolvedAbsolute)
         | _ :: _ => (cwd ++ "/" ++ resolvedPath, isAbsolute cwd)
         end in
  let np := normalizeString resolvedPath (negb resolvedAbsolute) in
  if resolvedAbsolute then "/" ++ np
  else match np with [] => "." | _ :: _ => np end.

(** What is left of two component sequences below their common prefix. *)
Fixpoint drop_common (a b : list jsstring) : list jsstring * list jsstring :=
  match a, b with
  | x :: a', y :: b' => if str_eqb x y then drop_common a' b' else (a, b)
  | _, _ => (a, b)
  end.

(** [path.relative(from, to)]: one [..] for each component of [from] below
    the common prefix, then the components of [to] below it. *)
Definition relative (cwd from to : jsstring) : jsstring :=
  if str_eqb from to then []
  else
    let from' := resolve cwd from in
    let to' := resolve cwd to in
    if str_eqb from' to' then []
    else
      let '(up, down) := drop_common (components from') (components to') in
      join "/" (map (fun _ => js "..") up ++ down).

(** The scan of [dirname]: [rp] holds the characters at the indices
    [length rp .. 1] of the path, last first; the result is [end]. *)
Fixpoint dirname_scan (rp : jsstring) (matchedSlash : bool) : option nat :=
  match rp with
  | [] => None
  | c :: rest =>
      let i := S (length rest) in
      if is_slash c then
        if negb matchedSlash then Some i else dirname_scan rest matchedSlash
      else dirname_scan rest false
  end.

(** [path.dirname]. *)
Definition dirname (p : jsstring) : jsstring :=
  match p with
  | [] => "."
  | c0 :: tl =>
      let hasRoot := is_slash c0 in
      match dirname_scan (rev tl) true with
      | None => if hasRoot then "/" else "."
      | Some e => if hasRoot && (e =? 1) then "//" else slice p 0 e
      end
  end.

(** The scan of [basename]: [rp] holds the characters at the indices
    [length rp - 1 .. 0], last first; the result is [(start, end)]. *)
Fixpoint basename_scan (rp : jsstring) (e : option nat) (matchedSlash : bool)
  : nat * option nat :=
  match rp with
  | [] => (0, e)
  | c :: rest =>
      let i := length rest in
      if is_slash c then
        if negb matchedSlash then (i + 1, e)
        else basename_scan rest e matchedSlash
      else match e with
           | None => basename_scan rest (Some (i + 1)) false
           | Some _ => basename_scan rest e matchedSlash
           end
  end.

(** [path.basename] without a suffix argument. *)
Definition basename (p : jsstring) : jsstring :=
  match basename_scan (rev p) None true with
  | (_, None) => []
  | (start, Some e) => slice p start e
  end.

(** The state of the scan of [extname]; [preDotState] is [0], [1] or [-1]. *)
Record ext_state := mk_ext_state {
  startDot : option nat;
  startPart : nat;
  ext_end : option nat;
  ext_matchedSlash : bool;
  preDotState : Z
}.

Fixpoint extname_scan (rp : jsstring) (st : ext_state) : ext_state :=
  match rp with
  | [] => st
  | c :: rest =>
      let i := length rest in
      if is_slash c then
        if negb (ext_matchedSlash st)
        then mk_ext_state (startDot st) (i + 1) (ext_end st)
                          (ext_matchedSlash st) (preDotState st)
        else extname_scan rest st
      else
        let st1 :=
          match ext_end st with
          | None => mk_ext_state (startDot st) (startPart st) (Some (i + 1))
                                 false (preDotState st)
          | Some _ => st
          end in
        let st2 :=
          if ascii_eqb c dot then
            match startDot st1 with
            | None => mk_ext_state (Some i) (startPart st1) (ext_end st1)
                                   (ext_matchedSlash st1) (preDotState st1)
            | Some _ =>
                if negb (preDotState st1 =? 1)%Z
                then mk_ext_state (startDot st1) (startPart st1) (ext_end st1)
                                  (ext_matchedSlash st1) 1%Z
                else st1
            end
          else
            match startDot st1 with
            | Some _ => mk_ext_state (startDot st1) (startPart st1) (ext_end st1)
                                     (ext_matchedSlash st1) (-1)%Z
            | None => st1
            end in
        extname_scan rest st2
  end.

(** [path.extname]. *)
Definition extname (p : jsstring) : jsstring :=
  let st := extname_scan (rev p) (mk_ext_state None 0 None true 0%Z) in
  match startDot st, ext_end st with
  | Some sd, Some e =>
      if (preDotState st =? 0)%Z
         || ((preDotState st =? 1)%Z && (sd =? e - 1) && (sd =? startPart st + 1))
      then []
      else slice p sd e
  | _, _ => []
  end.

End Path.

(** ** Regular expressions

    A backtracking matcher for the fragment of JavaScript regular
    expressions the source uses: character classes, sequence, alternation,
    greedy repetition, capture groups and the assertions [^] and [$]
    (without the [m] flag). *)

Module Regex.

Inductive regex : Type :=
| Eps : regex
| Chr : (ascii -> bool) -> regex
| Seq : regex -> regex -> regex
| Alt : regex -> regex -> regex
| Star : regex -> regex
| Group : nat -> regex -> regex
| Bol : regex
| Eol : regex.

Definition Plus (r : regex) : regex := Seq r (Star r).
Definition Opt (r : regex) : regex := Alt r Eps.

Fixpoint Lit (s : jsstring) : regex :=
  match s with
  | [] => Eps
  | a :: s' => Seq (Chr (ascii_eqb a)) (Lit s')
  end.

Fixpoint seqs (rs : list regex) : regex :=
  match rs with
  | [] => Eps
  | r :: rs' => Seq r (seqs rs')
  end.

(** Captures, most recent first. *)
Definition captures := list (nat * jsstring).

Fixpoint capture (n : nat) (c : captures) : option jsstring :=
  match c with
  | [] => None
  | (m, w) :: c' => if m =? n then Some w else capture n c'
  end.

Section Matcher.
Context {R : Type}.

(** A continuation receives whether the position is still the start of
    the input, the rest of the input and the captures. *)
Definition cont := bool -> jsstring -> captures -> option R.

Definition orelse (x y : option R) : option R :=
  match x with
  | Some _ => x
  | None => y
  end.

(** The iterations of a greedy [*]: as many as possible, given back one
    at a time; an iteration that consumes nothing is refused.  [fuel]
    bounds the number of iterations by the length of the input. *)
Fixpoint star_iter (body : bool -> jsstring -> captures -> cont -> option R)
    (k : cont) (fuel : nat) (b : bool) (s : jsstring) (c : captures)
  : option R :=
  match fuel with
  | 0 => k b s c
  | S fuel' =>
      orelse
        (body b s c
           (fun b' s' c' =>
              if length s' <? length s then star_iter body k fuel' b' s' c'
              else None))
        (k b s c)
  end.

(** [rmatch r b s c k]: match [r] at the front of [s] and continue with
    [k]; alternatives are tried in order. *)
Fixpoint rmatch (r : regex) (b : bool) (s : jsstring) (c : captures) (k : cont)
  {struct r} : option R :=
  match r with
  | Eps => k b s c
  | Chr p =>
      match s with
      | a :: s' => if p a then k false s' c else None
      | [] => None
      end
  | Seq r1 r2 => rmatch r1 b s c (fun b' s' c' => rmatch r2 b' s' c' k)
  | Alt r1 r2 => orelse (rmatch r1 b s c k) (rmatch r2 b s c k)
  | Star r1 => star_iter (rmatch r1) k (length s) b s c
  | Group n r1 =>
      rmatch r1 b s c
        (fun b' s' c' => k b' s' ((n, firstn (length s - length s') s) :: c'))
  | Bol => if b then k b s c else None
  | Eol => match s with [] => k b s c | _ :: _ => None end
  end.

End Matcher.

(** A match attempt at the current position: the rest of the input after
    the match and the captures. *)
Definition match_here (r : regex) (b : bool) (s : jsstring)
  : option (jsstring * captures) :=
  rmatch r b s [] (fun _ s' c => Some (s', c)).

(** [RegExp.prototype.exec] without flags: the first position from which
    the pattern matches. *)
Fixpoint exec_from (r : regex) (b : bool) (s : jsstring) : option captures :=
  match match_here r b s with
  | Some (_, c) => Some c
  | None =>
      match s with
      | [] => None
      | _ :: s' => exec_from r false s'
      end
  end.

Definition exec (r : regex) (s : jsstring) : option captures :=
  exec_from r true s.

(** [r.test(s)]. *)
Definition test (r : regex) (s : jsstring) : bool :=
  match exec r s with
  | Some _ => true
  | None => false
  end.

(** [s.replace(r, '')] for a pattern with the [g] flag: every match, left
    to right, is deleted; after an empty match or a failure the scan moves
    one character on. *)
Fixpoint replace_loop (fuel : nat) (r : regex) (b : bool) (s : jsstring)
  : jsstring :=
  match fuel with
  | 0 => s
  | S fuel' =>
      let step :=
        match s with
        | [] => []
        | a :: s' => a :: replace_loop fuel' r false s'
        end in
      match match_here r b s with
      | Some (s', _) =>
          if length s' <? length s then replace_loop fuel' r false s' else step
      | None => step
      end
  end.

Definition replace_all_empty (r : regex) (s : jsstring) : jsstring :=
  replace_loop (S (length s)) r true s.

(** [s.split(r)] for a pattern without capture groups: [cur] is the piece
    being collected, last character first.  A match that ends where the
    piece began splits nothing. *)
Fixpoint split_loop (fuel : nat) (r : regex) (b : bool) (cur s : jsstring)
  : list jsstring :=
  match fuel with
  | 0 => [rev cur ++ s]
  | S fuel' =>
      match s with
      | [] => [rev cur]
      | a :: s' =>
          match match_here r b s with
          | Some (rest, _) =>
              if (length rest =? length s) && negb (truthy cur)
              then split_loop fuel' r false (a :: cur) s'
              else rev cur :: split_loop fuel' r false [] rest
          | None => split_loop fuel' r false (a :: cur) s'
          end
      end
  end.

Definition split (r : regex) (s : jsstring) : list jsstring :=
  match s with
  | [] => match match_here r true [] with Some _ => [] | None => [[]] end
  | _ :: _ => split_loop (2 * length s + 1) r true [] s
  end.

End Regex.

(** ** [src/core.ts] *)

Import Regex.

Definition ident_start (a : ascii) : bool :=
  in_range 65 90 a || in_range 97 122 a || ascii_eqb a "_"%char.

Definition ident_char (a : ascii) : bool :=
  ident_start a || in_range 48 57 a.

Definition not_equals (a : ascii) : bool := negb (ascii_eqb a "="%char).

(** [[A-Za-z_][A-Za-z0-9_]*] *)
Definition re_identifier : regex := Seq (Chr ident_start) (Star (Chr ident_char)).

Definition re_space : regex := Chr is_space.

(** [/^([/\\])+|([/\\])+$/g] *)
Definition re_edge_separators : regex :=
  Alt (Seq Bol (Plus (Group 1 (Chr is_sep))))
      (Seq (Plus (Group 2 (Chr is_sep))) Eol).

(** [/[\\/]+/] *)
Definition re_separators : regex := Plus (Chr is_sep).

(** [/^[A-Za-z_][A-Za-z0-9_]*$/] *)
Definition re_python_identifier : regex :=
  seqs [Bol; Chr ident_start; Star (Chr ident_char); Eol].

Definition normalizeSourceRoot (raw : jsstring) : jsstring :=
  let trimmed := trim raw in
  if negb (truthy trimmed) then []
  else replace_all_empty re_edge_separators (Path.normalize trimmed).

(** The five declaration patterns, in the order of the source. *)
Definition pattern_async_def : regex :=
  seqs [Bol; Star re_space; Lit "async"; Plus re_space; Lit "def"; Plus re_space;
        Group 1 re_identifier; Star re_space; Chr (ascii_eqb "("%char)].

Definition pattern_def : regex :=
  seqs [Bol; Star re_space; Lit "def"; Plus re_space;
        Group 1 re_identifier; Star re_space; Chr (ascii_eqb "("%char)].

Definition pattern_class : regex :=
  seqs [Bol; Star re_space; Lit "class"; Plus re_space;
        Group 1 re_identifier; Star re_space;
        Chr (fun a => ascii_eqb a "("%char || ascii_eqb a ":"%char)].

Definition pattern_assignment : regex :=
  seqs [Bol; Star re_space; Group 1 re_identifier; Star re_space;
        Opt (Seq (Chr (ascii_eqb ":"%char)) (Plus (Chr not_equals)));
        Chr (ascii_eqb "="%char)].

Definition pattern_annotation : regex :=
  seqs [Bol; Star re_space; Group 1 re_identifier; Star re_space;
        Chr (ascii_eqb ":"%char); Star re_space; Plus (Chr not_equals); Eol].

Definition patterns : list regex :=
  [pattern_async_def; pattern_def; pattern_class;
   pattern_assignment; pattern_annotation].

(** The loop over the patterns: [match?.[1]] must be a non-empty string for
    the loop to return. *)
Fixpoint first_capture (ps : list regex) (line : jsstring) : option jsstring :=
  match ps with
  | [] => None
  | p :: ps' =>
      match exec p line with
      | Some c =>
          match capture 1 c with
          | Some w => if truthy w then Some w else first_capture ps' line
          | None => first_capture ps' line
          end
      | None => first_capture ps' line
      end
  end.

Definition extractSymbolNameFromLine (line : jsstring) : option jsstring :=
  first_capture patterns line.

Definition splitPath (input : jsstring) : list jsstring :=
  if negb (truthy input) || str_eqb input "." then []
  else filter truthy (split re_separators input).

Fixpoint hasPrefix_loop (input prefix : list jsstring) (caseSensitive : bool)
  {struct prefix} : bool :=
  match prefix, input with
  | [], _ => true
  | p :: prefix', x :: input' =>
      let left := if caseSensitive then x else toLowerCase x in
      let right := if caseSensitive then p else toLowerCase p in
      if negb (str_eqb left right) then false
      else hasPrefix_loop input' prefix' caseSensitive
  | _ :: _, [] => false
  end.

Definition hasPrefix (input prefix : list jsstring) (caseSensitive : bool)
  : bool :=
  if (length prefix =? 0) || (length input <? length prefix) then false
  else hasPrefix_loop input prefix caseSensitive.

Definition isValidPythonIdentifier (name : jsstring) : bool :=
  test re_python_identifier name.

Record ToPythonModulePathOptions := mk_options {
  workspacePackageName : option jsstring;
  platform : option jsstring
}.

(** The [options = {}] default. *)
Definition no_options : ToPythonModulePathOptions := mk_options None None.

(** What the function reads from the Node process. *)
Record process := mk_process {
  cwd : jsstring;
  process_platform : jsstring
}.

Definition toPythonModulePath (proc : process)
    (filePath workspaceRootPath sourceRoot : jsstring)
    (options : ToPythonModulePathOptions) : option jsstring :=
  let relativePath := Path.relative (cwd proc) workspaceRootPath filePath in
  if negb (truthy relativePath)
     || startsWith ".." relativePath
     || Path.isAbsolute relativePath
  then None
  else
    let relativeDir := Path.dirname relativePath in
    let baseName := Path.basename relativePath in
    let ext := toLowerCase (Path.extname baseName) in
    let stem := if truthy ext then slice_drop_end baseName (length ext)
                else baseName in
    let isPythonFile := str_eqb ext ".py" || str_eqb ext ".pyi" in
    if negb isPythonFile then None
    else
      let segments := splitPath relativeDir in
      let segments :=
        if truthy sourceRoot then
          let sourceSegments := splitPath sourceRoot in
          let caseSensitive :=
            negb (str_eqb
                    (match platform options with
                     | Some p => p
                     | None => process_platform proc
                     end) "win32") in
          if hasPrefix segments sourceSegments caseSensitive
          then skipn (length sourceSegments) segments
          else segments
        else segments in
      if str_eqb stem "__init__" then
        if 0 <? length segments then Some (join "." segments)
        else
          match option_map trim (workspacePackageName options) with
          | Some name =>
              if truthy name && isValidPythonIdentifier name
              then Some name
              else None
          | None => None
          end
      else
        let segments := segments ++ [stem] in
        if 0 <? length segments then Some (join "." segments) else None.

(** ** The quantities named by the statements

    The local constants of [toPythonModulePath], as functions of its
    arguments. *)

Definition relativePath (proc : process) (workspaceRootPath filePath : jsstring)
  : jsstring :=
  Path.relative (cwd proc) workspaceRootPath filePath.

(** The guard of the first [return undefined]. *)
Definition outside_root (rel : jsstring) : bool :=
  negb (truthy rel) || startsWith ".." rel || Path.isAbsolute rel.

Definition raw_extension (rel : jsstring) : jsstring :=
  Path.extname (Path.basename rel).

Definition extension (rel : jsstring) : jsstring :=
  toLowerCase (raw_extension rel).

Definition file_stem (rel : jsstring) : jsstring :=
  if truthy (extension rel)
  then slice_drop_end (Path.basename rel) (length (extension rel))
  else Path.basename rel.

Definition recognized (ext : jsstring) : bool :=
  str_eqb ext ".py" || str_eqb ext ".pyi".

Definition effective_platform (proc : process)
    (options : ToPythonModulePathOptions) : jsstring :=
  match platform options with
  | Some p => p
  | None => process_platform proc
  end.

(** [segments] after the source-root prefix was removed. *)
Definition strip_source_root (caseSensitive : bool) (sourceRoot : jsstring)
    (segments : list jsstring) : list jsstring :=
  if truthy sourceRoot then
    if hasPrefix segments (splitPath sourceRoot) caseSensitive
    then skipn (length (splitPath sourceRoot)) segments
    else segments
  else segments.

Definition dir_segments (proc : process) (rel sourceRoot : jsstring)
    (options : ToPythonModulePathOptions) : list jsstring :=
  strip_source_root
    (negb (str_eqb (effective_platform proc options) "win32"))
    sourceRoot (splitPath (Path.dirname rel)).

(** The name the root-level initializer falls back to, if any. *)
Definition fallback_name (options : ToPythonModulePathOptions)
  : option jsstring :=
  match option_map trim (workspacePackageName options) with
  | Some name =>
      if truthy name && isValidPythonIdentifier name then Some name else None
  | None => None
  end.

(** ** Syntactic properties of patterns *)

(** Every match of the pattern consumes at least one character. *)
Fixpoint consuming (r : regex) : bool :=
  match r with
  | Chr _ => true
  | Seq r1 r2 => consuming r1 || consuming r2
  | Alt r1 r2 => consuming r1 && consuming r2
  | Group _ r1 => consuming r1
  | Eps | Star _ | Bol | Eol => false
  end.

(** Every capture group of the pattern wraps a consuming pattern. *)
Fixpoint groups_consume (r : regex) : bool :=
  match r with
  | Seq r1 r2 | Alt r1 r2 => groups_consume r1 && groups_consume r2
  | Star r1 => groups_consume r1
  | Group _ r1 => consuming r1 && groups_consume r1
  | Eps | Chr _ | Bol | Eol => true
  end.

(** Every match of the pattern passes through group [n]. *)
Fixpoint sets_group (n : nat) (r : regex) : bool :=
  match r with
  | Seq r1 r2 => sets_group n r1 || sets_group n r2
  | Alt r1 r2 => sets_group n r1 && sets_group n r2
  | Group m r1 => (m =? n) || sets_group n r1
  | Eps | Chr _ | Star _ | Bol | Eol => false
  end.

(** No capture is the empty string. *)
Definition captures_nonempty (c : captures) : Prop :=
  forall n w, capture n c = Some w -> w <> [].

(** What a successful match guarantees: the continuation was entered on a
    suffix no longer than the input, strictly shorter for a consuming
    pattern, with captures that are still non-empty, and with group [n]
    present if the pattern passes through it. *)
Definition match_post {R : Type} (r : regex) (s : jsstring) (c : captures)
    (n : nat) (k : @cont R) (v : R) : Prop :=
  exists b' s' c',
    k b' s' c' = Some v
    /\ length s' <= length s
    /\ (consuming r = true -> length s' < length s)
    /\ (captures_nonempty c -> captures_nonempty c')
    /\ (capture n c <> None \/ sets_group n r = true -> capture n c' <> None).

(** The first pattern that matches decides, and its first group is the
    result: the extractor as the specification words it. *)
Fixpoint first_match (ps : list regex) (line : jsstring) : option jsstring :=
  match ps with
  | [] => None
  | p :: ps' =>
      match exec p line with
      | Some c => capture 1 c
      | None => first_match ps' line
      end
  end.

(** A Node process on a POSIX host, for the examples. *)
Definition posix_process : process := mk_process "/home/user" "linux".

(** The string [hasPrefix] compares for a segment. *)
Definition fold_case (caseSensitive : bool) (s : jsstring) : jsstring :=
  if caseSensitive then s else toLowerCase s.

(** The string contains neither [/] nor [\]. *)
Definition no_sep (s : jsstring) : Prop :=
  forallb (fun a => negb (is_sep a)) s = true.

(** The string contains no [/]. *)
Definition no_slash (s : jsstring) : Prop :=
  forallb (fun a => negb (is_slash a)) s = true.

(** The string contains no [\]. *)
Definition no_backslash (s : jsstring) : Prop :=
  forallb (fun a => negb (ascii_eqb a backslash)) s = true.

Fixpoint take_while (p : ascii -> bool) (s : jsstring) : jsstring :=
  match s with
  | [] => []
  | a :: s' => if p a then a :: take_while p s' else []
  end.

Definition not_slash (a : ascii) : bool := negb (is_slash a).

(** What the scan of [extname] maintains with [n] characters left: the dot
    it has chosen is not among them, and [preDotState] only leaves [0]
    for a dot that is not the first character. *)
Definition ext_inv (n : nat) (st : Path.ext_state) : Prop :=
  (forall sd, Path.startDot st = Some sd -> n <= sd)
  /\ (Path.preDotState st <> 0%Z ->
      exists sd, Path.startDot st = Some sd /\ 1 <= sd).

(** A string without its leading and trailing runs of separators. *)
Definition strip_edges (s : jsstring) : jsstring :=
  drop_while_end is_sep (drop_while is_sep s).

(** A path component other than [.] and [..]. *)
Definition ordinary (seg : jsstring) : Prop :=
  seg <> js "." /\ seg <> js "..".

(** A resolved component sequence: some [..] components, then ordinary
    ones. *)
Definition normal_form (l : list jsstring) : Prop :=
  exists k m, l = repeat (js "..") k ++ m /\ Forall ordinary m.

(** A non-empty component without separators. *)
Definition clean (seg : jsstring) : Prop := seg <> [] /\ no_sep seg.

(** ** [src/extension.ts]

    The values of the VS Code API the extension handles, and what it asks
    of the editor.  Calls into VS Code ([executeCommand],
    [getWorkspaceFolder], [openTextDocument], [Range.contains],
    [Uri.joinPath], the configuration) are functions of an [Environment];
    they are taken to return. *)

Record Position := mk_position { pos_line : Z; pos_character : Z }.

Record Range := mk_range { range_start : Position; range_end : Position }.

Record Uri := mk_uri { scheme : jsstring; fsPath : jsstring }.

Inductive DefinitionResult : Type :=
| Location (uri : Uri) (range : Range)
| LocationLink (targetUri : Uri) (targetRange : Range)
    (targetSelectionRange : option Range).

#[warnings="-register-all"] Inductive DocumentSymbol : Type :=
| mk_document_symbol (name : jsstring) (range : Range)
    (children : list DocumentSymbol).

Definition ds_name (s : DocumentSymbol) : jsstring :=
  match s with mk_document_symbol n _ _ => n end.

Definition ds_range (s : DocumentSymbol) : Range :=
  match s with mk_document_symbol _ r _ => r end.

Definition ds_children (s : DocumentSymbol) : list DocumentSymbol :=
  match s with mk_document_symbol _ _ c => c end.

Record SymbolInformation := mk_symbol_information {
  si_name : jsstring;
  si_location_uri : Uri;
  si_location_range : Range
}.

(** An element of the array the document-symbol provider returns. *)
Inductive ProvidedSymbol : Type :=
| IsDocumentSymbol (s : DocumentSymbol)
| IsSymbolInformation (s : SymbolInformation).

Record WorkspaceFolder := mk_workspace_folder { folder_uri : Uri }.

Record TextEditor := mk_text_editor {
  languageId : jsstring;
  document_uri : Uri;
  selection_active : Position;
  (** the text of [getWordRangeAtPosition(selection.active)], if any *)
  word_at_cursor : option jsstring
}.

Record Environment := mk_environment {
  activeTextEditor : option TextEditor;
  executeDefinitionProvider : Uri -> Position -> option (list DefinitionResult);
  executeDocumentSymbolProvider : Uri -> option (list ProvidedSymbol);
  getWorkspaceFolder : Uri -> option WorkspaceFolder;
  range_contains : Range -> Position -> bool;
  (** [openTextDocument(uri).lineAt(line).text] *)
  lineAt_text : Uri -> Z -> jsstring;
  (** [getConfiguration('python-import-copier').get('pythonSourceRoot', '')] *)
  pythonSourceRoot : jsstring;
  (** [Uri.joinPath(base, segment)] *)
  joinPath : Uri -> jsstring -> Uri;
  node_process : process
}.

(** A computation that returns or throws an [Error] with a message. *)
Inductive outcome (A : Type) : Type :=
| Returned (a : A)
| Thrown (message : jsstring).

Arguments Returned {A} a.
Arguments Thrown {A} message.

Definition bind {A B : Type} (x : outcome A) (f : A -> outcome B) : outcome B :=
  match x with
  | Returned a => f a
  | Thrown m => Thrown m
  end.

(** [const x = v; if (!x) throw new Error(message)] for an object. *)
Definition required {A : Type} (v : option A) (message : jsstring) : outcome A :=
  match v with
  | Some a => Returned a
  | None => Thrown message
  end.

(** [if (c) throw new Error(message)] *)
Definition throw_if (c : bool) (message : jsstring) : outcome unit :=
  if c then Thrown message else Returned tt.

(** [/[\\/]+$/] *)
Definition re_trailing_separators : regex := Seq (Plus (Chr is_sep)) Eol.

(** [s.replace(r, '')] for a pattern without the [g] flag: the first match
    is deleted. *)
Fixpoint replace_first_from (r : regex) (b : bool) (s : jsstring) : jsstring :=
  match match_here r b s with
  | Some (rest, _) => rest
  | None =>
      match s with
      | [] => []
      | a :: s' => a :: replace_first_from r false s'
      end
  end.

Definition replace_first_empty (r : regex) (s : jsstring) : jsstring :=
  replace_first_from r true s.

Definition pathBasename (path : jsstring) : jsstring :=
  let normalized := replace_first_empty re_trailing_separators path in
  let segments := filter truthy (split re_separators normalized) in
  last segments [].

(** Line and column numbers are integers.  JavaScript's numbers compute
    this expression without rounding as long as it stays below 2^53 in
    size, which it does for the line numbers an editor can hold. *)
Definition rangeSize (range : Range) : Z :=
  ((pos_line (range_end range) - pos_line (range_start range)) * 10000
   + (pos_character (range_end range) - pos_character (range_start range)))%Z.

Definition getDefinitionUri (definition : DefinitionResult) : Uri :=
  match definition with
  | LocationLink targetUri _ _ => targetUri
  | Location uri _ => uri
  end.

Definition getDefinitionPosition (definition : DefinitionResult) : Position :=
  match definition with
  | LocationLink _ targetRange targetSelectionRange =>
      range_start (match targetSelectionRange with
                   | Some r => r
                   | None => targetRange
                   end)
  | Location _ range => range_start range
  end.

(** [if (!best || rangeSize(candidate.range) < rangeSize(best.range))
    best = candidate] *)
Definition keep_smaller (candidate : DocumentSymbol)
    (best : option DocumentSymbol) : option DocumentSymbol :=
  match best with
  | None => Some candidate
  | Some b =>
      if (rangeSize (ds_range candidate) <? rangeSize (ds_range b))%Z
      then Some candidate
      else best
  end.

Section DocumentSymbols.
Variable contains : Range -> Position -> bool.
Variable position : Position.

(** One turn of the loop of [findMostSpecificDocumentSymbol]: nothing for
    a symbol whose range does not contain the position, otherwise
    [childMatch ?? symbol]. *)
Fixpoint symbol_candidate (symbol : DocumentSymbol) : option DocumentSymbol :=
  match symbol with
  | mk_document_symbol _ range children =>
      if negb (contains range position) then None
      else
        let childMatch :=
          (fix loop (symbols : list DocumentSymbol)
               (best : option DocumentSymbol) : option DocumentSymbol :=
             match symbols with
             | [] => best
             | s :: rest =>
                 match symbol_candidate s with
                 | None => loop rest best
                 | Some candidate => loop rest (keep_smaller candidate best)
                 end
             end) children None in
        Some (match childMatch with
              | Some c => c
              | None => symbol
              end)
  end.

Fixpoint most_specific_loop (symbols : list DocumentSymbol)
    (best : option DocumentSymbol) : option DocumentSymbol :=
  match symbols with
  | [] => best
  | s :: rest =>
      match symbol_candidate s with
      | None => most_specific_loop rest best
      | Some candidate => most_specific_loop rest (keep_smaller candidate best)
      end
  end.

Definition findMostSpecificDocumentSymbol (symbols : list DocumentSymbol)
  : option DocumentSymbol :=
  most_specific_loop symbols None.

End DocumentSymbols.

(** [Array.prototype.sort] with the comparator
    [(a, b) => size(a) - size(b)]: the sort is stable, and every stable
    sort yields this list. *)
Fixpoint insert_sorted {A : Type} (size : A -> Z) (x : A) (sorted : list A)
  : list A :=
  match sorted with
  | [] => [x]
  | y :: rest =>
      if (size x - size y <=? 0)%Z then x :: sorted
      else y :: insert_sorted size x rest
  end.

Definition sort_by_size {A : Type} (size : A -> Z) (l : list A) : list A :=
  fold_right (insert_sorted size) [] l.

Definition only_document_symbols (symbols : list ProvidedSymbol)
  : list DocumentSymbol :=
  flat_map (fun s => match s with
                     | IsDocumentSymbol d => [d]
                     | IsSymbolInformation _ => []
                     end) symbols.

Definition only_symbol_informations (symbols : list ProvidedSymbol)
  : list SymbolInformation :=
  flat_map (fun s => match s with
                     | IsSymbolInformation i => [i]
                     | IsDocumentSymbol _ => []
                     end) symbols.

Definition getSymbolNameFromDocumentSymbols (env : Environment)
    (uri : Uri) (position : Position) : option jsstring :=
  match executeDocumentSymbolProvider env uri with
  | None => None
  | Some symbols =>
      if length symbols =? 0 then None
      else
        let documentSymbols := only_document_symbols symbols in
        if 0 <? length documentSymbols then
          option_map ds_name
            (findMostSpecificDocumentSymbol (range_contains env) position
               documentSymbols)
        else
          let symbolInfos := only_symbol_informations symbols in
          if 0 <? length symbolInfos then
            let matches :=
              sort_by_size (fun s => rangeSize (si_location_range s))
                (filter (fun s => range_contains env (si_location_range s)
                                    position) symbolInfos) in
            option_map si_name (hd_error matches)
          else None
  end.

Definition getBestDefinition (env : Environment) (uri : Uri)
    (position : Position) : option DefinitionResult :=
  match executeDefinitionProvider env uri position with
  | None => None
  | Some definitions =>
      if length definitions =? 0 then None
      else
        match find (fun definition =>
                      let uriForDefinition := getDefinitionUri definition in
                      str_eqb (scheme uriForDefinition) "file"
                      && match getWorkspaceFolder env uriForDefinition with
                         | Some _ => true
                         | None => false
                         end) definitions with
        | Some inWorkspaceDefinition => Some inWorkspaceDefinition
        | None =>
            match find (fun definition =>
                          str_eqb (scheme (getDefinitionUri definition)) "file")
                    definitions with
            | Some d => Some d
            | None => hd_error definitions
            end
        end
  end.

(** A string-or-undefined that passes [if (x)]. *)
Definition truthy_name (x : option jsstring) : bool :=
  match x with
  | Some s => truthy s
  | None => false
  end.

Definition resolveSymbolName (env : Environment)
    (definition : DefinitionResult) (sourceEditor : TextEditor)
  : option jsstring :=
  let definitionUri := getDefinitionUri definition in
  let definitionPosition := getDefinitionPosition definition in
  let byDocumentSymbols :=
    getSymbolNameFromDocumentSymbols env definitionUri definitionPosition in
  if truthy_name byDocumentSymbols then byDocumentSymbols
  else
    let line := lineAt_text env definitionUri (pos_line definitionPosition) in
    let byDefinitionLine := extractSymbolNameFromLine line in
    if truthy_name byDefinitionLine then byDefinitionLine
    else word_at_cursor sourceEditor.

Definition getConfiguredSourceRoot (env : Environment) : jsstring :=
  normalizeSourceRoot (pythonSourceRoot env).

(** [copyPythonImport]: the import statement it writes to the clipboard
    and shows, or the error it throws. *)
Definition copyPythonImport (env : Environment) : outcome jsstring :=
  bind (required (activeTextEditor env) "No active editor found.")
    (fun editor =>
  bind (throw_if (negb (str_eqb (languageId editor) "python"))
          "Active editor is not a Python file.")
    (fun _ =>
  let position := selection_active editor in
  bind (required (getBestDefinition env (document_uri editor) position)
          "Definition not found for the symbol under the cursor.")
    (fun definition =>
  let definitionUri := getDefinitionUri definition in
  bind (throw_if (negb (str_eqb (scheme definitionUri) "file"))
          "Definition is not in a local file.")
    (fun _ =>
  bind (required (getWorkspaceFolder env definitionUri)
          "Definition file is outside the current workspace.")
    (fun workspaceFolder =>
  let sourceRoot := getConfiguredSourceRoot env in
  let modulePath :=
    toPythonModulePath (node_process env) (fsPath definitionUri)
      (fsPath (folder_uri workspaceFolder)) sourceRoot
      (mk_options (Some (pathBasename (fsPath (folder_uri workspaceFolder))))
                  (Some (process_platform (node_process env)))) in
  bind (if truthy_name modulePath then Returned tt
        else
          let rootInitPath :=
            fsPath (joinPath env (folder_uri workspaceFolder) "__init__.py") in
          if str_eqb (fsPath definitionUri) rootInitPath
          then Thrown "Definition points to a workspace-root __init__.py. Rename the workspace folder to a valid Python package name or set a source root that maps to a package directory."
          else Thrown "Could not determine a Python module path.")
    (fun _ =>
  let symbolName := resolveSymbolName env definition editor in
  bind (throw_if (negb (truthy_name symbolName))
          "Could not determine the symbol name at definition.")
    (fun _ =>
  let importStatement :=
    "from " ++ match modulePath with Some m => m | None => [] end
    ++ " import " ++ match symbolName with Some n => n | None => [] end in
  Returned importStatement))))))).

(** What the user sees after the command ran. *)
Record effects := mk_effects {
  clipboard : option jsstring;
  informationMessage : option jsstring;
  errorMessage : option jsstring
}.

(** The handler [activate] registers for the command. *)
Definition command_handler (env : Environment) : effects :=
  match copyPythonImport env with
  | Returned importStatement =>
      mk_effects (Some importStatement)
        (Some ("Copied Python import: " ++ importStatement)) None
  | Thrown message =>
      mk_effects None None
        (Some ("Python Import Copier: Could not copy import. " ++ message))
  end.

(** ** What a pattern matches

    [matches r (b, s, c) (b', s', c')]: the pattern can take the matcher
    from the state [(b, s, c)] to the state [(b', s', c')], by any of its
    alternatives and any number of iterations. *)

Inductive matches : regex -> bool -> jsstring -> captures ->
                    bool -> jsstring -> captures -> Prop :=
| matches_eps b s c : matches Eps b s c b s c
| matches_chr (p : ascii -> bool) b a s c :
    p a = true -> matches (Chr p) b (a :: s) c false s c
| matches_seq r1 r2 b s c b1 s1 c1 b2 s2 c2 :
    matches r1 b s c b1 s1 c1 -> matches r2 b1 s1 c1 b2 s2 c2 ->
    matches (Seq r1 r2) b s c b2 s2 c2
| matches_alt_l r1 r2 b s c b' s' c' :
    matches r1 b s c b' s' c' -> matches (Alt r1 r2) b s c b' s' c'
| matches_alt_r r1 r2 b s c b' s' c' :
    matches r2 b s c b' s' c' -> matches (Alt r1 r2) b s c b' s' c'
| matches_star_stop r b s c : matches (Star r) b s c b s c
| matches_star_step r b s c b1 s1 c1 b2 s2 c2 :
    matches r b s c b1 s1 c1 -> length s1 < length s ->
    matches (Star r) b1 s1 c1 b2 s2 c2 ->
    matches (Star r) b s c b2 s2 c2
| matches_group n r b s c b' s' c' :
    matches r b s c b' s' c' ->
    matches (Group n r) b s c b' s' ((n, firstn (length s - length s') s) :: c')
| matches_bol s c : matches Bol true s c true s c
| matches_eol b c : matches Eol b [] c b [] c.

(** The five shapes of a line that declares [name], as the patterns of
    [extractSymbolNameFromLine] read them. *)
Definition spaces (w : jsstring) : Prop := forallb is_space w = true.

Inductive declaration_line : jsstring -> jsstring -> Prop :=
| async_function_declaration ws ws1 ws2 name ws3 rest :
    spaces ws -> spaces ws1 -> ws1 <> [] -> spaces ws2 -> ws2 <> [] ->
    isValidPythonIdentifier name = true -> spaces ws3 ->
    declaration_line
      (ws ++ "async" ++ ws1 ++ "def" ++ ws2 ++ name ++ ws3 ++ "(" ++ rest) name
| function_declaration ws ws1 name ws2 rest :
    spaces ws -> spaces ws1 -> ws1 <> [] ->
    isValidPythonIdentifier name = true -> spaces ws2 ->
    declaration_line (ws ++ "def" ++ ws1 ++ name ++ ws2 ++ "(" ++ rest) name
| class_declaration ws ws1 name ws2 opener rest :
    spaces ws -> spaces ws1 -> ws1 <> [] ->
    isValidPythonIdentifier name = true -> spaces ws2 ->
    opener = "("%char \/ opener = ":"%char ->
    declaration_line (ws ++ "class" ++ ws1 ++ name ++ ws2 ++ opener :: rest) name
| assignment ws name ws1 rest :
    spaces ws -> isValidPythonIdentifier name = true -> spaces ws1 ->
    declaration_line (ws ++ name ++ ws1 ++ "=" ++ rest) name
| annotated_assignment ws name ws1 annotation rest :
    spaces ws -> isValidPythonIdentifier name = true -> spaces ws1 ->
    annotation <> [] -> forallb not_equals annotation = true ->
    declaration_line (ws ++ name ++ ws1 ++ ":" ++ annotation ++ "=" ++ rest) name
| bare_annotation ws name ws1 annotation :
    spaces ws -> isValidPythonIdentifier name = true -> spaces ws1 ->
    annotation <> [] -> forallb not_equals annotation = true ->
    declaration_line (ws ++ name ++ ws1 ++ ":" ++ annotation) name.

(** The string is empty or starts with a character outside the class. *)
Definition stops (p : ascii -> bool) (x : jsstring) : Prop :=
  match x with
  | [] => True
  | a :: _ => p a = false
  end.

(** ** Symbol trees

    Induction over a [DocumentSymbol] with the hypothesis for every child. *)
Definition DocumentSymbol_nested_ind (P : DocumentSymbol -> Prop)
    (step : forall name range children,
        Forall P children -> P (mk_document_symbol name range children))
  : forall symbol, P symbol :=
  fix go (symbol : DocumentSymbol) : P symbol :=
    match symbol with
    | mk_document_symbol name range children =>
        step name range children
          ((fix all (l : list DocumentSymbol) : Forall P l :=
              match l with
              | [] => Forall_nil P
              | s :: rest => Forall_cons s (go s) (all rest)
              end) children)
    end.

(** [innermost contains position s d]: [d] is reached from [s] through
    symbols whose ranges all contain the position, [s] and [d] included,
    and no child of [d] contains the position. *)
Inductive innermost (contains : Range -> Position -> bool)
    (position : Position) : DocumentSymbol -> DocumentSymbol -> Prop :=
| innermost_here s :
    contains (ds_range s) position = true ->
    (forall c, In c (ds_children s) ->
               contains (ds_range c) position = false) ->
    innermost contains position s s
| innermost_below s c d :
    contains (ds_range s) position = true ->
    In c (ds_children s) ->
    innermost contains position c d ->
    innermost contains position s d.

(** A range contains the positions from its start to its end, ends
    included, as [Range.contains] of VS Code has it. *)
Definition position_leb (p q : Position) : bool :=
  ((pos_line p <? pos_line q)
   || ((pos_line p =? pos_line q) && (pos_character p <=? pos_character q)))%Z.

Definition position_within (range : Range) (position : Position) : bool :=
  position_leb (range_start range) position
  && position_leb position (range_end range).

Definition lines (first last : Z) : Range :=
  mk_range (mk_position first 0) (mk_position last 0).

Definition ds_size (s : DocumentSymbol) : Z := rangeSize (ds_range s).

(** What one symbol yields to the loop of
    [findMostSpecificDocumentSymbol]: nothing exactly when its range does
    not contain the position, otherwise an innermost symbol below it of
    the least size. *)
Definition candidate_ok (contains : Range -> Position -> bool)
    (position : Position) (s : DocumentSymbol) : Prop :=
  (symbol_candidate contains position s = None
   <-> contains (ds_range s) position = false)
  /\ forall d, symbol_candidate contains position s = Some d ->
       innermost contains position s d
       /\ forall d', innermost contains position s d' ->
                     (ds_size d <= ds_size d')%Z.

(** ** An editing session

    A workspace [/home/user/shop] with the source root [src], opened on a
    POSIX host; the cursor of the active editor is on a use of [Cart].
    What the language server answers is left open. *)
Definition shop_folder : Uri := mk_uri "file" "/home/user/shop".

Definition cart_module : Uri := mk_uri "file" "/home/user/shop/src/shop/cart.py".

Definition shop_editor : TextEditor :=
  mk_text_editor "python" (mk_uri "file" "/home/user/shop/main.py")
    (mk_position 4 10) (Some (js "Cart")).

Definition shop_session (definitions : option (list DefinitionResult))
    (symbols : option (list ProvidedSymbol)) (line : jsstring) : Environment :=
  mk_environment (Some shop_editor)
    (fun _ _ => definitions)
    (fun _ => symbols)
    (fun uri => if startsWith "/home/user/shop/" (fsPath uri)
                then Some (mk_workspace_folder shop_folder) else None)
    position_within
    (fun _ _ => line)
    "src"
    (fun base segment => mk_uri (scheme base) (fsPath base ++ "/" ++ segment))
    posix_process.

(** The two tests of [getBestDefinition] on a definition. *)
Definition is_file (definition : DefinitionResult) : bool :=
  str_eqb (scheme (getDefinitionUri definition)) "file".

Definition in_workspace (env : Environment) (definition : DefinitionResult)
  : bool :=
  is_file definition
  && match getWorkspaceFolder env (getDefinitionUri definition) with
     | Some _ => true
     | None => false
     end.

(** [outer.contains(inner)] for two ranges. *)
Definition range_within (inner outer : Range) : bool :=
  position_leb (range_start outer) (range_start inner)
  && position_leb (range_end inner) (range_end outer).

Definition short_column (p : Position) : Prop :=
  (0 <= pos_character p < 10000)%Z.

(** ** Resolving [.] and [..]

    [resolves rooted l l']: the component sequence [l'] is obtained from
    [l] by removing [.] components, by removing an ordinary component
    together with the [..] that follows it and, below a root, by removing
    a leading [..]. *)
Inductive resolves (rooted : bool) : list jsstring -> list jsstring -> Prop :=
| resolves_done l : resolves rooted l l
| resolves_current l1 l2 l' :
    resolves rooted (l1 ++ l2) l' ->
    resolves rooted (l1 ++ js "." :: l2) l'
| resolves_parent l1 x l2 l' :
    ordinary x ->
    resolves rooted (l1 ++ l2) l' ->
    resolves rooted (l1 ++ x :: js ".." :: l2) l'
| resolves_above_root l l' :
    rooted = true ->
    resolves rooted l l' ->
    resolves rooted (js ".." :: l) l'.

(** What the stack of [norm_components] holds: no [.], and no [..] when
    the path may not climb above its root. *)
Definition kept (allowAboveRoot : bool) (seg : jsstring) : Prop :=
  seg <> js "." /\ (allowAboveRoot = false -> seg <> js "..").

(** A file that is not strictly inside the root, read off its path
    relative to the root: the relative path is empty, its first component
    is the parent-directory token [..], or it is absolute. *)
Definition not_strictly_inside (rel : jsstring) : bool :=
  negb (truthy rel)
  || match Path.split_on is_slash rel with
     | seg :: _ => str_eqb seg ".."
     | [] => false
     end
  || Path.isAbsolute rel.

(** Line numbers for which the arithmetic of [rangeSize] is exact in
    JavaScript's numbers. *)
Definition short_line (p : Position) : Prop :=
  (0 <= pos_line p < 4294967296)%Z.

(** * Properties *)

(** ** Strings *)

Lemma ascii_eqb_eq (a b : ascii) : ascii_eqb a b = true <-> a = b.
Proof. unfold ascii_eqb. apply Ascii.eqb_eq. Qed.

Lemma str_eqb_eq (s t : jsstring) : str_eqb s t = true <-> s = t.
Proof.
  revert t. induction s as [|a s IH]; intros [|b t]; simpl;
    try (split; [discriminate | discriminate]); [tauto|].
  rewrite andb_true_iff, ascii_eqb_eq, IH.
  split; [intros [-> ->]; reflexivity | intros H; inversion H; auto].
Qed.

Lemma str_eqb_refl (s : jsstring) : str_eqb s s = true.
Proof. apply str_eqb_eq. reflexivity. Qed.

Lemma str_eqb_neq (s t : jsstring) : str_eqb s t = false <-> s <> t.
Proof.
  rewrite <- str_eqb_eq. destruct (str_eqb s t); split; congruence.
Qed.

Lemma truthy_false (s : jsstring) : truthy s = false <-> s = [].
Proof. destruct s; simpl; split; congruence. Qed.

Lemma truthy_true (s : jsstring) : truthy s = true <-> s <> [].
Proof. destruct s; simpl; split; congruence. Qed.

Lemma toLowerCase_length (s : jsstring) : length (toLowerCase s) = length s.
Proof. apply length_map. Qed.

(** ** The shape of [toPythonModulePath] *)

(** The function in terms of the named quantities. *)
Lemma toPythonModulePath_eq proc filePath root sourceRoot options :
  toPythonModulePath proc filePath root sourceRoot options =
  let rel := relativePath proc root filePath in
  if outside_root rel then None
  else if negb (recognized (extension rel)) then None
  else
    let segments := dir_segments proc rel sourceRoot options in
    if str_eqb (file_stem rel) "__init__" then
      if 0 <? length segments then Some (join "." segments)
      else fallback_name options
    else Some (join "." (segments ++ [file_stem rel])).
Proof.
  unfold toPythonModulePath, relativePath, outside_root, recognized,
    file_stem, extension, raw_extension, dir_segments, strip_source_root,
    effective_platform, fallback_name.
  cbv zeta.
  repeat match goal with
         | |- (if ?c then _ else _) = (if ?c then _ else _) =>
             destruct c eqn:?; [try reflexivity | try reflexivity]
         end.
  all: try reflexivity.
  all: rewrite length_app, Nat.add_comm; reflexivity.
Qed.

(** ** The matcher *)

Section MatcherFacts.
Context {R : Type}.
Implicit Types (k : @cont R) (r : regex) (s : jsstring) (c : captures).

Lemma orelse_some (x y : option R) (v : R) :
  orelse x y = Some v -> x = Some v \/ (x = None /\ y = Some v).
Proof. destruct x; simpl; intros H; [left | right]; auto. Qed.

Lemma orelse_none_r (x : option R) : orelse x None = x.
Proof. destruct x; reflexivity. Qed.

(** Greedy repetition of a character class, one character at a time. *)
Lemma rmatch_star_chr_cons p k b a s c :
  rmatch (Star (Chr p)) b (a :: s) c k =
  if p a then orelse (rmatch (Star (Chr p)) false s c k) (k b (a :: s) c)
  else k b (a :: s) c.
Proof.
  simpl. destruct (p a); [|reflexivity].
  replace (length s <? S (length s)) with true
    by (symmetry; apply Nat.ltb_lt; lia).
  reflexivity.
Qed.

Lemma rmatch_star_group_chr_cons n p k b a s c :
  rmatch (Star (Group n (Chr p))) b (a :: s) c k =
  if p a
  then orelse (rmatch (Star (Group n (Chr p))) false s ((n, [a]) :: c) k)
              (k b (a :: s) c)
  else k b (a :: s) c.
Proof.
  cbn [rmatch star_iter length]. destruct (p a); [|reflexivity].
  replace (length s <? S (length s)) with true
    by (symmetry; apply Nat.ltb_lt; lia).
  replace (S (length s) - length s) with 1 by lia. reflexivity.
Qed.

Lemma capture_cons_nonempty m w c :
  w <> [] -> captures_nonempty c -> captures_nonempty ((m, w) :: c).
Proof.
  intros Hw Hc n v. simpl. destruct (m =? n); [intros [= <-]; exact Hw|].
  apply Hc.
Qed.

Lemma star_iter_sound r n k :
  (forall b s c k' v, rmatch r b s c k' = Some v -> match_post r s c n k' v) ->
  forall fuel b s c v,
    star_iter (rmatch r) k fuel b s c = Some v ->
    match_post (Star r) s c n k v.
Proof.
  intros Hr. induction fuel as [|fuel IH]; intros b s c v; simpl.
  - intros H. exists b, s, c. repeat split; auto; try discriminate.
    intros [H0|H0]; [exact H0 | discriminate].
  - intros H. apply orelse_some in H as [H|[_ H]].
    + apply Hr in H as (b1 & s1 & c1 & Hk & Hlen & _ & Hne & Hset).
      destruct (length s1 <? length s) eqn:Hlt; [|discriminate].
      apply IH in Hk as (b2 & s2 & c2 & Hk & Hlen2 & _ & Hne2 & Hset2).
      exists b2, s2, c2. repeat split; auto; try discriminate; try lia.
      intros [H0|H0]; [|discriminate]. apply Hset2. left. apply Hset. auto.
    + exists b, s, c. repeat split; auto; try discriminate.
      intros [H0|H0]; [exact H0 | discriminate].
Qed.

Lemma rmatch_sound r n :
  groups_consume r = true ->
  forall b s c k v, rmatch r b s c k = Some v -> match_post r s c n k v.
Proof.
  induction r as [|p|r1 IH1 r2 IH2|r1 IH1 r2 IH2|r1 IH1|m r1 IH1| |];
    unfold match_post in *; simpl; intros Hg b s c k v H.
  - exists b, s, c. repeat split; auto; try discriminate.
    intros [H0|H0]; [exact H0 | discriminate].
  - destruct s as [|a s]; [discriminate|]. destruct (p a); [|discriminate].
    exists false, s, c. simpl. repeat split; auto.
    intros [H0|H0]; [exact H0 | discriminate].
  - apply andb_true_iff in Hg as [Hg1 Hg2].
    apply (IH1 Hg1) in H as (b1 & s1 & c1 & Hk & Hlen & Hcons & Hne & Hset).
    apply (IH2 Hg2) in Hk as (b2 & s2 & c2 & Hk & Hlen2 & Hcons2 & Hne2 & Hset2).
    exists b2, s2, c2. repeat split; auto; try lia.
    + rewrite orb_true_iff. intros [Hc|Hc]; [apply Hcons in Hc | apply Hcons2 in Hc]; lia.
    + rewrite orb_true_iff. intros [H0|[H0|H0]]; apply Hset2; auto.
  - apply andb_true_iff in Hg as [Hg1 Hg2].
    apply orelse_some in H as [H|[_ H]];
      [apply (IH1 Hg1) in H | apply (IH2 Hg2) in H];
      destruct H as (b1 & s1 & c1 & Hk & Hlen & Hcons & Hne & Hset);
      exists b1, s1, c1; repeat split; auto;
      rewrite andb_true_iff; intros H0; [apply Hcons | apply Hset | apply Hcons | apply Hset]; tauto.
  - apply (star_iter_sound r1 n k (IH1 Hg)) in H. exact H.
  - apply andb_true_iff in Hg as [Hc Hg].
    apply (IH1 Hg) in H as (b1 & s1 & c1 & Hk & Hlen & Hcons & Hne & Hset).
    specialize (Hcons Hc).
    eexists _, _, _. split; [exact Hk|]. repeat split; auto.
    + intros Hcn. apply capture_cons_nonempty; auto.
      intros E. apply (f_equal (@length ascii)) in E.
      rewrite length_firstn in E. simpl in E. lia.
    + simpl. destruct (m =? n) eqn:E; [intros _; discriminate|].
      simpl. exact Hset.
  - destruct b; [|discriminate]. exists true, s, c.
    repeat split; auto; try discriminate.
    intros [H0|H0]; [exact H0 | discriminate].
  - destruct s; [|discriminate]. exists b, [], c.
    repeat split; auto; try discriminate.
    intros [H0|H0]; [exact H0 | discriminate].
Qed.

End MatcherFacts.

Lemma match_here_sound r n b s s' c :
  groups_consume r = true ->
  match_here r b s = Some (s', c) ->
  length s' <= length s
  /\ (consuming r = true -> length s' < length s)
  /\ captures_nonempty c
  /\ (sets_group n r = true -> capture n c <> None).
Proof.
  intros Hg H. unfold match_here in H.
  apply (rmatch_sound r n Hg) in H
    as (b1 & s1 & c1 & [= <- <-] & Hlen & Hcons & Hne & Hset).
  repeat split; auto.
  apply Hne. intros m w. discriminate.
Qed.

Lemma exec_from_sound r n b s c :
  groups_consume r = true ->
  exec_from r b s = Some c ->
  captures_nonempty c /\ (sets_group n r = true -> capture n c <> None).
Proof.
  intros Hg. revert b. induction s as [|a s IH]; intros b; simpl;
    destruct (match_here r b _) as [[s' c']|] eqn:E; try discriminate.
  - intros [= <-]. apply (match_here_sound r n) in E; tauto.
  - intros [= <-]. apply (match_here_sound r n) in E; tauto.
  - apply IH.
Qed.

(** A pattern of the extractor that matches yields a non-empty first
    group. *)
Lemma exec_pattern_capture p line c :
  In p patterns -> exec p line = Some c ->
  exists w, capture 1 c = Some w /\ truthy w = true.
Proof.
  intros Hin H.
  assert (Hp : groups_consume p = true /\ sets_group 1 p = true).
  { unfold patterns in Hin. simpl in Hin.
    repeat (destruct Hin as [<-|Hin]; [split; reflexivity|]).
    contradiction. }
  destruct Hp as [Hg Hs].
  apply (exec_from_sound p 1 _ _ _ Hg) in H as [Hne Hset].
  destruct (capture 1 c) as [w|] eqn:E; [|exfalso; apply (Hset Hs); reflexivity].
  exists w. split; [reflexivity|]. apply truthy_true. apply (Hne 1). exact E.
Qed.

Lemma first_capture_first_match ps line :
  (forall p, In p ps -> In p patterns) ->
  first_capture ps line = first_match ps line.
Proof.
  induction ps as [|p ps IH]; intros Hsub; simpl; [reflexivity|].
  destruct (exec p line) as [c|] eqn:E.
  - destruct (exec_pattern_capture p line c) as (w & -> & ->); auto.
    apply Hsub. left. reflexivity.
  - apply IH. intros q Hq. apply Hsub. right. exact Hq.
Qed.

Lemma first_match_none ps line :
  (forall p, In p ps -> In p patterns) ->
  first_match ps line = None <-> Forall (fun p => exec p line = None) ps.
Proof.
  induction ps as [|p ps IH]; intros Hsub; simpl.
  - split; auto.
  - assert (Hsub' : forall q, In q ps -> In q patterns)
      by (intros q Hq; apply Hsub; right; exact Hq).
    destruct (exec p line) as [c|] eqn:E.
    + destruct (exec_pattern_capture p line c) as (w & Hw & _); auto.
      { apply Hsub. left. reflexivity. }
      rewrite Hw. split; [discriminate|].
      intros H. inversion H; subst. congruence.
    + rewrite (IH Hsub'). split.
      * intros H. constructor; assumption.
      * intros H. inversion H; assumption.
Qed.

(** C5. [extractSymbolNameFromLine] tries the five declaration patterns in
    the order async function, function, class, assignment, bare annotation
    and returns the identifier captured by the first one that matches the
    line; it returns nothing exactly when no pattern matches. *)
Theorem extractSymbolNameFromLine_first_match (line : jsstring) :
  extractSymbolNameFromLine line =
    first_match [pattern_async_def; pattern_def; pattern_class;
                 pattern_assignment; pattern_annotation] line
  /\ (extractSymbolNameFromLine line = None <->
      Forall (fun p => exec p line = None)
        [pattern_async_def; pattern_def; pattern_class;
         pattern_assignment; pattern_annotation]).
Proof.
  unfold extractSymbolNameFromLine.
  rewrite (first_capture_first_match patterns line (fun p H => H)).
  split; [reflexivity|].
  apply (first_match_none patterns line (fun p H => H)).
Qed.

(** A pattern anchored with [^] matches at the start of the input or
    nowhere. *)
Lemma exec_from_anchored r s :
  exec_from (Seq Bol r) false s = None.
Proof. induction s as [|a s IH]; simpl; [reflexivity | exact IH]. Qed.

Lemma exec_anchored r s :
  exec (Seq Bol r) s = option_map snd (match_here (Seq Bol r) true s).
Proof.
  unfold exec. destruct s as [|a s]; simpl;
    destruct (match_here (Seq Bol r) true _) as [[s' c]|]; try reflexivity.
  apply exec_from_anchored.
Qed.

(** A greedy class repetition before a continuation that only accepts the
    end of the input succeeds exactly when the whole rest of the input is
    in the class. *)
Lemma star_chr_to_end {R : Type} p b s c (k : @cont R) :
  (forall b' a' s' c', k b' (a' :: s') c' = None) ->
  rmatch (Star (Chr p)) b s c k =
  if forallb p s then k (match s with [] => b | _ :: _ => false end) [] c
  else None.
Proof.
  intros Hk. revert b. induction s as [|a s IH]; intros b; [reflexivity|].
  rewrite rmatch_star_chr_cons. cbn [forallb].
  rewrite Hk. destruct (p a); [|reflexivity]. rewrite IH. cbn [andb].
  destruct (forallb p s); [|reflexivity].
  rewrite orelse_none_r. destruct s; reflexivity.
Qed.

Lemma rmatch_seq {R : Type} r1 r2 b s c (k : @cont R) :
  rmatch (Seq r1 r2) b s c k =
  rmatch r1 b s c (fun b' s' c' => rmatch r2 b' s' c' k).
Proof. reflexivity. Qed.

Lemma rmatch_chr_cons {R : Type} p b a s c (k : @cont R) :
  rmatch (Chr p) b (a :: s) c k = if p a then k false s c else None.
Proof. reflexivity. Qed.

Lemma rmatch_bol_true {R : Type} s c (k : @cont R) :
  rmatch Bol true s c k = k true s c.
Proof. reflexivity. Qed.

(** The identifier test, character by character. *)
Lemma isValidPythonIdentifier_spec (name : jsstring) :
  isValidPythonIdentifier name =
  match name with
  | [] => false
  | a :: rest => ident_start a && forallb ident_char rest
  end.
Proof.
  unfold isValidPythonIdentifier, test, re_python_identifier.
  cbn [seqs]. rewrite exec_anchored. unfold match_here.
  destruct name as [|a rest]; [reflexivity|].
  rewrite rmatch_seq, rmatch_bol_true, rmatch_seq, rmatch_chr_cons.
  destruct (ident_start a); [|reflexivity]. cbn [andb].
  rewrite rmatch_seq, star_chr_to_end by reflexivity.
  destruct (forallb ident_char rest); reflexivity.
Qed.

Lemma isValidPythonIdentifier_nonempty (name : jsstring) :
  isValidPythonIdentifier name = true -> truthy name = true.
Proof.
  rewrite isValidPythonIdentifier_spec. destruct name; [discriminate|reflexivity].
Qed.

(** ** Trimming *)

Lemma drop_while_app_all p (ws s : jsstring) :
  forallb p ws = true -> drop_while p (ws ++ s) = drop_while p s.
Proof.
  induction ws as [|a ws IH]; simpl; [reflexivity|].
  intros H. apply andb_true_iff in H as [-> H]. auto.
Qed.

Lemma drop_while_head_false p a (s : jsstring) :
  p a = false -> drop_while p (a :: s) = a :: s.
Proof. simpl. intros ->. reflexivity. Qed.

Lemma forallb_rev (p : ascii -> bool) (s : jsstring) :
  forallb p (rev s) = forallb p s.
Proof.
  induction s as [|a s IH]; simpl; [reflexivity|].
  rewrite forallb_app, IH. simpl. rewrite andb_true_r. apply andb_comm.
Qed.

Lemma drop_while_end_app_all p (s ws : jsstring) :
  forallb p ws = true -> drop_while_end p (s ++ ws) = drop_while_end p s.
Proof.
  intros H. unfold drop_while_end. rewrite rev_app_distr.
  rewrite drop_while_app_all; [reflexivity|]. rewrite forallb_rev. exact H.
Qed.

Lemma drop_while_end_last_false p (s : jsstring) a :
  p a = false -> drop_while_end p (s ++ [a]) = s ++ [a].
Proof.
  intros H. unfold drop_while_end. rewrite rev_app_distr. simpl.
  rewrite H. simpl. rewrite rev_involutive. reflexivity.
Qed.

Lemma ident_char_not_space a : ident_char a = true -> is_space a = false.
Proof.
  destruct a as [[] [] [] [] [] [] [] []]; vm_compute; congruence.
Qed.

Lemma ident_start_char a : ident_start a = true -> ident_char a = true.
Proof. unfold ident_char. intros ->. reflexivity. Qed.

(** Whitespace around an identifier is exactly what [trim] removes. *)
Lemma trim_around_identifier (ws1 ident ws2 : jsstring) :
  forallb is_space ws1 = true ->
  forallb is_space ws2 = true ->
  isValidPythonIdentifier ident = true ->
  trim (ws1 ++ ident ++ ws2) = ident.
Proof.
  intros H1 H2 Hid. rewrite isValidPythonIdentifier_spec in Hid.
  destruct ident as [|a rest]; [discriminate|].
  apply andb_true_iff in Hid as [Ha Hrest].
  unfold trim. rewrite drop_while_app_all by exact H1.
  change ((a :: rest) ++ ws2) with (a :: (rest ++ ws2)).
  rewrite drop_while_head_false
    by (apply ident_char_not_space, ident_start_char, Ha).
  change (a :: (rest ++ ws2)) with ((a :: rest) ++ ws2).
  rewrite drop_while_end_app_all by exact H2.
  assert (Hall : forallb ident_char (a :: rest) = true)
    by (simpl; rewrite (ident_start_char a Ha), Hrest; reflexivity).
  destruct (exists_last (l := a :: rest)) as (s0 & z & E); [discriminate|].
  rewrite E in *. rewrite forallb_app in Hall.
  apply andb_true_iff in Hall as [_ Hz]. simpl in Hz.
  apply drop_while_end_last_false, ident_char_not_space.
  destruct (ident_char z); [reflexivity | discriminate].
Qed.

(** ** Results of [toPythonModulePath] *)

Lemma recognized_spec (ext : jsstring) :
  recognized ext = true <-> ext = js ".py" \/ ext = js ".pyi".
Proof.
  unfold recognized. rewrite orb_true_iff, !str_eqb_eq. reflexivity.
Qed.

Lemma outside_root_spec (rel : jsstring) :
  outside_root rel = true <->
  rel = [] \/ startsWith ".." rel = true \/ Path.isAbsolute rel = true.
Proof.
  unfold outside_root. rewrite !orb_true_iff, negb_true_iff, truthy_false.
  tauto.
Qed.

Lemma fallback_name_spec (options : ToPythonModulePathOptions) (m : jsstring) :
  fallback_name options = Some m <->
  exists name, workspacePackageName options = Some name
               /\ m = trim name /\ isValidPythonIdentifier (trim name) = true.
Proof.
  unfold fallback_name. destruct (workspacePackageName options) as [name|]; simpl.
  - destruct (isValidPythonIdentifier (trim name)) eqn:E.
    + rewrite (isValidPythonIdentifier_nonempty _ E). simpl. split.
      * intros [= <-]. exists name. auto.
      * intros (n & [= <-] & -> & _). reflexivity.
    + rewrite andb_false_r. split; [discriminate|].
      intros (n & [= <-] & _ & H). congruence.
  - split; [discriminate|]. intros (n & H & _). discriminate.
Qed.

Lemma fallback_name_none (options : ToPythonModulePathOptions) :
  fallback_name options = None <->
  ~ exists name, workspacePackageName options = Some name
                 /\ isValidPythonIdentifier (trim name) = true.
Proof.
  destruct (fallback_name options) as [m|] eqn:E.
  - apply fallback_name_spec in E as (name & H1 & _ & H2).
    split; [discriminate|]. intros H. exfalso. apply H. exists name. auto.
  - split; [|reflexivity]. intros _ (name & H1 & H2).
    assert (H : fallback_name options = Some (trim name))
      by (apply fallback_name_spec; exists name; auto).
    congruence.
Qed.

Lemma length_pos_nonempty {A : Type} (l : list A) :
  (0 <? length l) = true <-> l <> [].
Proof.
  destruct l; simpl; split; try congruence; try discriminate; reflexivity.
Qed.

(** The returns of undefined, by the guards of the code: the relative
    path is empty, begins with the two characters [..] or is absolute; or
    the extension is not [.py] or [.pyi]; or the file is a package
    initializer with no directory segment left after source-root stripping
    and no usable [workspacePackageName]. *)
Theorem toPythonModulePath_undefined_iff
    (proc : process) (filePath rootPath sourceRoot : jsstring)
    (options : ToPythonModulePathOptions) :
  let rel := relativePath proc rootPath filePath in
  toPythonModulePath proc filePath rootPath sourceRoot options = None <->
    (rel = [] \/ startsWith ".." rel = true \/ Path.isAbsolute rel = true)
    \/ (extension rel <> js ".py" /\ extension rel <> js ".pyi")
    \/ (file_stem rel = js "__init__"
        /\ dir_segments proc rel sourceRoot options = []
        /\ ~ exists name, workspacePackageName options = Some name
                          /\ isValidPythonIdentifier (trim name) = true).
Proof.
  intros rel. rewrite toPythonModulePath_eq. fold rel. cbv zeta.
  rewrite <- outside_root_spec, <- fallback_name_none.
  destruct (outside_root rel); [tauto|].
  assert (Hrec : recognized (extension rel) = false <->
                 extension rel <> js ".py" /\ extension rel <> js ".pyi").
  { unfold recognized. rewrite orb_false_iff, !str_eqb_neq. reflexivity. }
  destruct (recognized (extension rel)) eqn:Erec; cbn [negb].
  2: { split; [intros _; right; left; apply Hrec; reflexivity | reflexivity]. }
  assert (Hnot : ~ (extension rel <> js ".py" /\ extension rel <> js ".pyi"))
    by (intros H; apply Hrec in H; discriminate).
  destruct (str_eqb (file_stem rel) "__init__") eqn:Estem.
  - apply str_eqb_eq in Estem.
    destruct (0 <? length (dir_segments proc rel sourceRoot options)) eqn:Elen.
    + apply length_pos_nonempty in Elen.
      split; [discriminate|]. intros [H|[H|(_ & H & _)]]; try tauto; congruence.
    + assert (Hnil : dir_segments proc rel sourceRoot options = []).
      { destruct (dir_segments proc rel sourceRoot options); [reflexivity|discriminate]. }
      split.
      * intros H. right. right. auto.
      * intros [H|[H|(_ & _ & H)]]; try tauto; congruence.
  - apply str_eqb_neq in Estem.
    split; [discriminate|]. intros [H|[H|(H & _)]]; try tauto; congruence.
Qed.

(** C1. The first guard tests the characters of the relative path, not
    its first component: a file in a directory whose name begins with two
    dots lies strictly inside the root (its relative path is not empty,
    does not start with the parent-directory token and is not absolute),
    has the extension [.py] and is no package initializer, and yet
    [toPythonModulePath] returns undefined for it. *)
Theorem toPythonModulePath_dotted_directory :
  relativePath posix_process "/root" "/root/..hidden/a.py"
  = js "..hidden/a.py"
  /\ not_strictly_inside (js "..hidden/a.py") = false
  /\ startsWith ".." (js "..hidden/a.py") = true
  /\ extension (js "..hidden/a.py") = js ".py"
  /\ file_stem (js "..hidden/a.py") = js "a"
  /\ toPythonModulePath posix_process "/root/..hidden/a.py" "/root" []
       no_options = None.
Proof.
  split; [reflexivity|]. split; [reflexivity|]. split; [reflexivity|].
  split; [reflexivity|]. split; reflexivity.
Qed.

(** The initializer branch: directory segments if there are any, else the
    trimmed workspace name if it is an identifier. *)
Lemma toPythonModulePath_init proc filePath rootPath sourceRoot options :
  let rel := relativePath proc rootPath filePath in
  let segments := dir_segments proc rel sourceRoot options in
  outside_root rel = false ->
  recognized (extension rel) = true ->
  file_stem rel = js "__init__" ->
  toPythonModulePath proc filePath rootPath sourceRoot options =
  match segments with
  | _ :: _ => Some (join "." segments)
  | [] =>
      match workspacePackageName options with
      | Some name =>
          if isValidPythonIdentifier (trim name) then Some (trim name) else None
      | None => None
      end
  end.
Proof.
  intros rel segments Hin Hext Hstem.
  rewrite toPythonModulePath_eq. fold rel. cbv zeta. fold segments.
  rewrite Hin, Hext, Hstem. cbn [negb]. rewrite str_eqb_refl.
  destruct segments as [|x l]; [|reflexivity].
  cbn [length Nat.ltb Nat.leb]. unfold fallback_name.
  destruct (workspacePackageName options) as [name|]; [|reflexivity].
  simpl. destruct (isValidPythonIdentifier (trim name)) eqn:E.
  - rewrite (isValidPythonIdentifier_nonempty _ E). reflexivity.
  - rewrite andb_false_r. reflexivity.
Qed.

(** C2, as stated, fails: at the root-level initializer with the workspace
    name [" workspace "], which does not match the identifier pattern, the
    result is defined. *)
Lemma init_untrimmed_name_counterexample :
  file_stem (relativePath posix_process "/root" "/root/__init__.py")
    = js "__init__"
  /\ dir_segments posix_process
       (relativePath posix_process "/root" "/root/__init__.py") []
       (mk_options (Some (js " workspace ")) None) = []
  /\ isValidPythonIdentifier " workspace " = false
  /\ toPythonModulePath posix_process "/root/__init__.py" "/root" []
       (mk_options (Some (js " workspace ")) None) = Some (js "workspace").
Proof. repeat split; vm_compute; reflexivity. Qed.

(** C2, amended. For a file with a recognized extension whose stem is
    [__init__] and whose path relative to the root is not empty, does not
    begin with the two characters [..] and is not absolute: if directory
    segments remain after source-root stripping the result is those
    segments joined by a dot;
    otherwise, if a [workspacePackageName] was supplied and, once its
    surrounding whitespace is trimmed, it matches the identifier pattern,
    the result is the trimmed name; otherwise the result is undefined. *)
Theorem init_module_path
    (proc : process) (filePath rootPath sourceRoot : jsstring)
    (options : ToPythonModulePathOptions) :
  let rel := relativePath proc rootPath filePath in
  let segments := dir_segments proc rel sourceRoot options in
  outside_root rel = false ->
  recognized (extension rel) = true ->
  file_stem rel = js "__init__" ->
  (segments <> [] ->
   toPythonModulePath proc filePath rootPath sourceRoot options
     = Some (join "." segments))
  /\ (segments = [] ->
      forall name, workspacePackageName options = Some name ->
        isValidPythonIdentifier (trim name) = true ->
        toPythonModulePath proc filePath rootPath sourceRoot options
          = Some (trim name))
  /\ (segments = [] ->
      (workspacePackageName options = None
       \/ exists name, workspacePackageName options = Some name
                       /\ isValidPythonIdentifier (trim name) = false) ->
      toPythonModulePath proc filePath rootPath sourceRoot options = None).
Proof.
  intros rel segments Hin Hext Hstem.
  rewrite (toPythonModulePath_init _ _ _ _ _ Hin Hext Hstem).
  fold rel. fold segments. repeat split.
  - destruct segments; [congruence | reflexivity].
  - intros -> name -> ->. reflexivity.
  - intros -> [->|(name & -> & ->)]; reflexivity.
Qed.

Lemma init_module_path_witness :
  toPythonModulePath posix_process "/root/mypkg/__init__.py" "/root" []
    no_options = Some (js "mypkg")
  /\ toPythonModulePath posix_process "/root/__init__.py" "/root" []
       (mk_options (Some (js " workspace ")) None) = Some (js "workspace")
  /\ toPythonModulePath posix_process "/root/__init__.py" "/root" []
       (mk_options (Some (js "my-workspace")) None) = None.
Proof.
  split; [|split].
  - destruct (init_module_path posix_process "/root/mypkg/__init__.py" "/root"
                [] no_options) as (H & _ & _);
      [vm_compute; reflexivity ..|].
    rewrite H; [reflexivity | vm_compute; discriminate].
  - destruct (init_module_path posix_process "/root/__init__.py" "/root" []
                (mk_options (Some (js " workspace ")) None)) as (_ & H & _);
      [vm_compute; reflexivity ..|].
    apply (H eq_refl (js " workspace ")); vm_compute; reflexivity.
  - destruct (init_module_path posix_process "/root/__init__.py" "/root" []
                (mk_options (Some (js "my-workspace")) None)) as (_ & _ & H);
      [vm_compute; reflexivity ..|].
    apply (H eq_refl). right. exists (js "my-workspace").
    split; vm_compute; reflexivity.
Defined.

(** C8. The [workspacePackageName] is trimmed before it is validated: for
    a root-level initializer, an identifier surrounded by whitespace is
    accepted and the identifier itself is the module path. *)
Theorem workspace_name_trimmed
    (proc : process) (filePath rootPath sourceRoot : jsstring)
    (pf : option jsstring) (ws1 ident ws2 : jsstring) :
  let options := mk_options (Some (ws1 ++ ident ++ ws2)) pf in
  let rel := relativePath proc rootPath filePath in
  outside_root rel = false ->
  recognized (extension rel) = true ->
  file_stem rel = js "__init__" ->
  dir_segments proc rel sourceRoot options = [] ->
  forallb is_space ws1 = true ->
  forallb is_space ws2 = true ->
  isValidPythonIdentifier ident = true ->
  trim (ws1 ++ ident ++ ws2) = ident
  /\ toPythonModulePath proc filePath rootPath sourceRoot options = Some ident.
Proof.
  intros options rel Hin Hext Hstem Hseg H1 H2 Hid.
  assert (Htrim := trim_around_identifier ws1 ident ws2 H1 H2 Hid).
  split; [exact Htrim|].
  rewrite (toPythonModulePath_init _ _ _ _ _ Hin Hext Hstem).
  fold rel. rewrite Hseg. unfold options. cbn [workspacePackageName].
  rewrite Htrim, Hid. reflexivity.
Qed.

Lemma workspace_name_trimmed_witness :
  trim (js " " ++ js "workspace" ++ js " ") = js "workspace"
  /\ toPythonModulePath posix_process "/root/__init__.py" "/root" []
       (mk_options (Some (js " workspace ")) None) = Some (js "workspace").
Proof.
  apply (workspace_name_trimmed posix_process "/root/__init__.py" "/root" []
           None (js " ") (js "workspace") (js " "));
    vm_compute; reflexivity.
Defined.

(** C9. A file whose base name is exactly [.py] or [.pyi] has an empty
    extension ([path.extname] of a dot-file) and therefore no module
    path. *)
Theorem dot_file_has_no_module_path
    (proc : process) (filePath rootPath sourceRoot : jsstring)
    (options : ToPythonModulePathOptions) :
  let baseName := Path.basename (relativePath proc rootPath filePath) in
  baseName = js ".py" \/ baseName = js ".pyi" ->
  Path.extname baseName = []
  /\ toPythonModulePath proc filePath rootPath sourceRoot options = None.
Proof.
  intros baseName Hb.
  assert (Hext : Path.extname baseName = [])
    by (destruct Hb as [-> | ->]; reflexivity).
  split; [exact Hext|].
  rewrite toPythonModulePath_eq. cbv zeta.
  destruct (outside_root _); [reflexivity|].
  unfold extension, raw_extension. fold baseName. rewrite Hext. reflexivity.
Qed.

Lemma dot_file_has_no_module_path_witness :
  Path.basename (relativePath posix_process "/root" "/root/pkg/.py") = js ".py"
  /\ Path.extname (js ".py") = []
  /\ toPythonModulePath posix_process "/root/pkg/.py" "/root" [] no_options
     = None.
Proof.
  split; [reflexivity|].
  apply (dot_file_has_no_module_path posix_process "/root/pkg/.py" "/root" []
           no_options).
  left. reflexivity.
Defined.

(** C6. A module path is defined only for a file whose extension,
    lowercased, is [.py] or [.pyi]; the comparison ignores case, so every
    case variant of the two extensions is accepted for an ordinary module
    inside the root, and any other extension yields undefined. *)
Theorem extension_recognized_ignoring_case
    (proc : process) (filePath rootPath sourceRoot : jsstring)
    (options : ToPythonModulePathOptions) :
  let rel := relativePath proc rootPath filePath in
  let ext := Path.extname (Path.basename rel) in
  (toPythonModulePath proc filePath rootPath sourceRoot options <> None ->
   toLowerCase ext = js ".py" \/ toLowerCase ext = js ".pyi")
  /\ (outside_root rel = false ->
      toLowerCase ext = js ".py" \/ toLowerCase ext = js ".pyi" ->
      file_stem rel <> js "__init__" ->
      toPythonModulePath proc filePath rootPath sourceRoot options <> None)
  /\ (toLowerCase ext <> js ".py" -> toLowerCase ext <> js ".pyi" ->
      toPythonModulePath proc filePath rootPath sourceRoot options = None).
Proof.
  intros rel ext. rewrite toPythonModulePath_eq. fold rel. cbv zeta.
  change (extension rel) with (toLowerCase ext).
  split; [|split].
  - destruct (outside_root rel); [congruence|].
    destruct (recognized (toLowerCase ext)) eqn:E; [|cbn [negb]; congruence].
    intros _. apply recognized_spec. exact E.
  - intros -> Hext Hstem. apply recognized_spec in Hext. rewrite Hext.
    cbn [negb]. apply str_eqb_neq in Hstem. rewrite Hstem. discriminate.
  - intros H1 H2. destruct (outside_root rel); [reflexivity|].
    destruct (recognized (toLowerCase ext)) eqn:E; [|reflexivity].
    apply recognized_spec in E. tauto.
Qed.

Lemma extension_recognized_ignoring_case_witness :
  toPythonModulePath posix_process "/root/pkg/mod.PY" "/root" [] no_options
    <> None
  /\ toPythonModulePath posix_process "/root/pkg/types.PyI" "/root" []
       no_options <> None
  /\ toPythonModulePath posix_process "/root/pkg/notes.txt" "/root" []
       no_options = None.
Proof.
  split; [|split].
  - apply (extension_recognized_ignoring_case posix_process "/root/pkg/mod.PY"
             "/root" [] no_options);
      [reflexivity | left; reflexivity | vm_compute; discriminate].
  - apply (extension_recognized_ignoring_case posix_process
             "/root/pkg/types.PyI" "/root" [] no_options);
      [reflexivity | right; reflexivity | vm_compute; discriminate].
  - apply (extension_recognized_ignoring_case posix_process
             "/root/pkg/notes.txt" "/root" [] no_options);
      vm_compute; discriminate.
Defined.



(** ** Source-root prefix matching *)

Lemma hasPrefix_loop_spec prefix : forall input caseSensitive,
  length prefix <= length input ->
  hasPrefix_loop input prefix caseSensitive = true <->
  map (fold_case caseSensitive) (firstn (length prefix) input)
    = map (fold_case caseSensitive) prefix.
Proof.
  induction prefix as [|p prefix IH]; intros input cs Hlen; simpl.
  - split; reflexivity.
  - destruct input as [|x input]; simpl in Hlen; [lia|]. simpl.
    change (if cs then x else toLowerCase x) with (fold_case cs x).
    change (if cs then p else toLowerCase p) with (fold_case cs p).
    destruct (str_eqb (fold_case cs x) (fold_case cs p)) eqn:E; simpl.
    + apply str_eqb_eq in E. rewrite IH by lia. rewrite E.
      split; [intros ->; reflexivity | intros H; inversion H; reflexivity].
    + apply str_eqb_neq in E. split; [discriminate|].
      intros H. inversion H. contradiction.
Qed.

Lemma hasPrefix_spec input prefix caseSensitive :
  hasPrefix input prefix caseSensitive = true <->
  prefix <> []
  /\ map (fold_case caseSensitive) (firstn (length prefix) input)
     = map (fold_case caseSensitive) prefix.
Proof.
  unfold hasPrefix.
  destruct (length prefix =? 0) eqn:E0; simpl.
  - apply Nat.eqb_eq in E0. destruct prefix; [|discriminate].
    split; [discriminate | intros [H _]; congruence].
  - apply Nat.eqb_neq in E0.
    assert (Hne : prefix <> []) by (intros ->; apply E0; reflexivity).
    destruct (length input <? length prefix) eqn:E1.
    + apply Nat.ltb_lt in E1. split; [discriminate|]. intros [_ H].
      apply (f_equal (@length jsstring)) in H.
      rewrite !length_map, length_firstn in H. lia.
    + apply Nat.ltb_ge in E1. rewrite hasPrefix_loop_spec by exact E1. tauto.
Qed.



(** ** Splitting on separators *)

(** A greedy class repetition before a continuation that always succeeds
    takes the whole run. *)
Lemma star_chr_greedy p : forall s b c,
  match_here (Star (Chr p)) b s = Some (drop_while p s, [])
  /\ rmatch (Star (Chr p)) b s c (fun _ s' c' => Some (s', c'))
     = Some (drop_while p s, c).
Proof.
  unfold match_here.
  assert (H : forall s b c,
             rmatch (Star (Chr p)) b s c (fun _ s' c' => Some (s', c'))
             = Some (drop_while p s, c)).
  { induction s as [|a s IH]; intros b c; [reflexivity|].
    rewrite rmatch_star_chr_cons. cbn [drop_while].
    destruct (p a); [|reflexivity]. rewrite IH. reflexivity. }
  intros s b c. split; apply H.
Qed.

(** [/[\\/]+/] at the current position. *)
Lemma match_here_separators b s :
  match_here re_separators b s =
  match s with
  | a :: s' => if is_sep a then Some (drop_while is_sep s', []) else None
  | [] => None
  end.
Proof.
  unfold match_here, re_separators, Plus. rewrite rmatch_seq.
  destruct s as [|a s']; [reflexivity|]. rewrite rmatch_chr_cons.
  destruct (is_sep a); [|reflexivity].
  apply (proj2 (star_chr_greedy is_sep s' false [])).
Qed.

Lemma drop_while_length p (s : jsstring) : length (drop_while p s) <= length s.
Proof.
  induction s as [|a s IH]; simpl; [lia|]. destruct (p a); simpl; lia.
Qed.

Section CharPredicates.
Variable q : ascii -> bool.

Lemma forallb_firstn n (s : jsstring) :
  forallb q s = true -> forallb q (firstn n s) = true.
Proof.
  revert n. induction s as [|a s IH]; intros [|n]; simpl; auto.
  intros H. apply andb_true_iff in H as [-> H]. simpl. auto.
Qed.

Lemma forallb_skipn n (s : jsstring) :
  forallb q s = true -> forallb q (skipn n s) = true.
Proof.
  revert n. induction s as [|a s IH]; intros [|n]; simpl; auto.
  intros H. apply andb_true_iff in H as [_ H]. auto.
Qed.

Lemma forallb_drop_while p (s : jsstring) :
  forallb q s = true -> forallb q (drop_while p s) = true.
Proof.
  induction s as [|a s IH]; simpl; auto.
  intros H. destruct (p a); [|exact H].
  apply andb_true_iff in H as [_ H]. auto.
Qed.

Lemma forallb_drop_while_end p (s : jsstring) :
  forallb q s = true -> forallb q (drop_while_end p s) = true.
Proof.
  intros H. unfold drop_while_end. rewrite forallb_rev.
  apply forallb_drop_while. rewrite forallb_rev. exact H.
Qed.

Lemma forallb_trim (s : jsstring) :
  forallb q s = true -> forallb q (trim s) = true.
Proof. intros H. apply forallb_drop_while_end, forallb_drop_while, H. Qed.

Lemma forallb_join (sep : jsstring) (l : list jsstring) :
  forallb q sep = true ->
  Forall (fun x => forallb q x = true) l ->
  forallb q (join sep l) = true.
Proof.
  intros Hsep. induction l as [|x l IH]; intros H; [reflexivity|].
  inversion H as [|? ? Hx Hl]; subst.
  destruct l as [|y l]; [exact Hx|].
  change (join sep (x :: y :: l)) with (x ++ sep ++ join sep (y :: l)).
  rewrite !forallb_app, Hx, Hsep, (IH Hl). reflexivity.
Qed.

End CharPredicates.

Lemma Forall_skipn {A : Type} (P : A -> Prop) n (l : list A) :
  Forall P l -> Forall P (skipn n l).
Proof.
  revert n. induction l as [|x l IH]; intros [|n] H; simpl; auto.
  inversion H; auto.
Qed.

Lemma join_nonempty (sep : jsstring) (x : jsstring) (l : list jsstring) :
  x <> [] -> join sep (x :: l) <> [].
Proof.
  intros Hx. destruct l as [|y l]; [exact Hx|].
  change (join sep (x :: y :: l)) with (x ++ sep ++ join sep (y :: l)).
  destruct x; [congruence | discriminate].
Qed.

Lemma no_sep_slash_backslash (s : jsstring) :
  no_sep s <-> no_slash s /\ no_backslash s.
Proof.
  unfold no_sep, no_slash, no_backslash, is_sep, is_slash.
  induction s as [|a s IH]; simpl; [tauto|].
  rewrite !andb_true_iff, IH, negb_orb, andb_true_iff. tauto.
Qed.

(** The pieces [split] produces for [/[\\/]+/] contain no separator. *)
Lemma split_loop_no_sep : forall fuel b cur s,
  length s <= fuel -> no_sep cur ->
  Forall no_sep (split_loop fuel re_separators b cur s).
Proof.
  assert (Hrev : forall cur, no_sep cur -> no_sep (rev cur))
    by (intros cur H; unfold no_sep; rewrite forallb_rev; exact H).
  induction fuel as [|fuel IH]; intros b cur s Hlen Hcur.
  - destruct s; [|simpl in Hlen; lia]. simpl. rewrite app_nil_r.
    constructor; auto.
  - destruct s as [|a s']; [simpl; constructor; auto|].
    cbn [split_loop]. rewrite match_here_separators.
    destruct (is_sep a) eqn:Ea.
    + assert (Hd := drop_while_length is_sep s').
      replace (length (drop_while is_sep s') =? length (a :: s')) with false
        by (symmetry; apply Nat.eqb_neq; simpl; lia).
      cbn [andb]. constructor; [auto|].
      apply IH; [simpl in Hlen; lia | reflexivity].
    + apply IH; [simpl in Hlen; lia|].
      unfold no_sep in *. simpl. rewrite Ea, Hcur. reflexivity.
Qed.

(** Every segment of [splitPath] is non-empty and contains no separator. *)
Lemma splitPath_segments (input : jsstring) :
  Forall (fun x => x <> [] /\ no_sep x) (splitPath input).
Proof.
  unfold splitPath. destruct (negb (truthy input) || str_eqb input "."); [constructor|].
  apply Forall_forall. intros x Hx. apply filter_In in Hx as [Hx Ht].
  split; [apply truthy_true, Ht|]. clear Ht.
  revert x Hx. apply Forall_forall. unfold split.
  destruct input as [|a s]; [destruct (match_here _ _ _); repeat constructor|].
  apply split_loop_no_sep; [lia | reflexivity].
Qed.

Lemma split_on_skip_run p (s : jsstring) :
  filter truthy (Path.split_on p (drop_while p s))
  = filter truthy (Path.split_on p s).
Proof.
  induction s as [|a s IH]; [reflexivity|].
  cbn [drop_while]. destruct (p a) eqn:Ea; [|reflexivity].
  rewrite IH. cbn [Path.split_on]. rewrite Ea. reflexivity.
Qed.

Lemma split_on_prefix_free p (x : jsstring) :
  forallb (fun a => negb (p a)) x = true ->
  Path.split_on p x = [x].
Proof.
  induction x as [|a x IH]; simpl; [reflexivity|].
  intros H. apply andb_true_iff in H as [Ha Hx].
  apply negb_true_iff in Ha. rewrite Ha, (IH Hx). reflexivity.
Qed.

Lemma split_on_prefix_sep p (x : jsstring) c rest :
  forallb (fun a => negb (p a)) x = true -> p c = true ->
  Path.split_on p (x ++ c :: rest) = x :: Path.split_on p rest.
Proof.
  intros Hx Hc. induction x as [|a x IH]; simpl.
  - rewrite Hc. reflexivity.
  - simpl in Hx. apply andb_true_iff in Hx as [Ha Hx].
    apply negb_true_iff in Ha. rewrite Ha, (IH Hx). reflexivity.
Qed.

(** The non-empty pieces [split] produces for [/[\\/]+/] are the non-empty
    pieces between single separators. *)
Lemma split_loop_pieces : forall fuel b cur s,
  length s <= fuel -> no_sep cur ->
  filter truthy (split_loop fuel re_separators b cur s)
  = filter truthy (Path.split_on is_sep (rev cur ++ s)).
Proof.
  assert (Hrev : forall cur, no_sep cur ->
                   forallb (fun a => negb (is_sep a)) (rev cur) = true)
    by (intros cur H; rewrite forallb_rev; exact H).
  induction fuel as [|fuel IH]; intros b cur s Hlen Hcur.
  - destruct s; [|simpl in Hlen; lia]. cbn [split_loop].
    rewrite split_on_prefix_free by (rewrite app_nil_r; auto). reflexivity.
  - destruct s as [|a s'].
    + cbn [split_loop]. rewrite app_nil_r, split_on_prefix_free by auto.
      reflexivity.
    + cbn [split_loop]. rewrite match_here_separators.
      destruct (is_sep a) eqn:Ea.
      * assert (Hd := drop_while_length is_sep s').
        replace (length (drop_while is_sep s') =? length (a :: s')) with false
          by (symmetry; apply Nat.eqb_neq; simpl; lia).
        cbn [andb]. rewrite split_on_prefix_sep by auto.
        cbn [filter]. rewrite IH by (simpl in Hlen; try lia; reflexivity).
        cbn [rev app]. rewrite split_on_skip_run. reflexivity.
      * rewrite IH; [|simpl in Hlen; lia|].
        -- cbn [rev]. rewrite <- app_assoc. reflexivity.
        -- unfold no_sep in *. simpl. rewrite Ea, Hcur. reflexivity.
Qed.

(** [splitPath]: the non-empty pieces between separators, in order. *)
Lemma splitPath_spec (input : jsstring) :
  splitPath input
  = if str_eqb input "." then []
    else filter truthy (Path.split_on is_sep input).
Proof.
  unfold splitPath. destruct input as [|a s]; [reflexivity|].
  cbn [truthy negb orb]. destruct (str_eqb (a :: s) "."); [reflexivity|].
  unfold split. apply (split_loop_pieces _ true [] (a :: s)); [lia | reflexivity].
Qed.

(** ** [path.basename] and [path.extname] *)

Lemma take_drop_while p (s : jsstring) :
  take_while p s ++ drop_while p s = s.
Proof.
  induction s as [|a s IH]; simpl; [reflexivity|].
  destruct (p a); simpl; [rewrite IH|]; reflexivity.
Qed.

Lemma take_while_all p (s : jsstring) : forallb p (take_while p s) = true.
Proof.
  induction s as [|a s IH]; simpl; [reflexivity|].
  destruct (p a) eqn:E; simpl; [rewrite E, IH|]; reflexivity.
Qed.

Lemma drop_while_head p (s : jsstring) c rest :
  drop_while p s = c :: rest -> p c = false.
Proof.
  induction s as [|a s IH]; simpl; [discriminate|].
  destruct (p a) eqn:E; [exact IH|]. intros [= <- _]. exact E.
Qed.

Lemma basename_scan_found rp e :
  Path.basename_scan rp (Some e) false
  = (length rp - length (take_while not_slash rp), Some e).
Proof.
  induction rp as [|c rest IH]; [reflexivity|].
  cbn [Path.basename_scan take_while]. unfold not_slash at 1.
  destruct (is_slash c); cbn [negb].
  - simpl. f_equal. lia.
  - rewrite IH. simpl. reflexivity.
Qed.

Lemma basename_scan_start rp :
  Path.basename_scan rp None true
  = match drop_while is_slash rp with
    | [] => (0, None)
    | c :: rest =>
        (length rest - length (take_while not_slash rest), Some (S (length rest)))
    end.
Proof.
  induction rp as [|c rest IH]; [reflexivity|].
  cbn [Path.basename_scan drop_while].
  destruct (is_slash c); cbn [negb]; [exact IH|].
  rewrite basename_scan_found. f_equal. f_equal. lia.
Qed.

(** The base name is the last run of characters other than [/]. *)
Lemma basename_spec (p : jsstring) :
  Path.basename p
  = rev (take_while not_slash (drop_while is_slash (rev p))).
Proof.
  unfold Path.basename. rewrite basename_scan_start.
  assert (Hp : rev p = take_while is_slash (rev p) ++ drop_while is_slash (rev p))
    by (symmetry; apply take_drop_while).
  destruct (drop_while is_slash (rev p)) as [|c rest] eqn:E; [reflexivity|].
  assert (Hc : not_slash c = true)
    by (unfold not_slash; rewrite (drop_while_head _ _ _ _ E); reflexivity).
  cbn [take_while]. rewrite Hc.
  set (tw := take_while not_slash rest).
  assert (Hrest : rest = tw ++ drop_while not_slash rest)
    by (symmetry; apply take_drop_while).
  set (rest' := drop_while not_slash rest) in *.
  set (sl := take_while is_slash (rev p)) in *.
  assert (Hp' : p = rev rest' ++ rev (c :: tw) ++ rev sl).
  { rewrite <- (rev_involutive p), Hp, Hrest.
    change (c :: tw ++ rest') with ((c :: tw) ++ rest').
    rewrite !rev_app_distr, app_assoc. rewrite <- app_assoc. reflexivity. }
  assert (Hlen : length rest - length tw = length (rev rest')).
  { rewrite length_rev. rewrite Hrest at 1. rewrite length_app. lia. }
  unfold slice. rewrite Hlen. rewrite Hp' at 1.
  rewrite skipn_app, skipn_all, Nat.sub_diag. simpl skipn at 1.
  cbn [app].
  replace (S (length rest) - length (rev rest')) with (length (rev (c :: tw))).
  - rewrite firstn_app, firstn_all, Nat.sub_diag. simpl firstn.
    rewrite app_nil_r. reflexivity.
  - apply (f_equal (@length ascii)) in Hrest. rewrite length_app in Hrest.
    rewrite !length_rev. cbn [length]. lia.
Qed.

Lemma basename_no_slash (p : jsstring) : no_slash (Path.basename p).
Proof.
  rewrite basename_spec. unfold no_slash. rewrite forallb_rev.
  apply (take_while_all not_slash).
Qed.

Lemma extname_scan_inv rp : forall st,
  ext_inv (length rp) st ->
  Path.preDotState (Path.extname_scan rp st) <> 0%Z ->
  exists sd, Path.startDot (Path.extname_scan rp st) = Some sd /\ 1 <= sd.
Proof.
  induction rp as [|c rest IH]; intros st [H1 H2]; [exact H2|].
  cbn [Path.extname_scan].
  destruct (is_slash c).
  - destruct (negb (Path.ext_matchedSlash st)); [exact H2|].
    apply IH. split; [|exact H2].
    intros sd Hsd. apply H1 in Hsd. simpl in Hsd. lia.
  - apply IH. destruct st as [sd0 sp0 e0 ms0 pd0]. cbn in H1, H2 |- *.
    assert (Hsd : forall sd, sd0 = Some sd -> 1 <= sd /\ length rest <= sd)
      by (intros sd Hsd; apply H1 in Hsd; lia).
    assert (Hpd : sd0 = None -> pd0 = 0%Z).
    { intros ->. destruct (Z.eq_dec pd0 0) as [E|E]; [exact E|].
      destruct (H2 E) as (sd & Hs & _). discriminate. }
    destruct e0; destruct (ascii_eqb c dot); destruct sd0 as [sd|];
      cbn; try destruct (negb (pd0 =? 1)%Z); unfold ext_inv; cbn; split.
    all: try (intros x Hx; try discriminate; injection Hx as <-;
              try (destruct (Hsd _ eq_refl)); lia).
    all: intros Hp; try (exfalso; apply Hp, Hpd; reflexivity).
    all: eexists; split; [reflexivity | apply (Hsd _ eq_refl)].
Qed.

(** A non-empty extension leaves at least one character before it. *)
Lemma extname_shorter (p : jsstring) :
  Path.extname p <> [] -> length (Path.extname p) < length p.
Proof.
  unfold Path.extname.
  set (st := Path.extname_scan (rev p) _).
  assert (Hinv : Path.preDotState st <> 0%Z ->
                 exists sd, Path.startDot st = Some sd /\ 1 <= sd).
  { apply extname_scan_inv. split; simpl; [discriminate|]. congruence. }
  destruct (Path.startDot st) as [sd|]; [|congruence].
  destruct (Path.ext_end st) as [e|]; [|congruence].
  destruct (Path.preDotState st =? 0)%Z eqn:E0; [simpl; congruence|].
  apply Z.eqb_neq in E0. destruct (Hinv E0) as (sd' & [= <-] & Hsd).
  destruct (_ || _); [congruence|].
  unfold slice. intros Hne.
  assert (Hlen : length (firstn (e - sd) (skipn sd p)) <> 0)
    by (destruct (firstn _ _); [congruence | discriminate]).
  rewrite length_firstn, length_skipn in *. lia.
Qed.

(** ** The file stem *)

Lemma file_stem_no_slash (rel : jsstring) : no_slash (file_stem rel).
Proof.
  unfold file_stem. destruct (truthy (extension rel)).
  - apply forallb_firstn, basename_no_slash.
  - apply basename_no_slash.
Qed.

Lemma file_stem_nonempty (rel : jsstring) :
  recognized (extension rel) = true -> file_stem rel <> [].
Proof.
  intros Hrec. unfold file_stem.
  assert (Hext : extension rel <> [])
    by (apply recognized_spec in Hrec as [-> | ->]; discriminate).
  rewrite (proj2 (truthy_true _) Hext).
  unfold extension in *. rewrite toLowerCase_length.
  assert (Hraw : raw_extension rel <> [])
    by (intros E; apply Hext; rewrite E; reflexivity).
  apply extname_shorter in Hraw. unfold raw_extension in *.
  unfold slice_drop_end. intros E. apply (f_equal (@length ascii)) in E.
  rewrite length_firstn in E. simpl in E. lia.
Qed.

Lemma ident_char_not_sep a : ident_char a = true -> is_sep a = false.
Proof.
  destruct a as [[] [] [] [] [] [] [] []]; vm_compute; congruence.
Qed.

Lemma identifier_no_sep (name : jsstring) :
  isValidPythonIdentifier name = true -> no_sep name.
Proof.
  rewrite isValidPythonIdentifier_spec. destruct name as [|a rest]; [discriminate|].
  intros H. apply andb_true_iff in H as [Ha Hrest].
  unfold no_sep. simpl.
  rewrite (ident_char_not_sep a (ident_start_char a Ha)). simpl.
  induction rest as [|b rest IH]; [reflexivity|]. simpl in *.
  apply andb_true_iff in Hrest as [Hb Hrest].
  rewrite (ident_char_not_sep b Hb). simpl. auto.
Qed.

Lemma dir_segments_suffix proc rel sourceRoot options :
  dir_segments proc rel sourceRoot options = splitPath (Path.dirname rel)
  \/ dir_segments proc rel sourceRoot options
     = skipn (length (splitPath sourceRoot)) (splitPath (Path.dirname rel)).
Proof.
  unfold dir_segments, strip_source_root.
  destruct (truthy sourceRoot); [|left; reflexivity].
  destruct (hasPrefix _ _ _); [right | left]; reflexivity.
Qed.

Lemma dir_segments_clean proc rel sourceRoot options :
  Forall (fun x => x <> [] /\ no_sep x) (dir_segments proc rel sourceRoot options).
Proof.
  destruct (dir_segments_suffix proc rel sourceRoot options) as [-> | ->].
  - apply splitPath_segments.
  - apply Forall_skipn, splitPath_segments.
Qed.

(** C4, as stated, fails: on a POSIX host a file name may contain a
    backslash, and the stem is joined as it is; and the module path of a
    root-level initializer is the workspace name, not a join of directory
    segments. *)
Lemma module_path_backslash_counterexample :
  toPythonModulePath posix_process "/root/a\b.py" "/root" [] no_options
    = Some (js "a\b")
  /\ existsb is_sep (js "a\b") = true
  /\ toPythonModulePath posix_process "/root/__init__.py" "/root" []
       (mk_options (Some (js "workspace")) None) = Some (js "workspace")
  /\ dir_segments posix_process
       (relativePath posix_process "/root" "/root/__init__.py") []
       (mk_options (Some (js "workspace")) None) = [].
Proof. repeat split; vm_compute; reflexivity. Qed.

(** C4, amended. A defined result is a non-empty string without [/], and
    without [\] when the file stem has none; it is the dot-join of the
    root-relative directory segments (the non-empty pieces of the
    directory between separators, in order, the source-root prefix removed
    when it matched) followed by the stem of a non-initializer file, or,
    for an initializer with no directory segment left, the trimmed
    workspace name. *)
Theorem module_path_shape
    (proc : process) (filePath rootPath sourceRoot : jsstring)
    (options : ToPythonModulePathOptions) (m : jsstring) :
  let rel := relativePath proc rootPath filePath in
  let stem := file_stem rel in
  let segments := dir_segments proc rel sourceRoot options in
  toPythonModulePath proc filePath rootPath sourceRoot options = Some m ->
  m <> []
  /\ no_slash m
  /\ (no_backslash stem -> no_sep m)
  /\ (segments = splitPath (Path.dirname rel)
      \/ segments = skipn (length (splitPath sourceRoot))
                      (splitPath (Path.dirname rel)))
  /\ splitPath (Path.dirname rel)
     = (if str_eqb (Path.dirname rel) "." then []
        else filter truthy (Path.split_on is_sep (Path.dirname rel)))
  /\ ((stem <> js "__init__" /\ m = join "." (segments ++ [stem]))
      \/ (stem = js "__init__" /\ segments <> [] /\ m = join "." segments)
      \/ (stem = js "__init__" /\ segments = []
          /\ exists name, workspacePackageName options = Some name
                          /\ m = trim name)).
Proof.
  intros rel stem segments. rewrite toPythonModulePath_eq.
  fold rel. cbv zeta. fold stem. fold segments.
  destruct (outside_root rel); [discriminate|].
  destruct (recognized (extension rel)) eqn:Erec; [|discriminate]. cbn [negb].
  assert (Hclean := dir_segments_clean proc rel sourceRoot options).
  fold segments in Hclean.
  assert (Hsl : Forall (fun x => forallb (fun a => negb (is_slash a)) x = true)
                  segments).
  { eapply Forall_impl; [|exact Hclean]. intros x [_ Hx].
    apply no_sep_slash_backslash in Hx. apply Hx. }
  assert (Hsp : Forall (fun x => forallb (fun a => negb (is_sep a)) x = true)
                  segments).
  { eapply Forall_impl; [|exact Hclean]. intros x [_ Hx]. exact Hx. }
  assert (Hsuffix := dir_segments_suffix proc rel sourceRoot options).
  fold segments in Hsuffix.
  destruct (str_eqb stem "__init__") eqn:Estem.
  - apply str_eqb_eq in Estem.
    destruct (0 <? length segments) eqn:Elen.
    + apply length_pos_nonempty in Elen. intros [= <-].
      split; [|split; [|split; [|split; [|split]]]]; auto using splitPath_spec.
      * destruct segments as [|x l]; [congruence|].
        apply join_nonempty. inversion Hclean as [|? ? [Hx _] _]. exact Hx.
      * apply forallb_join; [reflexivity | exact Hsl].
      * intros _. apply forallb_join; [reflexivity | exact Hsp].
    + assert (Hnil : segments = [])
        by (destruct segments; [reflexivity | discriminate]).
      intros Hf. apply fallback_name_spec in Hf as (name & Hn & -> & Hvalid).
      assert (Hns := identifier_no_sep _ Hvalid).
      split; [|split; [|split; [|split; [|split]]]]; auto using splitPath_spec.
      * apply truthy_true, isValidPythonIdentifier_nonempty, Hvalid.
      * apply no_sep_slash_backslash in Hns. apply Hns.
      * right. right. repeat split; auto. exists name. auto.
  - apply str_eqb_neq in Estem. intros [= <-].
    assert (Hstem := file_stem_nonempty rel Erec). fold stem in Hstem.
    assert (Hss := file_stem_no_slash rel). fold stem in Hss.
    split; [|split; [|split; [|split; [|split]]]]; auto using splitPath_spec.
    + destruct segments as [|x l]; [exact Hstem|].
      apply join_nonempty. inversion Hclean as [|? ? [Hx _] _]. exact Hx.
    + apply forallb_join; [reflexivity|].
      apply Forall_app. split; [exact Hsl|]. constructor; [exact Hss | constructor].
    + intros Hb. apply forallb_join; [reflexivity|].
      apply Forall_app. split; [exact Hsp|]. constructor; [|constructor].
      apply no_sep_slash_backslash. split; assumption.
Qed.

Lemma module_path_shape_witness :
  toPythonModulePath posix_process "/root/src/mypkg/utils.py" "/root" []
    no_options = Some (js "src.mypkg.utils")
  /\ js "src.mypkg.utils" <> []
  /\ no_slash (js "src.mypkg.utils")
  /\ no_sep (js "src.mypkg.utils").
Proof.
  split; [reflexivity|].
  destruct (module_path_shape posix_process "/root/src/mypkg/utils.py" "/root"
              [] no_options (js "src.mypkg.utils") eq_refl)
    as (H1 & H2 & H3 & _).
  split; [exact H1|]. split; [exact H2|]. apply H3. reflexivity.
Defined.

(** ** Removing the leading and trailing separators *)

Lemma star_group_chr_greedy n p : forall s b c,
  exists c',
    rmatch (Star (Group n (Chr p))) b s c (fun _ s' c0 => Some (s', c0))
    = Some (drop_while p s, c').
Proof.
  induction s as [|a s IH]; intros b c; [exists c; reflexivity|].
  rewrite rmatch_star_group_chr_cons. cbn [drop_while].
  destruct (p a); [|exists c; reflexivity].
  destruct (IH false ((n, [a]) :: c)) as (c' & ->). exists c'. reflexivity.
Qed.

Lemma star_group_chr_to_end {R : Type} n p (k : @cont R) :
  (forall b a s c, k b (a :: s) c = None) ->
  forall s b c,
    (forallb p s = false -> rmatch (Star (Group n (Chr p))) b s c k = None)
    /\ (forallb p s = true ->
        exists b' c', rmatch (Star (Group n (Chr p))) b s c k = k b' [] c').
Proof.
  intros Hk. induction s as [|a s IH]; intros b c.
  - split; [discriminate|]. intros _. exists b, c. reflexivity.
  - rewrite rmatch_star_group_chr_cons, Hk. cbn [forallb].
    destruct (p a); cbn [andb]; [|split; [reflexivity | discriminate]].
    rewrite orelse_none_r. apply IH.
Qed.

Lemma match_here_edges_no_sep b s :
  match s with [] => True | a :: _ => is_sep a = false end ->
  match_here re_edge_separators b s = None.
Proof.
  intros H. unfold match_here, re_edge_separators, Plus. cbn [rmatch].
  destruct s as [|a s]; [destruct b; reflexivity|].
  rewrite H. destruct b; reflexivity.
Qed.

Lemma match_here_edges_leading a s :
  is_sep a = true ->
  exists c, match_here re_edge_separators true (a :: s)
            = Some (drop_while is_sep s, c).
Proof.
  intros Ha. unfold match_here, re_edge_separators, Plus.
  change (rmatch (Alt ?x ?y) true (a :: s) [] ?k)
    with (orelse (rmatch x true (a :: s) [] k) (rmatch y true (a :: s) [] k)).
  rewrite rmatch_seq, rmatch_bol_true, rmatch_seq.
  change (rmatch (Group 1 (Chr is_sep)) true (a :: s) [] ?k)
    with (if is_sep a
          then k false s [(1, firstn (length (a :: s) - length s) (a :: s))]
          else None).
  rewrite Ha.
  destruct (star_group_chr_greedy 1 is_sep s false
              [(1, firstn (length (a :: s) - length s) (a :: s))]) as (c & ->).
  exists c. reflexivity.
Qed.

Lemma match_here_edges_trailing a s :
  is_sep a = true ->
  (forallb is_sep s = false ->
   match_here re_edge_separators false (a :: s) = None)
  /\ (forallb is_sep s = true ->
      exists c, match_here re_edge_separators false (a :: s) = Some ([], c)).
Proof.
  intros Ha. unfold match_here, re_edge_separators, Plus.
  change (rmatch (Alt ?x ?y) false (a :: s) [] ?k)
    with (orelse (rmatch x false (a :: s) [] k) (rmatch y false (a :: s) [] k)).
  change (rmatch (Seq Bol ?x) false (a :: s) [] ?k) with (@None (jsstring * captures)).
  cbn [orelse]. rewrite !rmatch_seq.
  change (rmatch (Group 2 (Chr is_sep)) false (a :: s) [] ?k)
    with (if is_sep a
          then k false s [(2, firstn (length (a :: s) - length s) (a :: s))]
          else None).
  rewrite Ha.
  match goal with
  | |- context [rmatch (Star _) false s ?c ?k] =>
      destruct (star_group_chr_to_end 2 is_sep k (fun _ _ _ _ => eq_refl)
                  s false c) as [H0 H1]
  end.
  split; [exact H0|].
  intros Hall. destruct (H1 Hall) as (b' & c' & ->). exists c'. reflexivity.
Qed.

Lemma drop_while_app p (s t : jsstring) :
  drop_while p (s ++ t)
  = if forallb p s then drop_while p t else drop_while p s ++ t.
Proof.
  induction s as [|a s IH]; simpl; [reflexivity|].
  destruct (p a); simpl; [exact IH | reflexivity].
Qed.

Lemma drop_while_all p (s : jsstring) :
  forallb p s = true -> drop_while p s = [].
Proof.
  induction s as [|a s IH]; simpl; [reflexivity|].
  destruct (p a); [exact IH | discriminate].
Qed.

Lemma drop_while_end_cons p a (s : jsstring) :
  drop_while_end p (a :: s)
  = if forallb p (a :: s) then [] else a :: drop_while_end p s.
Proof.
  unfold drop_while_end. simpl rev. rewrite drop_while_app, forallb_rev.
  simpl forallb. destruct (forallb p s) eqn:Es.
  - simpl. destruct (p a); [reflexivity|].
    rewrite drop_while_all by (rewrite forallb_rev; exact Es). reflexivity.
  - rewrite andb_false_r, rev_app_distr. reflexivity.
Qed.

Lemma replace_loop_trailing : forall fuel s,
  length s < fuel ->
  replace_loop fuel re_edge_separators false s = drop_while_end is_sep s.
Proof.
  induction fuel as [|fuel IH]; intros s Hlen; [lia|].
  destruct s as [|a s].
  - cbn [replace_loop]. rewrite match_here_edges_no_sep by exact I. reflexivity.
  - cbn [replace_loop]. rewrite drop_while_end_cons. cbn [forallb].
    simpl in Hlen.
    destruct (is_sep a) eqn:Ea; cbn [andb].
    + destruct (match_here_edges_trailing a s Ea) as [H0 H1].
      destruct (forallb is_sep s).
      * destruct (H1 eq_refl) as (c & ->). cbn [length Nat.ltb Nat.leb].
        destruct fuel; [reflexivity|]. cbn [replace_loop].
        rewrite match_here_edges_no_sep by exact I. reflexivity.
      * rewrite (H0 eq_refl). rewrite IH by lia. reflexivity.
    + rewrite match_here_edges_no_sep by exact Ea. rewrite IH by lia.
      reflexivity.
Qed.

(** [.replace(/^([/\\])+|([/\\])+$/g, '')] removes the leading and the
    trailing run of separators. *)
Lemma replace_edge_separators (s : jsstring) :
  replace_all_empty re_edge_separators s = strip_edges s.
Proof.
  unfold replace_all_empty, strip_edges. destruct s as [|a s].
  - cbn [length replace_loop]. rewrite match_here_edges_no_sep by exact I.
    reflexivity.
  - cbn [replace_loop drop_while]. destruct (is_sep a) eqn:Ea.
    + destruct (match_here_edges_leading a s Ea) as (c & ->).
      assert (Hd := drop_while_length is_sep s).
      replace (length (drop_while is_sep s) <? length (a :: s)) with true
        by (symmetry; apply Nat.ltb_lt; simpl; lia).
      apply replace_loop_trailing. simpl. lia.
    + rewrite match_here_edges_no_sep by exact Ea.
      rewrite replace_loop_trailing by (simpl; lia).
      rewrite drop_while_end_cons. cbn [forallb]. rewrite Ea. reflexivity.
Qed.

(** ** [path.normalize] *)

Import Path.

Lemma norm_components_app allow l1 : forall acc l2,
  norm_components allow acc (l1 ++ l2)
  = norm_components allow (rev (norm_components allow acc l1)) l2.
Proof.
  induction l1 as [|seg l1 IH]; intros acc l2.
  - simpl. rewrite rev_involutive. reflexivity.
  - cbn [app norm_components].
    destruct (str_eqb seg "."); [apply IH|].
    destruct (str_eqb seg ".."); [|apply IH].
    destruct acc as [|top acc']; [destruct allow; apply IH|].
    destruct (str_eqb top ".."); [destruct allow|]; apply IH.
Qed.

Lemma ordinary_tests seg :
  ordinary seg <-> str_eqb seg "." = false /\ str_eqb seg ".." = false.
Proof. unfold ordinary. rewrite !str_eqb_neq. reflexivity. Qed.

Lemma norm_components_ordinary allow m : forall acc,
  Forall ordinary m -> norm_components allow acc m = rev acc ++ m.
Proof.
  induction m as [|seg m IH]; intros acc H.
  - simpl. rewrite app_nil_r. reflexivity.
  - inversion H as [|? ? Hseg Hm]; subst.
    apply ordinary_tests in Hseg as [E1 E2].
    cbn [norm_components]. rewrite E1, E2, (IH _ Hm). simpl.
    rewrite <- app_assoc. reflexivity.
Qed.

Lemma rev_repeat {A : Type} (x : A) n : rev (repeat x n) = repeat x n.
Proof.
  induction n as [|n IH]; [reflexivity|].
  simpl. rewrite IH. symmetry. apply repeat_cons.
Qed.

Lemma norm_components_dotdots k : forall j,
  norm_components true (repeat (js "..") j) (repeat (js "..") k)
  = repeat (js "..") (j + k).
Proof.
  induction k as [|k IH]; intros j.
  - simpl. rewrite rev_repeat, Nat.add_0_r. reflexivity.
  - cbn [repeat norm_components].
    change (str_eqb ".." ".") with false. change (str_eqb ".." "..") with true.
    cbv iota. replace (j + S k) with (S j + k) by lia.
    destruct j as [|j]; [apply (IH 1)|].
    cbn [repeat]. change (str_eqb ".." "..") with true. cbv iota.
    apply (IH (S (S j))).
Qed.

(** A resolved sequence is left as it is. *)
Lemma norm_components_fixed l :
  normal_form l -> norm_components true [] l = l.
Proof.
  intros (k & m & -> & Hm).
  rewrite norm_components_app.
  assert (Hk := norm_components_dotdots k 0). cbn [repeat Nat.add] in Hk.
  rewrite Hk.
  rewrite norm_components_ordinary by exact Hm.
  rewrite rev_involutive. reflexivity.
Qed.

Lemma normal_form_snoc l x :
  normal_form (l ++ [x]) ->
  normal_form l
  /\ (x = js ".." -> exists k, l ++ [x] = repeat (js "..") k).
Proof.
  intros (k & m & E & Hm).
  destruct m as [|y0 m0].
  - rewrite app_nil_r in E. destruct k as [|k]; [destruct l; discriminate|].
    simpl in E. rewrite repeat_cons in E. apply app_inj_tail in E as [-> ->].
    split.
    + exists k, []. rewrite app_nil_r. split; [reflexivity | constructor].
    + intros _. exists (S k). simpl. rewrite repeat_cons. reflexivity.
  - destruct (exists_last (l := y0 :: m0)) as (m' & y & Em); [discriminate|].
    rewrite Em in *. rewrite app_assoc in E. apply app_inj_tail in E as [-> ->].
    apply Forall_app in Hm as [Hm' Hy]. split.
    + exists k, m'. split; [reflexivity | exact Hm'].
    + intros E. apply Forall_inv in Hy. destruct Hy as [_ Hy]. contradiction.
Qed.

Lemma normal_form_snoc_ordinary l x :
  normal_form l -> ordinary x -> normal_form (l ++ [x]).
Proof.
  intros (k & m & -> & Hm) Hx. exists k, (m ++ [x]).
  rewrite app_assoc. split; [reflexivity|].
  apply Forall_app. split; [exact Hm | constructor; [exact Hx | constructor]].
Qed.

(** [normalizeString] produces a resolved sequence. *)
Lemma norm_components_normal allow segs : forall acc,
  normal_form (rev acc) -> normal_form (norm_components allow acc segs).
Proof.
  induction segs as [|seg segs IH]; intros acc Hacc; [exact Hacc|].
  cbn [norm_components].
  destruct (str_eqb seg ".") eqn:E1; [apply IH, Hacc|].
  destruct (str_eqb seg "..") eqn:E2.
  - apply str_eqb_eq in E2. subst seg.
    destruct acc as [|top acc'].
    + destruct allow; apply IH; [|exact Hacc].
      exists 1, []. split; [reflexivity | constructor].
    + simpl in Hacc. destruct (normal_form_snoc _ _ Hacc) as [Hinit Hdd].
      destruct (str_eqb top "..") eqn:E3; [|apply IH, Hinit].
      destruct allow; [|apply IH, Hacc].
      apply str_eqb_eq in E3. destruct (Hdd E3) as (k & Hk).
      apply IH. cbn [rev]. rewrite Hk.
      exists (S k), []. rewrite app_nil_r. split; [|constructor].
      simpl. rewrite repeat_cons. reflexivity.
  - apply IH. simpl. apply normal_form_snoc_ordinary; [exact Hacc|].
    apply ordinary_tests. auto.
Qed.

Lemma norm_components_Forall (P : jsstring -> Prop) allow segs : forall acc,
  Forall P acc -> Forall P segs -> Forall P (norm_components allow acc segs).
Proof.
  induction segs as [|seg segs IH]; intros acc Hacc Hsegs.
  - simpl. apply Forall_rev, Hacc.
  - inversion Hsegs as [|? ? Hseg Hrest]; subst. cbn [norm_components].
    destruct (str_eqb seg "."); [apply IH; assumption|].
    destruct (str_eqb seg "..").
    + destruct acc as [|top acc'].
      * destruct allow; apply IH; auto.
      * inversion Hacc; subst.
        destruct (str_eqb top ".."); [destruct allow|]; apply IH; auto.
    + apply IH; auto.
Qed.

(** *** Components of a path *)

Lemma split_on_join p c (l : list jsstring) :
  l <> [] -> p c = true ->
  Forall (fun x => forallb (fun a => negb (p a)) x = true) l ->
  split_on p (join [c] l) = l.
Proof.
  intros Hne Hc. induction l as [|x l IH]; [congruence|]. intros H.
  inversion H as [|? ? Hx Hl]; subst.
  destruct l as [|y l]; [apply split_on_prefix_free, Hx|].
  change (join [c] (x :: y :: l)) with (x ++ c :: join [c] (y :: l)).
  rewrite split_on_prefix_sep by assumption.
  rewrite IH; [reflexivity | discriminate | exact Hl].
Qed.

Lemma split_on_Forall p q (s : jsstring) :
  forallb q s = true -> Forall (fun x => forallb q x = true) (split_on p s).
Proof.
  induction s as [|a s IH]; simpl; [repeat constructor|].
  intros H. apply andb_true_iff in H as [Ha Hs]. specialize (IH Hs).
  destruct (p a); [constructor; [reflexivity | exact IH]|].
  destruct (split_on p s) as [|w ws]; [repeat constructor; simpl; rewrite Ha; reflexivity|].
  inversion IH; subst. constructor; [simpl; rewrite Ha; assumption | assumption].
Qed.

Lemma split_on_pieces p (s : jsstring) :
  Forall (fun x => forallb (fun a => negb (p a)) x = true) (split_on p s).
Proof.
  induction s as [|a s IH]; simpl; [repeat constructor|].
  destruct (p a) eqn:Ea; [constructor; [reflexivity | exact IH]|].
  destruct (split_on p s) as [|w ws];
    [repeat constructor; simpl; rewrite Ea; reflexivity|].
  inversion IH; subst.
  constructor; [simpl; rewrite Ea; assumption | assumption].
Qed.

Lemma filter_truthy_id (l : list jsstring) :
  Forall (fun x => x <> []) l -> filter truthy l = l.
Proof.
  induction l as [|x l IH]; intros H; [reflexivity|].
  inversion H as [|? ? Hx Hl]; subst. simpl.
  rewrite (proj2 (truthy_true x) Hx), (IH Hl). reflexivity.
Qed.

(** The components of a path without backslashes are clean. *)
Lemma components_clean (u : jsstring) :
  no_backslash u -> Forall clean (components u).
Proof.
  intros Hu. unfold components. apply Forall_forall. intros x Hx.
  apply filter_In in Hx as [Hx Ht]. split; [apply truthy_true, Ht|].
  apply no_sep_slash_backslash. split.
  - assert (H := split_on_pieces is_slash u).
    rewrite Forall_forall in H. apply H, Hx.
  - assert (H := split_on_Forall is_slash _ u Hu).
    rewrite Forall_forall in H. apply H, Hx.
Qed.

Lemma components_join (l : list jsstring) :
  l <> [] -> Forall clean l -> components (join "/" l) = l.
Proof.
  intros Hne Hl. unfold components.
  change (join "/" l) with (join [slash] l).
  rewrite (split_on_join is_slash slash l Hne eq_refl).
  - apply filter_truthy_id. eapply Forall_impl; [|exact Hl]. intros x [Hx _]. exact Hx.
  - eapply Forall_impl; [|exact Hl]. intros x [_ Hx].
    apply no_sep_slash_backslash in Hx. apply Hx.
Qed.

Lemma join_first (sep : jsstring) (l : list jsstring) :
  l <> [] -> Forall clean l ->
  exists a r, join sep l = a :: r /\ is_sep a = false.
Proof.
  intros Hne Hl. destruct l as [|x l]; [congruence|].
  inversion Hl as [|? ? [Hx Hn] _]; subst.
  destruct x as [|a x]; [congruence|].
  unfold no_sep in Hn. simpl in Hn. apply andb_true_iff in Hn as [Ha _].
  apply negb_true_iff in Ha.
  destruct l; [exists a, x; auto|].
  eexists a, _. split; [reflexivity | exact Ha].
Qed.

Lemma join_last (sep : jsstring) (l : list jsstring) :
  l <> [] -> Forall clean l ->
  exists r z, join sep l = r ++ [z] /\ is_sep z = false.
Proof.
  intros Hne. induction l as [|x l IH]; [congruence|]. intros Hl.
  inversion Hl as [|? ? [Hx Hn] Hl']; subst.
  destruct l as [|y l].
  - destruct (exists_last Hx) as (r & z & ->). exists r, z. split; [reflexivity|].
    unfold no_sep in Hn. rewrite forallb_app in Hn.
    apply andb_true_iff in Hn as [_ Hz]. simpl in Hz.
    destruct (is_sep z); [discriminate | reflexivity].
  - destruct IH as (r & z & E & Hz); [discriminate | exact Hl'|].
    change (join sep (x :: y :: l)) with (x ++ sep ++ join sep (y :: l)).
    rewrite E. exists (x ++ sep ++ r), z. rewrite <- !app_assoc. auto.
Qed.

Lemma strip_edges_wrap (pre x post : jsstring) :
  forallb is_sep pre = true -> forallb is_sep post = true ->
  (exists a r, x = a :: r /\ is_sep a = false) ->
  (exists r z, x = r ++ [z] /\ is_sep z = false) ->
  strip_edges (pre ++ x ++ post) = x.
Proof.
  intros Hpre Hpost (a & r & Ex & Ha) (r' & z & Ex' & Hz).
  unfold strip_edges. rewrite drop_while_app_all by exact Hpre.
  rewrite Ex at 1. cbn [app]. rewrite drop_while_head_false by exact Ha.
  change (a :: r ++ post) with ((a :: r) ++ post). rewrite <- Ex.
  rewrite drop_while_end_app_all by exact Hpost.
  rewrite Ex'. apply drop_while_end_last_false, Hz.
Qed.

(** *** [normalizeSourceRoot] on its own results *)

Lemma is_sep_false_slash a : is_sep a = false -> is_slash a = false.
Proof.
  unfold is_sep, is_slash. intros H. apply orb_false_iff in H. apply H.
Qed.

Lemma normalizeSourceRoot_eq (raw : jsstring) :
  normalizeSourceRoot raw
  = if truthy (trim raw) then strip_edges (normalize (trim raw)) else [].
Proof.
  unfold normalizeSourceRoot. rewrite replace_edge_separators.
  destruct (truthy (trim raw)); reflexivity.
Qed.

(** What is left of a normalized path once its edge separators are
    removed. *)
Lemma strip_edges_normalize (u : jsstring) :
  u <> [] -> no_backslash u ->
  strip_edges (normalize u)
  = match norm_components (negb (isAbsolute u)) [] (components u) with
    | [] => if isAbsolute u then [] else js "."
    | x :: l => join "/" (x :: l)
    end.
Proof.
  intros Hne Hu.
  assert (Hclean : Forall clean
            (norm_components (negb (isAbsolute u)) [] (components u)))
    by (apply norm_components_Forall; [constructor | apply components_clean, Hu]).
  unfold normalize, normalizeString. destruct u as [|c u]; [congruence|].
  set (p := c :: u) in *.
  destruct (norm_components (negb (isAbsolute p)) [] (components p))
    as [|x l] eqn:El.
  - cbn [join]. destruct (isAbsolute p); [reflexivity|].
    destruct (ends_with_slash p); reflexivity.
  - destruct (join_first "/" (x :: l)) as (a & r & Ej & Ha);
      [discriminate | exact Hclean|].
    assert (Hlast := join_last "/" (x :: l) ltac:(discriminate) Hclean).
    assert (Hfirst : exists a r, join "/" (x :: l) = a :: r /\ is_sep a = false)
      by (exists a, r; auto).
    rewrite Ej at 1.
    set (np := join "/" (x :: l)) in *.
    destruct (isAbsolute p), (ends_with_slash p).
    + apply (strip_edges_wrap "/" np "/"); auto.
    + rewrite <- (app_nil_r np) at 1.
      apply (strip_edges_wrap "/" np []); auto.
    + apply (strip_edges_wrap [] np "/"); auto.
    + rewrite <- (app_nil_r np) at 1.
      apply (strip_edges_wrap [] np []); auto.
Qed.

(** A joined resolved sequence is a fixed point of [path.normalize]. *)
Lemma normalize_joined (l : list jsstring) :
  l <> [] -> normal_form l -> Forall clean l ->
  normalize (join "/" l) = join "/" l.
Proof.
  intros Hne Hnf Hclean.
  destruct (join_first "/" l Hne Hclean) as (a & r & Ej & Ha).
  destruct (join_last "/" l Hne Hclean) as (r' & z & Ej' & Hz).
  unfold normalize, normalizeString.
  assert (Habs : isAbsolute (join "/" l) = false)
    by (rewrite Ej; simpl; apply is_sep_false_slash, Ha).
  assert (Htr : ends_with_slash (join "/" l) = false).
  { unfold ends_with_slash. rewrite Ej', rev_app_distr. simpl.
    apply is_sep_false_slash, Hz. }
  rewrite Habs, Htr. cbn [negb].
  rewrite (components_join l Hne Hclean), (norm_components_fixed l Hnf).
  rewrite Ej. reflexivity.
Qed.

Lemma normalizeSourceRoot_fixed (t : jsstring) :
  trim t = t ->
  t = [] \/ t = js "."
  \/ (exists l, l <> [] /\ normal_form l /\ Forall clean l /\ t = join "/" l) ->
  normalizeSourceRoot t = t.
Proof.
  intros Htrim H. rewrite normalizeSourceRoot_eq, Htrim.
  destruct H as [-> | [-> | (l & Hne & Hnf & Hclean & ->)]];
    [reflexivity | reflexivity |].
  rewrite (proj2 (truthy_true _))
    by (destruct l as [|x l]; [congruence|];
        apply join_nonempty; inversion Hclean as [|? ? [Hx _] _]; exact Hx).
  rewrite normalize_joined by assumption.
  rewrite <- (app_nil_r (join "/" l)) at 1.
  apply (strip_edges_wrap [] (join "/" l) []);
    [reflexivity | reflexivity | apply join_first | apply join_last]; assumption.
Qed.

Lemma normalizeSourceRoot_shape (s : jsstring) :
  no_backslash s ->
  normalizeSourceRoot s = [] \/ normalizeSourceRoot s = js "."
  \/ (exists l, l <> [] /\ normal_form l /\ Forall clean l
                /\ normalizeSourceRoot s = join "/" l).
Proof.
  intros Hs. rewrite normalizeSourceRoot_eq.
  destruct (truthy (trim s)) eqn:Et; [|left; reflexivity].
  apply truthy_true in Et.
  assert (Hu : no_backslash (trim s)) by (apply forallb_trim, Hs).
  rewrite (strip_edges_normalize _ Et Hu).
  set (allow := negb (isAbsolute (trim s))).
  assert (Hnf : normal_form (norm_components allow [] (components (trim s)))).
  { apply norm_components_normal. exists 0, []. split; [reflexivity | constructor]. }
  assert (Hclean : Forall clean (norm_components allow [] (components (trim s))))
    by (apply norm_components_Forall; [constructor | apply components_clean, Hu]).
  destruct (norm_components allow [] (components (trim s))) as [|x l].
  - destruct (isAbsolute (trim s)); [left | right; left]; reflexivity.
  - right. right. exists (x :: l). repeat split; auto. discriminate.
Qed.

Lemma norm_components_resolves allow segs : forall acc,
  Forall (kept allow) acc ->
  resolves (negb allow) (rev acc ++ segs) (norm_components allow acc segs).
Proof.
  induction segs as [|seg rest IH]; intros acc Hacc.
  - rewrite app_nil_r. apply resolves_done.
  - cbn [norm_components].
    destruct (str_eqb seg ".") eqn:Edot.
    { apply str_eqb_eq in Edot. subst seg.
      apply resolves_current, IH, Hacc. }
    apply str_eqb_neq in Edot.
    assert (Hpush : Forall (kept allow) (seg :: acc) ->
                    resolves (negb allow) (rev acc ++ seg :: rest)
                      (norm_components allow (seg :: acc) rest)).
    { intros H. specialize (IH (seg :: acc) H).
      cbn [rev] in IH. rewrite <- app_assoc in IH. exact IH. }
    destruct (str_eqb seg "..") eqn:Eup.
    + apply str_eqb_eq in Eup. subst seg.
      destruct acc as [|top acc'].
      * destruct allow.
        -- apply Hpush. constructor; [|constructor].
           split; [exact Edot|discriminate].
        -- apply resolves_above_root; [reflexivity|].
           apply (IH [] Hacc).
      * inversion Hacc as [|? ? [Htop Hup] Hacc']; subst.
        destruct (str_eqb top "..") eqn:Etop.
        -- apply str_eqb_eq in Etop. destruct allow.
           ++ apply Hpush. constructor; [|exact Hacc].
              split; [exact Edot|discriminate].
           ++ destruct (Hup eq_refl Etop).
        -- apply str_eqb_neq in Etop.
           cbn [rev]. rewrite <- app_assoc. cbn [app].
           apply resolves_parent; [split; assumption|].
           apply IH, Hacc'.
    + apply str_eqb_neq in Eup. apply Hpush.
      constructor; [|exact Hacc]. split; [exact Edot|intros _; exact Eup].
Qed.

Lemma normal_form_no_dot l :
  normal_form l -> Forall (fun x => x <> js ".") l.
Proof.
  intros (k & m & -> & Hm). apply Forall_app. split.
  - apply Forall_forall. intros x Hx. apply repeat_spec in Hx. subst x.
    discriminate.
  - eapply Forall_impl; [|exact Hm]. intros x [Hx _]. exact Hx.
Qed.

Lemma join_not_dot (l : list jsstring) :
  Forall clean l -> normal_form l -> join "/" l <> js ".".
Proof.
  intros Hc Hn. apply normal_form_no_dot in Hn.
  destruct l as [|x l]; [discriminate|].
  inversion Hc as [|? ? [Hx _] _]; subst.
  inversion Hn as [|? ? Hd _]; subst.
  destruct l as [|y l]; [exact Hd|].
  change (join "/" (x :: y :: l)) with (x ++ "/" ++ join "/" (y :: l)).
  intros E. apply (f_equal (@length ascii)) in E.
  rewrite !length_app in E. destruct x; [congruence|]. simpl in E. lia.
Qed.

Lemma splitPath_joined (l : list jsstring) :
  Forall clean l -> normal_form l -> splitPath (join "/" l) = l.
Proof.
  intros Hc Hn. rewrite splitPath_spec.
  assert (Hdot := join_not_dot l Hc Hn). apply str_eqb_neq in Hdot.
  rewrite Hdot. destruct l as [|x l]; [reflexivity|].
  change (join "/" (x :: l)) with (join [slash] (x :: l)).
  rewrite (split_on_join is_sep slash (x :: l)); try reflexivity;
    try discriminate.
  - apply filter_truthy_id. eapply Forall_impl; [|exact Hc].
    intros y [Hy _]. exact Hy.
  - eapply Forall_impl; [|exact Hc]. intros y [_ Hy]. exact Hy.
Qed.



(** C7, as stated, fails: whitespace that follows a leading separator
    survives one pass and is trimmed by the next. *)
Lemma normalizeSourceRoot_not_idempotent :
  normalizeSourceRoot "/ a" = js " a"
  /\ normalizeSourceRoot (normalizeSourceRoot "/ a") = js "a"
  /\ normalizeSourceRoot (normalizeSourceRoot "/ a") <> normalizeSourceRoot "/ a".
Proof. repeat split; vm_compute; congruence. Qed.

(** On a POSIX host a leading backslash also hides a segment from the first
    pass. *)
Lemma normalizeSourceRoot_backslash_example :
  normalizeSourceRoot "\./a" = js "./a"
  /\ normalizeSourceRoot (normalizeSourceRoot "\./a") = js "a".
Proof. split; vm_compute; reflexivity. Qed.

Lemma drop_while_end_shape p (y : jsstring) :
  drop_while_end p y = []
  \/ exists r z, drop_while_end p y = r ++ [z] /\ p z = false.
Proof.
  unfold drop_while_end.
  destruct (drop_while p (rev y)) as [|z w] eqn:E; [left; reflexivity|].
  right. exists (rev w), z. split; [reflexivity|].
  apply (drop_while_head _ _ _ _ E).
Qed.

(** Nothing is left to remove after the edge separators are removed. *)
Lemma strip_edges_idempotent (x : jsstring) :
  strip_edges (strip_edges x) = strip_edges x.
Proof.
  destruct (strip_edges x) as [|a0 r0] eqn:Ex; [reflexivity|].
  rewrite <- Ex.
  assert (Hfirst : exists a r, strip_edges x = a :: r /\ is_sep a = false).
  { unfold strip_edges in *.
    destruct (drop_while is_sep x) as [|a y] eqn:Ey; [discriminate|].
    assert (Ha := drop_while_head _ _ _ _ Ey).
    rewrite drop_while_end_cons. cbn [forallb]. rewrite Ha. cbn [andb].
    eexists a, _. split; [reflexivity | exact Ha]. }
  assert (Hlast : exists r z, strip_edges x = r ++ [z] /\ is_sep z = false).
  { unfold strip_edges in *.
    destruct (drop_while_end_shape is_sep (drop_while is_sep x)) as [E|H];
      [congruence | exact H]. }
  rewrite <- (app_nil_r (strip_edges x)) at 1.
  apply (strip_edges_wrap [] (strip_edges x) []); auto.
Qed.

(** A result that [path.normalize] and [trim] leave alone is a fixed
    point. *)
Lemma normalizeSourceRoot_fixed_normalized (s : jsstring) :
  trim (normalizeSourceRoot s) = normalizeSourceRoot s ->
  normalize (normalizeSourceRoot s) = normalizeSourceRoot s ->
  normalizeSourceRoot (normalizeSourceRoot s) = normalizeSourceRoot s.
Proof.
  intros Htrim Hnorm.
  rewrite (normalizeSourceRoot_eq (normalizeSourceRoot s)), Htrim, Hnorm.
  destruct (truthy (normalizeSourceRoot s)) eqn:Et;
    [|symmetry; apply truthy_false, Et].
  rewrite normalizeSourceRoot_eq.
  destruct (truthy (trim s)); [apply strip_edges_idempotent | reflexivity].
Qed.

(** C7, amended. On a POSIX host, where [path] is [path.posix],
    [normalizeSourceRoot] is idempotent on every string whose result has
    no leading or trailing whitespace, provided the string contains no
    backslash, or the result is empty or unchanged by [path.normalize]. *)
Theorem normalizeSourceRoot_idempotent (s : jsstring) :
  trim (normalizeSourceRoot s) = normalizeSourceRoot s ->
  no_backslash s
  \/ normalizeSourceRoot s = []
  \/ normalize (normalizeSourceRoot s) = normalizeSourceRoot s ->
  normalizeSourceRoot (normalizeSourceRoot s) = normalizeSourceRoot s.
Proof.
  intros Htrim [Hs | [He | Hn]].
  - apply normalizeSourceRoot_fixed; [exact Htrim|].
    apply normalizeSourceRoot_shape, Hs.
  - rewrite He. reflexivity.
  - apply normalizeSourceRoot_fixed_normalized; assumption.
Qed.

Lemma normalizeSourceRoot_idempotent_witness :
  normalizeSourceRoot (normalizeSourceRoot " /src//pkg/../lib/ ")
  = normalizeSourceRoot " /src//pkg/../lib/ "
  /\ normalizeSourceRoot (normalizeSourceRoot "\src\pkg\")
     = normalizeSourceRoot "\src\pkg\".
Proof.
  split.
  - apply (normalizeSourceRoot_idempotent " /src//pkg/../lib/ ");
      [reflexivity | left; reflexivity].
  - apply (normalizeSourceRoot_idempotent "\src\pkg\");
      [reflexivity | right; right; reflexivity].
Defined.

(** * Further properties of [src/core.ts] *)

(** ** [splitPath] *)

(** X1. [splitPath] returns, in path order, exactly the non-empty pieces
    that lie between separator characters, and nothing for the empty
    string and for ["."]; no segment is empty or contains a separator. *)
Theorem splitPath_components (input : jsstring) :
  splitPath input
  = (if str_eqb input "." then []
     else filter truthy (Path.split_on is_sep input))
  /\ Forall (fun seg => seg <> [] /\ no_sep seg) (splitPath input)
  /\ splitPath [] = [].
Proof.
  split; [apply splitPath_spec|]. split; [apply splitPath_segments | reflexivity].
Qed.

Lemma split_on_map_separators (f : ascii -> ascii) (s : jsstring) :
  (forall a, is_sep a = true -> is_sep (f a) = true) ->
  (forall a, is_sep a = false -> f a = a) ->
  Path.split_on is_sep (map f s) = Path.split_on is_sep s.
Proof.
  intros Hsep Hid. induction s as [|a s IH]; [reflexivity|].
  cbn [map Path.split_on]. rewrite IH.
  destruct (is_sep a) eqn:Ea.
  - rewrite (Hsep a Ea). reflexivity.
  - rewrite (Hid a Ea), Ea. reflexivity.
Qed.

Lemma map_separators_dot (f : ascii -> ascii) (s : jsstring) :
  (forall a, is_sep a = true -> is_sep (f a) = true) ->
  (forall a, is_sep a = false -> f a = a) ->
  str_eqb (map f s) "." = str_eqb s ".".
Proof.
  intros Hsep Hid.
  destruct s as [|a [|b s]]; [reflexivity | | simpl; rewrite !andb_false_r; reflexivity].
  simpl. rewrite !andb_true_r.
  destruct (is_sep a) eqn:Ea.
  - assert (Hfa := Hsep a Ea).
    destruct (ascii_eqb (f a) ".") eqn:E1.
    + apply ascii_eqb_eq in E1. rewrite E1 in Hfa. discriminate.
    + destruct (ascii_eqb a ".") eqn:E2; [|reflexivity].
      apply ascii_eqb_eq in E2. rewrite E2 in Ea. discriminate.
  - rewrite (Hid a Ea). reflexivity.
Qed.

(** X2. [splitPath] does not depend on the separator style: rewriting the
    separators of a path into one another (every backslash into a slash,
    say) while leaving the other characters alone gives the same
    segments. *)
Theorem splitPath_separator_style (f : ascii -> ascii) (s : jsstring) :
  (forall a, is_sep a = true -> is_sep (f a) = true) ->
  (forall a, is_sep a = false -> f a = a) ->
  splitPath (map f s) = splitPath s.
Proof.
  intros Hsep Hid. rewrite !splitPath_spec.
  rewrite (map_separators_dot f s Hsep Hid).
  rewrite (split_on_map_separators f s Hsep Hid). reflexivity.
Qed.

Lemma splitPath_separator_style_witness :
  splitPath (map (fun a => if is_sep a then slash else a) (js "a\b/c\"))
  = splitPath (js "a\b/c\").
Proof.
  apply (splitPath_separator_style (fun a => if is_sep a then slash else a)).
  - intros a Ha. rewrite Ha. reflexivity.
  - intros a Ha. rewrite Ha. reflexivity.
Defined.

(** X3. Joining clean segments with [/] and splitting again gives the
    segments back, unless the joined path is the single segment ["."]. *)
Theorem splitPath_join (l : list jsstring) :
  Forall (fun seg => seg <> [] /\ no_sep seg) l ->
  join "/" l <> js "." ->
  splitPath (join "/" l) = l.
Proof.
  intros Hl Hdot. rewrite splitPath_spec.
  apply str_eqb_neq in Hdot. rewrite Hdot.
  destruct l as [|x l]; [reflexivity|].
  change (join "/" (x :: l)) with (join [slash] (x :: l)).
  rewrite (split_on_join is_sep slash (x :: l)); try reflexivity; try discriminate.
  - apply filter_truthy_id. eapply Forall_impl; [|exact Hl]. intros y [Hy _]. exact Hy.
  - eapply Forall_impl; [|exact Hl]. intros y [_ Hy]. exact Hy.
Qed.

Lemma splitPath_join_witness :
  splitPath (join "/" [js "src"; js "my pkg"; js ".."]) 
  = [js "src"; js "my pkg"; js ".."].
Proof.
  apply (splitPath_join [js "src"; js "my pkg"; js ".."]).
  - repeat constructor; discriminate.
  - discriminate.
Defined.

(** ** [hasPrefix] *)

(** X4. [hasPrefix] holds exactly when the prefix is non-empty and the
    leading segments of the input, as many as the prefix has, equal the
    prefix segment by segment, both sides lowercased when the comparison
    is not case-sensitive; an empty prefix and a prefix longer than the
    input never match. *)
Theorem hasPrefix_characterization
    (input prefix : list jsstring) (caseSensitive : bool) :
  (hasPrefix input prefix caseSensitive = true <->
   prefix <> []
   /\ map (fun s => if caseSensitive then s else toLowerCase s)
        (firstn (length prefix) input)
      = map (fun s => if caseSensitive then s else toLowerCase s) prefix)
  /\ hasPrefix input [] caseSensitive = false
  /\ (length input < length prefix ->
      hasPrefix input prefix caseSensitive = false).
Proof.
  split; [apply hasPrefix_spec|]. split; [reflexivity|].
  intros Hlen. unfold hasPrefix.
  apply Nat.ltb_lt in Hlen. rewrite Hlen, orb_true_r. reflexivity.
Qed.

Lemma hasPrefix_characterization_witness :
  hasPrefix [js "src"] [js "src"; js "pkg"] false = false.
Proof.
  apply (hasPrefix_characterization [js "src"] [js "src"; js "pkg"] false).
  simpl. lia.
Defined.

(** X5. A prefix that matches case-sensitively also matches when case is
    ignored. *)
Theorem hasPrefix_case_insensitive_weaker (input prefix : list jsstring) :
  hasPrefix input prefix true = true -> hasPrefix input prefix false = true.
Proof.
  rewrite !hasPrefix_spec. unfold fold_case. intros [Hne H]. split; [exact Hne|].
  rewrite !map_id in H. rewrite H. reflexivity.
Qed.

Lemma hasPrefix_case_insensitive_weaker_witness :
  hasPrefix [js "Src"; js "pkg"] [js "Src"] false = true.
Proof.
  apply (hasPrefix_case_insensitive_weaker [js "Src"; js "pkg"] [js "Src"]).
  reflexivity.
Defined.

(** X6. What [toPythonModulePath] removes after a case-sensitive match is
    the prefix itself: the prefix followed by the remaining segments is the
    input. After a case-insensitive match this holds of the lowercased
    segments. *)
Theorem hasPrefix_splice (input prefix : list jsstring) (caseSensitive : bool) :
  hasPrefix input prefix caseSensitive = true ->
  (caseSensitive = true -> prefix ++ skipn (length prefix) input = input)
  /\ map toLowerCase prefix ++ map toLowerCase (skipn (length prefix) input)
     = map toLowerCase input
  /\ length (skipn (length prefix) input) = length input - length prefix
  /\ length prefix <= length input.
Proof.
  intros H. apply hasPrefix_spec in H as [Hne H].
  assert (Hlen : length prefix <= length input).
  { apply (f_equal (@length _)) in H. rewrite !length_map, length_firstn in H. lia. }
  assert (Hlow : map toLowerCase (firstn (length prefix) input)
                 = map toLowerCase prefix).
  { destruct caseSensitive; unfold fold_case in H; [|exact H].
    rewrite !map_id in H. rewrite H. reflexivity. }
  split; [|split; [|split]].
  - intros ->. unfold fold_case in H. rewrite !map_id in H.
    rewrite <- H at 1. apply firstn_skipn.
  - rewrite <- Hlow, <- map_app, firstn_skipn. reflexivity.
  - apply length_skipn.
  - exact Hlen.
Qed.

Lemma hasPrefix_splice_witness :
  [js "src"] ++ skipn 1 [js "src"; js "mypkg"] = [js "src"; js "mypkg"].
Proof.
  destruct (hasPrefix_splice [js "src"; js "mypkg"] [js "src"] true eq_refl)
    as (H & _).
  apply H. reflexivity.
Defined.

(** ** [isValidPythonIdentifier] *)

(** X7. [isValidPythonIdentifier] accepts exactly the non-empty strings
    whose first character is an ASCII letter or underscore and whose other
    characters are ASCII letters, digits or underscores. *)
Theorem isValidPythonIdentifier_characterization (name : jsstring) :
  isValidPythonIdentifier name = true <->
  exists a rest, name = a :: rest
                 /\ ident_start a = true
                 /\ Forall (fun b => ident_char b = true) rest.
Proof.
  rewrite isValidPythonIdentifier_spec. destruct name as [|a rest].
  - split; [discriminate | intros (a & r & H & _); discriminate].
  - rewrite andb_true_iff, forallb_forall. split.
    + intros [Ha Hr]. exists a, rest. rewrite Forall_forall. auto.
    + intros (a' & r' & [= <- <-] & Ha & Hr). rewrite Forall_forall in Hr. auto.
Qed.

(** ** [normalizeSourceRoot] *)

Lemma strip_edges_shape (x : jsstring) :
  strip_edges x = []
  \/ ((exists a r, strip_edges x = a :: r /\ is_sep a = false)
      /\ (exists r z, strip_edges x = r ++ [z] /\ is_sep z = false)).
Proof.
  destruct (strip_edges x) as [|a0 r0] eqn:Ex; [left; reflexivity|].
  right. rewrite <- Ex. unfold strip_edges in *.
  destruct (drop_while is_sep x) as [|a y] eqn:Ey; [discriminate|].
  assert (Ha := drop_while_head _ _ _ _ Ey). split.
  - rewrite drop_while_end_cons. cbn [forallb]. rewrite Ha. cbn [andb].
    eexists a, _. split; [reflexivity | exact Ha].
  - destruct (drop_while_end_shape is_sep (a :: y)) as [E|H];
      [congruence | exact H].
Qed.

Lemma trim_surrounding (ws1 s ws2 : jsstring) :
  forallb is_space ws1 = true -> forallb is_space ws2 = true ->
  trim (ws1 ++ s ++ ws2) = trim s.
Proof.
  intros H1 H2. unfold trim.
  rewrite drop_while_app_all by exact H1. rewrite drop_while_app.
  destruct (forallb is_space s) eqn:Es.
  - rewrite !drop_while_all by assumption. reflexivity.
  - apply drop_while_end_app_all, H2.
Qed.

(** X8. The result of [normalizeSourceRoot] never begins or ends with a
    separator: it is empty, or its first and last characters are neither
    [/] nor [\]; for input that is only whitespace it is empty. *)
Theorem normalizeSourceRoot_edges (raw : jsstring) :
  (normalizeSourceRoot raw = []
   \/ ((exists a r, normalizeSourceRoot raw = a :: r /\ is_sep a = false)
       /\ (exists r z, normalizeSourceRoot raw = r ++ [z] /\ is_sep z = false)))
  /\ (forallb is_space raw = true -> normalizeSourceRoot raw = []).
Proof.
  rewrite normalizeSourceRoot_eq. split.
  - destruct (truthy (trim raw)); [apply strip_edges_shape | left; reflexivity].
  - intros Hws. unfold trim. rewrite drop_while_all by exact Hws. reflexivity.
Qed.

Lemma normalizeSourceRoot_edges_witness :
  normalizeSourceRoot (js "   ") = [].
Proof.
  apply (normalizeSourceRoot_edges (js "   ")). reflexivity.
Defined.

(** X9. Whitespace around the configured value does not matter:
    [normalizeSourceRoot] gives the same result with and without it. *)
Theorem normalizeSourceRoot_surrounding_whitespace (ws1 s ws2 : jsstring) :
  forallb is_space ws1 = true -> forallb is_space ws2 = true ->
  normalizeSourceRoot (ws1 ++ s ++ ws2) = normalizeSourceRoot s.
Proof.
  intros H1 H2. rewrite !normalizeSourceRoot_eq.
  rewrite (trim_surrounding ws1 s ws2 H1 H2). reflexivity.
Qed.

Lemma normalizeSourceRoot_surrounding_whitespace_witness :
  normalizeSourceRoot (js "  " ++ js "src/" ++ js " ")
  = normalizeSourceRoot (js "src/").
Proof.
  apply (normalizeSourceRoot_surrounding_whitespace (js "  ") (js "src/") (js " "));
    reflexivity.
Defined.

(** ** The matcher and what a pattern matches *)

Lemma star_iter_matches {R : Type} r (k : @cont R) :
  (forall b s c (k' : @cont R) (v : R), rmatch r b s c k' = Some v ->
     exists b' s' c', matches r b s c b' s' c' /\ k' b' s' c' = Some v) ->
  forall fuel b s c v,
    star_iter (rmatch r) k fuel b s c = Some v ->
    exists b' s' c', matches (Star r) b s c b' s' c' /\ k b' s' c' = Some v.
Proof.
  intros Hr. induction fuel as [|fuel IH]; intros b s c v; cbn [star_iter].
  - intros H. exists b, s, c. split; [constructor | exact H].
  - intros H. apply orelse_some in H as [H|[_ H]].
    + apply Hr in H as (b1 & s1 & c1 & Hm & Hk).
      destruct (length s1 <? length s) eqn:Hlt; [|discriminate].
      apply Nat.ltb_lt in Hlt.
      apply IH in Hk as (b2 & s2 & c2 & Hm2 & Hk2).
      exists b2, s2, c2. split; [|exact Hk2].
      eapply matches_star_step; eassumption.
    + exists b, s, c. split; [constructor | exact H].
Qed.

(** Whatever the matcher finds is a match of the pattern. *)
Lemma rmatch_matches {R : Type} r : forall b s c (k : @cont R) v,
  rmatch r b s c k = Some v ->
  exists b' s' c', matches r b s c b' s' c' /\ k b' s' c' = Some v.
Proof.
  induction r as [|p|r1 IH1 r2 IH2|r1 IH1 r2 IH2|r1 IH1|n r1 IH1| |];
    intros b s c k v H; cbn [rmatch] in H.
  - exists b, s, c. split; [constructor | exact H].
  - destruct s as [|a s]; [discriminate|]. destruct (p a) eqn:Ea; [|discriminate].
    exists false, s, c. split; [constructor; exact Ea | exact H].
  - apply IH1 in H as (b1 & s1 & c1 & Hm1 & H).
    apply IH2 in H as (b2 & s2 & c2 & Hm2 & H).
    exists b2, s2, c2. split; [econstructor; eassumption | exact H].
  - apply orelse_some in H as [H|[_ H]].
    + apply IH1 in H as (b1 & s1 & c1 & Hm & H).
      exists b1, s1, c1. split; [apply matches_alt_l; exact Hm | exact H].
    + apply IH2 in H as (b1 & s1 & c1 & Hm & H).
      exists b1, s1, c1. split; [apply matches_alt_r; exact Hm | exact H].
  - apply (star_iter_matches r1 k IH1) in H. exact H.
  - apply IH1 in H as (b1 & s1 & c1 & Hm & H).
    eexists _, _, _. split; [apply matches_group; exact Hm | exact H].
  - destruct b; [|discriminate]. exists true, s, c. split; [constructor | exact H].
  - destruct s; [|discriminate]. exists b, [], c. split; [constructor | exact H].
Qed.

Lemma orelse_not_none_l {R : Type} (x y : option R) :
  x <> None -> orelse x y <> None.
Proof. destruct x; simpl; congruence. Qed.

Lemma orelse_not_none_r {R : Type} (x y : option R) :
  y <> None -> orelse x y <> None.
Proof. destruct x; simpl; congruence. Qed.

(** Whenever the pattern has a match after which the continuation
    succeeds, the matcher succeeds. *)
Lemma matches_rmatch {R : Type} r b s c b' s' c' :
  matches r b s c b' s' c' ->
  forall k : @cont R,
    k b' s' c' <> None ->
    rmatch r b s c k <> None
    /\ (forall r1, r = Star r1 ->
        forall fuel, length s <= fuel ->
          star_iter (rmatch r1) k fuel b s c <> None).
Proof.
  induction 1 as [b s c|p b a s c Hp
                 |r1 r2 b s c b1 s1 c1 b2 s2 c2 _ IH1 _ IH2
                 |r1 r2 b s c b' s' c' _ IH|r1 r2 b s c b' s' c' _ IH
                 |r b s c|r b s c b1 s1 c1 b2 s2 c2 _ IH1 Hlt _ IH2
                 |n r b s c b' s' c' _ IH|s c|b c];
    intros k Hk.
  - split; [exact Hk | discriminate].
  - split; [cbn [rmatch]; rewrite Hp; exact Hk | discriminate].
  - split; [|discriminate]. cbn [rmatch].
    apply IH1. apply IH2. exact Hk.
  - split; [|discriminate]. cbn [rmatch].
    apply orelse_not_none_l, IH, Hk.
  - split; [|discriminate]. cbn [rmatch].
    apply orelse_not_none_r, IH, Hk.
  - assert (Hfuel : forall fuel, star_iter (rmatch r) k fuel b s c <> None).
    { intros [|fuel]; cbn [star_iter]; [exact Hk|].
      apply orelse_not_none_r, Hk. }
    split; [apply Hfuel|]. intros r1 [= <-] fuel _. apply Hfuel.
  - assert (Hfuel : forall fuel, length s <= fuel ->
                      star_iter (rmatch r) k fuel b s c <> None).
    { intros [|fuel] Hf; [lia|]. cbn [star_iter].
      apply orelse_not_none_l. apply IH1.
      replace (length s1 <? length s) with true
        by (symmetry; apply Nat.ltb_lt; exact Hlt).
      apply (proj2 (IH2 k Hk) r eq_refl). lia. }
    split; [apply Hfuel; lia|]. intros r1 [= <-]. exact Hfuel.
  - split; [|discriminate]. cbn [rmatch]. apply IH. exact Hk.
  - split; [exact Hk | discriminate].
  - split; [exact Hk | discriminate].
Qed.

(** A match consumes a prefix of the input. *)
Lemma matches_consumes r b s c b' s' c' :
  matches r b s c b' s' c' -> exists w, s = w ++ s'.
Proof.
  induction 1 as [b s c|p b a s c Hp
                 |r1 r2 b s c b1 s1 c1 b2 s2 c2 _ IH1 _ IH2
                 |r1 r2 b s c b' s' c' _ IH|r1 r2 b s c b' s' c' _ IH
                 |r b s c|r b s c b1 s1 c1 b2 s2 c2 _ IH1 Hlt _ IH2
                 |n r b s c b' s' c' _ IH|s c|b c];
    try (exists []; reflexivity); try exact IH.
  - exists [a]. reflexivity.
  - destruct IH1 as (w1 & ->). destruct IH2 as (w2 & ->).
    exists (w1 ++ w2). rewrite app_assoc. reflexivity.
  - destruct IH1 as (w1 & ->). destruct IH2 as (w2 & ->).
    exists (w1 ++ w2). rewrite app_assoc. reflexivity.
Qed.

(** *** Reading a match off a pattern *)

Lemma matches_seq_inv r1 r2 b s c b2 s2 c2 :
  matches (Seq r1 r2) b s c b2 s2 c2 ->
  exists b1 s1 c1,
    matches r1 b s c b1 s1 c1 /\ matches r2 b1 s1 c1 b2 s2 c2.
Proof. intros H. inversion H; subst. eauto. Qed.

Lemma matches_eps_inv b s c b' s' c' :
  matches Eps b s c b' s' c' -> s' = s /\ c' = c.
Proof. intros H. inversion H; subst. auto. Qed.

Lemma matches_bol_inv b s c b' s' c' :
  matches Bol b s c b' s' c' -> s' = s /\ c' = c.
Proof. intros H. inversion H; subst. auto. Qed.

Lemma matches_eol_inv b s c b' s' c' :
  matches Eol b s c b' s' c' -> s = [] /\ s' = [] /\ c' = c.
Proof. intros H. inversion H; subst. auto. Qed.

Lemma matches_chr_inv p b s c b' s' c' :
  matches (Chr p) b s c b' s' c' ->
  exists a, s = a :: s' /\ p a = true /\ c' = c.
Proof. intros H. inversion H; subst. eauto. Qed.

Lemma matches_star_chr_inv p b s c b' s' c' :
  matches (Star (Chr p)) b s c b' s' c' ->
  exists w, s = w ++ s' /\ forallb p w = true /\ c' = c.
Proof.
  intros H. remember (Star (Chr p)) as r eqn:Er.
  induction H as [| | | | |r0 b s c|r0 b s c b1 s1 c1 b2 s2 c2 H1 _ Hlt _ IH2| | |];
    try discriminate.
  - exists []. auto.
  - injection Er as ->. apply matches_chr_inv in H1 as (a & -> & Ha & ->).
    destruct (IH2 eq_refl) as (w & -> & Hw & ->).
    exists (a :: w). simpl. rewrite Ha, Hw. auto.
Qed.

Lemma matches_plus_chr_inv p b s c b' s' c' :
  matches (Plus (Chr p)) b s c b' s' c' ->
  exists w, s = w ++ s' /\ forallb p w = true /\ w <> [] /\ c' = c.
Proof.
  intros H. apply matches_seq_inv in H as (b1 & s1 & c1 & H1 & H2).
  apply matches_chr_inv in H1 as (a & -> & Ha & ->).
  apply matches_star_chr_inv in H2 as (w & -> & Hw & ->).
  exists (a :: w). simpl. rewrite Ha, Hw. repeat split; auto. discriminate.
Qed.

Lemma matches_lit_inv l : forall b s c b' s' c',
  matches (Lit l) b s c b' s' c' -> s = l ++ s' /\ c' = c.
Proof.
  induction l as [|x l IH]; intros b s c b' s' c' H; cbn [Lit] in H.
  - apply matches_eps_inv in H as [-> ->]. auto.
  - apply matches_seq_inv in H as (b1 & s1 & c1 & H1 & H2).
    apply matches_chr_inv in H1 as (a & -> & Ha & ->).
    apply ascii_eqb_eq in Ha. subst a.
    apply IH in H2 as [-> ->]. auto.
Qed.

Lemma forallb_ident_valid a (w : jsstring) :
  ident_start a = true -> forallb ident_char w = true ->
  isValidPythonIdentifier (a :: w) = true.
Proof.
  intros Ha Hw. rewrite isValidPythonIdentifier_spec, Ha, Hw. reflexivity.
Qed.

Lemma matches_identifier_inv n b s c b' s' c' :
  matches (Group n re_identifier) b s c b' s' c' ->
  exists name, s = name ++ s' /\ isValidPythonIdentifier name = true
               /\ c' = (n, name) :: c.
Proof.
  intros H. inversion H as [| | | | | | |? ? ? ? ? ? ? ? H0| |]; subst.
  unfold re_identifier in H0.
  apply matches_seq_inv in H0 as (b1 & s1 & c1 & H1 & H2).
  apply matches_chr_inv in H1 as (a & -> & Ha & ->).
  apply matches_star_chr_inv in H2 as (w & -> & Hw & ->).
  exists (a :: w). split; [reflexivity|]. split; [apply forallb_ident_valid; assumption|].
  f_equal. f_equal.
  change (a :: w ++ s') with ((a :: w) ++ s').
  rewrite length_app, Nat.add_sub.
  rewrite firstn_app, firstn_all, Nat.sub_diag. simpl. rewrite app_nil_r.
  reflexivity.
Qed.

(** *** Building a match of a pattern *)

Lemma matches_star_chr_intro p (w : jsstring) : forall b s c,
  forallb p w = true ->
  exists b', matches (Star (Chr p)) b (w ++ s) c b' s c.
Proof.
  induction w as [|a w IH]; intros b s c Hw.
  - exists b. constructor.
  - simpl in Hw. apply andb_true_iff in Hw as [Ha Hw].
    destruct (IH false s c Hw) as (b' & H). exists b'. cbn [app].
    eapply matches_star_step; [apply matches_chr; exact Ha | simpl; lia | exact H].
Qed.

Lemma matches_plus_chr_intro p (w : jsstring) b s c :
  forallb p w = true -> w <> [] ->
  exists b', matches (Plus (Chr p)) b (w ++ s) c b' s c.
Proof.
  intros Hw Hne. destruct w as [|a w]; [congruence|].
  simpl in Hw. apply andb_true_iff in Hw as [Ha Hw].
  destruct (matches_star_chr_intro p w false s c Hw) as (b' & H).
  exists b'. cbn [app].
  eapply matches_seq; [apply matches_chr; exact Ha | exact H].
Qed.

Lemma matches_lit_intro l : forall b s c,
  exists b', matches (Lit l) b (l ++ s) c b' s c.
Proof.
  induction l as [|x l IH]; intros b s c.
  - exists b. constructor.
  - destruct (IH false s c) as (b' & H). exists b'. cbn [app Lit].
    eapply matches_seq; [apply matches_chr; apply ascii_eqb_eq; reflexivity | exact H].
Qed.

Lemma matches_identifier_intro n name b s c :
  isValidPythonIdentifier name = true ->
  exists b', matches (Group n re_identifier) b (name ++ s) c b' s ((n, name) :: c).
Proof.
  intros Hv. rewrite isValidPythonIdentifier_spec in Hv.
  destruct name as [|a w]; [discriminate|].
  apply andb_true_iff in Hv as [Ha Hw].
  destruct (matches_star_chr_intro ident_char w false s c Hw) as (b' & H).
  exists b'.
  replace ((n, a :: w) :: c)
    with ((n, firstn (length ((a :: w) ++ s) - length s) ((a :: w) ++ s)) :: c).
  - apply matches_group. cbn [app].
    eapply matches_seq; [apply matches_chr; exact Ha | exact H].
  - rewrite length_app, Nat.add_sub.
    rewrite firstn_app, firstn_all, Nat.sub_diag. simpl. rewrite app_nil_r.
    reflexivity.
Qed.

Lemma matches_alt_inv r1 r2 b s c b' s' c' :
  matches (Alt r1 r2) b s c b' s' c' ->
  matches r1 b s c b' s' c' \/ matches r2 b s c b' s' c'.
Proof. intros H. inversion H; subst; auto. Qed.

Lemma matches_one_inv x b s c b' s' c' :
  matches (Chr (ascii_eqb x)) b s c b' s' c' -> s = x :: s' /\ c' = c.
Proof.
  intros H. apply matches_chr_inv in H as (a & -> & Ha & ->).
  apply ascii_eqb_eq in Ha. subst. auto.
Qed.

Lemma space_not_equals a : is_space a = true -> not_equals a = true.
Proof.
  destruct a as [[] [] [] [] [] [] [] []]; vm_compute; congruence.
Qed.

Lemma spaces_not_equals (w : jsstring) :
  spaces w -> forallb not_equals w = true.
Proof.
  unfold spaces. induction w as [|a w IH]; simpl; [reflexivity|].
  intros H. apply andb_true_iff in H as [Ha Hw].
  rewrite (space_not_equals a Ha), (IH Hw). reflexivity.
Qed.

(** *** The patterns of the extractor, read as declarations *)

Ltac next_part H H1 :=
  let b := fresh "b" in
  let s := fresh "s" in
  let c := fresh "c" in
  apply matches_seq_inv in H as (b & s & c & H1 & H).

Lemma pattern_async_def_sound line b' s' c' :
  matches pattern_async_def true line [] b' s' c' ->
  exists name, capture 1 c' = Some name /\ declaration_line line name.
Proof.
  unfold pattern_async_def, re_space. cbn [seqs]. intros H.
  next_part H H1. apply matches_bol_inv in H1 as [-> ->].
  next_part H H1. apply matches_star_chr_inv in H1 as (ws & -> & Hws & ->).
  next_part H H1. apply matches_lit_inv in H1 as [-> ->].
  next_part H H1. apply matches_plus_chr_inv in H1 as (ws1 & -> & Hws1 & Hne1 & ->).
  next_part H H1. apply matches_lit_inv in H1 as [-> ->].
  next_part H H1. apply matches_plus_chr_inv in H1 as (ws2 & -> & Hws2 & Hne2 & ->).
  next_part H H1. apply matches_identifier_inv in H1 as (name & -> & Hname & ->).
  next_part H H1. apply matches_star_chr_inv in H1 as (ws3 & -> & Hws3 & ->).
  next_part H H1. apply matches_one_inv in H1 as [-> ->].
  apply matches_eps_inv in H as [-> ->].
  exists name. split; [reflexivity|].
  exact (async_function_declaration ws ws1 ws2 name ws3 _
           Hws Hws1 Hne1 Hws2 Hne2 Hname Hws3).
Qed.

Lemma pattern_def_sound line b' s' c' :
  matches pattern_def true line [] b' s' c' ->
  exists name, capture 1 c' = Some name /\ declaration_line line name.
Proof.
  unfold pattern_def, re_space. cbn [seqs]. intros H.
  next_part H H1. apply matches_bol_inv in H1 as [-> ->].
  next_part H H1. apply matches_star_chr_inv in H1 as (ws & -> & Hws & ->).
  next_part H H1. apply matches_lit_inv in H1 as [-> ->].
  next_part H H1. apply matches_plus_chr_inv in H1 as (ws1 & -> & Hws1 & Hne1 & ->).
  next_part H H1. apply matches_identifier_inv in H1 as (name & -> & Hname & ->).
  next_part H H1. apply matches_star_chr_inv in H1 as (ws2 & -> & Hws2 & ->).
  next_part H H1. apply matches_one_inv in H1 as [-> ->].
  apply matches_eps_inv in H as [-> ->].
  exists name. split; [reflexivity|].
  exact (function_declaration ws ws1 name ws2 _ Hws Hws1 Hne1 Hname Hws2).
Qed.

Lemma pattern_class_sound line b' s' c' :
  matches pattern_class true line [] b' s' c' ->
  exists name, capture 1 c' = Some name /\ declaration_line line name.
Proof.
  unfold pattern_class, re_space. cbn [seqs]. intros H.
  next_part H H1. apply matches_bol_inv in H1 as [-> ->].
  next_part H H1. apply matches_star_chr_inv in H1 as (ws & -> & Hws & ->).
  next_part H H1. apply matches_lit_inv in H1 as [-> ->].
  next_part H H1. apply matches_plus_chr_inv in H1 as (ws1 & -> & Hws1 & Hne1 & ->).
  next_part H H1. apply matches_identifier_inv in H1 as (name & -> & Hname & ->).
  next_part H H1. apply matches_star_chr_inv in H1 as (ws2 & -> & Hws2 & ->).
  next_part H H1. apply matches_chr_inv in H1 as (opener & -> & Ho & ->).
  apply matches_eps_inv in H as [-> ->].
  exists name. split; [reflexivity|].
  apply (class_declaration ws ws1 name ws2 opener _ Hws Hws1 Hne1 Hname Hws2).
  apply orb_true_iff in Ho as [Ho|Ho]; apply ascii_eqb_eq in Ho; auto.
Qed.

Lemma pattern_assignment_sound line b' s' c' :
  matches pattern_assignment true line [] b' s' c' ->
  exists name, capture 1 c' = Some name /\ declaration_line line name.
Proof.
  unfold pattern_assignment, re_space, Opt. cbn [seqs]. intros H.
  next_part H H1. apply matches_bol_inv in H1 as [-> ->].
  next_part H H1. apply matches_star_chr_inv in H1 as (ws & -> & Hws & ->).
  next_part H H1. apply matches_identifier_inv in H1 as (name & -> & Hname & ->).
  next_part H H1. apply matches_star_chr_inv in H1 as (ws1 & -> & Hws1 & ->).
  next_part H H1. apply matches_alt_inv in H1 as [H1|H1].
  - next_part H1 H2. apply matches_one_inv in H2 as [-> ->].
    apply matches_plus_chr_inv in H1 as (ann & -> & Hann & Hne & ->).
    next_part H H1. apply matches_one_inv in H1 as [-> ->].
    apply matches_eps_inv in H as [-> ->].
    exists name. split; [reflexivity|].
    exact (annotated_assignment ws name ws1 ann _ Hws Hname Hws1 Hne Hann).
  - apply matches_eps_inv in H1 as [-> ->].
    next_part H H1. apply matches_one_inv in H1 as [-> ->].
    apply matches_eps_inv in H as [-> ->].
    exists name. split; [reflexivity|].
    exact (assignment ws name ws1 _ Hws Hname Hws1).
Qed.

Lemma pattern_annotation_sound line b' s' c' :
  matches pattern_annotation true line [] b' s' c' ->
  exists name, capture 1 c' = Some name /\ declaration_line line name.
Proof.
  unfold pattern_annotation, re_space. cbn [seqs]. intros H.
  next_part H H1. apply matches_bol_inv in H1 as [-> ->].
  next_part H H1. apply matches_star_chr_inv in H1 as (ws & -> & Hws & ->).
  next_part H H1. apply matches_identifier_inv in H1 as (name & -> & Hname & ->).
  next_part H H1. apply matches_star_chr_inv in H1 as (ws1 & -> & Hws1 & ->).
  next_part H H1. apply matches_one_inv in H1 as [-> ->].
  next_part H H1. apply matches_star_chr_inv in H1 as (ws2 & -> & Hws2 & ->).
  next_part H H1. apply matches_plus_chr_inv in H1 as (t & -> & Ht & Hne & ->).
  next_part H H1. apply matches_eol_inv in H1 as (-> & -> & ->).
  apply matches_eps_inv in H as [-> ->].
  exists name. split; [reflexivity|].
  rewrite app_nil_r.
  assert (Hann : forallb not_equals (ws2 ++ t) = true)
    by (rewrite forallb_app, (spaces_not_equals ws2 Hws2), Ht; reflexivity).
  assert (Hne' : ws2 ++ t <> [])
    by (destruct ws2; [exact Hne | discriminate]).
  exact (bare_annotation ws name ws1 (ws2 ++ t) Hws Hname Hws1 Hne' Hann).
Qed.

Lemma patterns_sound p line b' s' c' :
  In p patterns ->
  matches p true line [] b' s' c' ->
  exists name, capture 1 c' = Some name /\ declaration_line line name.
Proof.
  unfold patterns. simpl.
  intros [<-|[<-|[<-|[<-|[<-|[]]]]]].
  - apply pattern_async_def_sound.
  - apply pattern_def_sound.
  - apply pattern_class_sound.
  - apply pattern_assignment_sound.
  - apply pattern_annotation_sound.
Qed.

Lemma matches_then r1 r2 b s c s1 c1 s2 c2 :
  (exists b1, matches r1 b s c b1 s1 c1) ->
  (forall b1, exists b2, matches r2 b1 s1 c1 b2 s2 c2) ->
  exists b2, matches (Seq r1 r2) b s c b2 s2 c2.
Proof.
  intros (b1 & H1) H2. destruct (H2 b1) as (b2 & H2').
  exists b2. eapply matches_seq; eassumption.
Qed.

Lemma matches_one_intro x b s c :
  exists b', matches (Chr (ascii_eqb x)) b (x :: s) c b' s c.
Proof. exists false. apply matches_chr. apply ascii_eqb_eq. reflexivity. Qed.

Lemma matches_eps_intro b s c : exists b', matches Eps b s c b' s c.
Proof. exists b. constructor. Qed.

(** Every declaration line is matched by one of the patterns. *)
Lemma declaration_line_matched line name :
  declaration_line line name ->
  exists p, In p patterns
            /\ exists b' s' c', matches p true line [] b' s' c'.
Proof.
  intros H.
  destruct H as [ws ws1 ws2 name ws3 rest Hws Hws1 Hne1 Hws2 Hne2 Hname Hws3
                |ws ws1 name ws2 rest Hws Hws1 Hne1 Hname Hws2
                |ws ws1 name ws2 opener rest Hws Hws1 Hne1 Hname Hws2 Ho
                |ws name ws1 rest Hws Hname Hws1
                |ws name ws1 ann rest Hws Hname Hws1 Hne Hann
                |ws name ws1 ann Hws Hname Hws1 Hne Hann].
  - exists pattern_async_def. split; [simpl; auto|].
    cut (exists b', matches pattern_async_def true
           (ws ++ "async" ++ ws1 ++ "def" ++ ws2 ++ name ++ ws3 ++ "(" ++ rest)
           [] b' rest [(1, name)]); [intros (b' & H); eauto|].
    unfold pattern_async_def, re_space. cbn [seqs].
    eapply matches_then; [exists true; constructor | intros ?].
    eapply matches_then; [apply matches_star_chr_intro, Hws | intros ?].
    eapply matches_then; [apply matches_lit_intro | intros ?].
    eapply matches_then; [apply matches_plus_chr_intro; assumption | intros ?].
    eapply matches_then; [apply matches_lit_intro | intros ?].
    eapply matches_then; [apply matches_plus_chr_intro; assumption | intros ?].
    eapply matches_then; [apply matches_identifier_intro, Hname | intros ?].
    eapply matches_then; [apply matches_star_chr_intro, Hws3 | intros ?].
    eapply matches_then; [apply matches_one_intro | intros ?].
    apply matches_eps_intro.
  - exists pattern_def. split; [simpl; auto|].
    cut (exists b', matches pattern_def true
           (ws ++ "def" ++ ws1 ++ name ++ ws2 ++ "(" ++ rest)
           [] b' rest [(1, name)]); [intros (b' & H); eauto|].
    unfold pattern_def, re_space. cbn [seqs].
    eapply matches_then; [exists true; constructor | intros ?].
    eapply matches_then; [apply matches_star_chr_intro, Hws | intros ?].
    eapply matches_then; [apply matches_lit_intro | intros ?].
    eapply matches_then; [apply matches_plus_chr_intro; assumption | intros ?].
    eapply matches_then; [apply matches_identifier_intro, Hname | intros ?].
    eapply matches_then; [apply matches_star_chr_intro, Hws2 | intros ?].
    eapply matches_then; [apply matches_one_intro | intros ?].
    apply matches_eps_intro.
  - exists pattern_class. split; [simpl; auto|].
    cut (exists b', matches pattern_class true
           (ws ++ "class" ++ ws1 ++ name ++ ws2 ++ opener :: rest)
           [] b' rest [(1, name)]); [intros (b' & H); eauto|].
    unfold pattern_class, re_space. cbn [seqs].
    eapply matches_then; [exists true; constructor | intros ?].
    eapply matches_then; [apply matches_star_chr_intro, Hws | intros ?].
    eapply matches_then; [apply matches_lit_intro | intros ?].
    eapply matches_then; [apply matches_plus_chr_intro; assumption | intros ?].
    eapply matches_then; [apply matches_identifier_intro, Hname | intros ?].
    eapply matches_then; [apply matches_star_chr_intro, Hws2 | intros ?].
    eapply matches_then; [|intros ?; apply matches_eps_intro].
    exists false. apply matches_chr.
    destruct Ho as [-> | ->]; reflexivity.
  - exists pattern_assignment. split; [simpl; auto|].
    cut (exists b', matches pattern_assignment true
           (ws ++ name ++ ws1 ++ "=" ++ rest) [] b' rest [(1, name)]);
      [intros (b' & H); eauto|].
    unfold pattern_assignment, re_space, Opt. cbn [seqs].
    eapply matches_then; [exists true; constructor | intros ?].
    eapply matches_then; [apply matches_star_chr_intro, Hws | intros ?].
    eapply matches_then; [apply matches_identifier_intro, Hname | intros ?].
    eapply matches_then; [apply matches_star_chr_intro, Hws1 | intros bb].
    eapply matches_then;
      [exists bb; apply matches_alt_r; constructor | intros ?].
    eapply matches_then; [apply matches_one_intro | intros ?].
    apply matches_eps_intro.
  - exists pattern_assignment. split; [simpl; auto|].
    cut (exists b', matches pattern_assignment true
           (ws ++ name ++ ws1 ++ ":" ++ ann ++ "=" ++ rest)
           [] b' rest [(1, name)]); [intros (b' & H); eauto|].
    unfold pattern_assignment, re_space, Opt. cbn [seqs].
    eapply matches_then; [exists true; constructor | intros ?].
    eapply matches_then; [apply matches_star_chr_intro, Hws | intros ?].
    eapply matches_then; [apply matches_identifier_intro, Hname | intros ?].
    eapply matches_then; [apply matches_star_chr_intro, Hws1 | intros bb].
    eapply matches_then; [|intros ?].
    + assert (H : exists bz,
                 matches (Seq (Chr (ascii_eqb ":")) (Plus (Chr not_equals))) bb
                   (":" ++ ann ++ "=" ++ rest) [(1, name)] bz
                   ("=" ++ rest) [(1, name)]).
      { eapply matches_then; [apply matches_one_intro | intros ?].
        apply matches_plus_chr_intro; assumption. }
      destruct H as (bz & H). exists bz. apply matches_alt_l. exact H.
    + eapply matches_then; [apply matches_one_intro | intros ?].
      apply matches_eps_intro.
  - exists pattern_annotation. split; [simpl; auto 6|].
    cut (exists b', matches pattern_annotation true
           (ws ++ name ++ ws1 ++ ":" ++ ann ++ []) [] b' [] [(1, name)]).
    { rewrite app_nil_r. intros (b' & H). eauto. }
    unfold pattern_annotation, re_space. cbn [seqs].
    eapply matches_then; [exists true; constructor | intros ?].
    eapply matches_then; [apply matches_star_chr_intro, Hws | intros ?].
    eapply matches_then; [apply matches_identifier_intro, Hname | intros ?].
    eapply matches_then; [apply matches_star_chr_intro, Hws1 | intros ?].
    eapply matches_then; [apply matches_one_intro | intros ?].
    eapply matches_then;
      [apply (matches_star_chr_intro is_space []); reflexivity | intros ?].
    eapply matches_then; [apply matches_plus_chr_intro; assumption | intros bb].
    eapply matches_then; [exists bb; constructor | intros ?].
    apply matches_eps_intro.
Qed.

(** *** A line declares at most one name *)

Lemma run_unique p (w1 : jsstring) : forall w2 x1 x2,
  forallb p w1 = true -> forallb p w2 = true ->
  stops p x1 -> stops p x2 ->
  w1 ++ x1 = w2 ++ x2 -> w1 = w2 /\ x1 = x2.
Proof.
  induction w1 as [|a w1 IH]; intros [|b w2] x1 x2 H1 H2 S1 S2 E; simpl in *.
  - auto.
  - subst x1. simpl in S1. apply andb_true_iff in H2 as [H2 _]. congruence.
  - subst x2. simpl in S2. apply andb_true_iff in H1 as [H1 _]. congruence.
  - injection E as -> E.
    apply andb_true_iff in H1 as [_ H1]. apply andb_true_iff in H2 as [_ H2].
    destruct (IH w2 x1 x2 H1 H2 S1 S2 E) as [-> ->]. auto.
Qed.

Lemma space_not_ident a : is_space a = true -> ident_char a = false.
Proof.
  intros H. destruct (ident_char a) eqn:E; [|reflexivity].
  apply ident_char_not_space in E. congruence.
Qed.

Lemma identifier_chars (name : jsstring) :
  isValidPythonIdentifier name = true ->
  forallb ident_char name = true
  /\ exists a w, name = a :: w /\ ident_start a = true.
Proof.
  rewrite isValidPythonIdentifier_spec. destruct name as [|a w]; [discriminate|].
  intros H. apply andb_true_iff in H as [Ha Hw]. split.
  - simpl. rewrite (ident_start_char a Ha), Hw. reflexivity.
  - exists a, w. auto.
Qed.

Lemma stops_after_spaces p (ws x : jsstring) :
  (forall a, is_space a = true -> p a = false) ->
  spaces ws -> stops p x -> stops p (ws ++ x).
Proof.
  intros Hp Hws Hx. destruct ws as [|a ws]; [exact Hx|].
  simpl. unfold spaces in Hws. simpl in Hws.
  apply andb_true_iff in Hws as [Ha _]. apply Hp, Ha.
Qed.

Lemma stops_identifier (name x : jsstring) :
  isValidPythonIdentifier name = true -> stops is_space (name ++ x).
Proof.
  intros H. apply identifier_chars in H as [_ (a & w & -> & Ha)].
  simpl. apply ident_char_not_space, ident_start_char, Ha.
Qed.

(** The start of a line: whitespace, an identifier, whitespace, and what
    follows, which begins with neither whitespace nor, if no whitespace
    precedes it, an identifier character. *)
Lemma line_head_unique ws1 tok1 sp1 tail1 ws2 tok2 sp2 tail2 :
  spaces ws1 -> spaces ws2 ->
  isValidPythonIdentifier tok1 = true -> isValidPythonIdentifier tok2 = true ->
  spaces sp1 -> spaces sp2 ->
  stops is_space tail1 -> stops is_space tail2 ->
  stops ident_char (sp1 ++ tail1) -> stops ident_char (sp2 ++ tail2) ->
  ws1 ++ tok1 ++ sp1 ++ tail1 = ws2 ++ tok2 ++ sp2 ++ tail2 ->
  tok1 = tok2 /\ sp1 = sp2 /\ tail1 = tail2.
Proof.
  intros Hw1 Hw2 Ht1 Ht2 Hs1 Hs2 St1 St2 Si1 Si2 E.
  destruct (run_unique is_space ws1 ws2 _ _ Hw1 Hw2
              (stops_identifier tok1 _ Ht1) (stops_identifier tok2 _ Ht2) E)
    as [_ E1].
  destruct (run_unique ident_char tok1 tok2 _ _
              (proj1 (identifier_chars _ Ht1)) (proj1 (identifier_chars _ Ht2))
              Si1 Si2 E1) as [-> E2].
  destruct (run_unique is_space sp1 sp2 _ _ Hs1 Hs2 St1 St2 E2) as [-> ->].
  auto.
Qed.

Lemma declaration_line_head line name :
  declaration_line line name ->
  exists ws tok sp tail,
    line = ws ++ tok ++ sp ++ tail
    /\ spaces ws /\ isValidPythonIdentifier tok = true /\ spaces sp
    /\ stops is_space tail /\ stops ident_char (sp ++ tail)
    /\ ((tok = js "async"
         /\ exists ws2 ws3 rest,
              tail = "def" ++ ws2 ++ name ++ ws3 ++ "(" ++ rest
              /\ spaces ws2 /\ isValidPythonIdentifier name = true
              /\ spaces ws3)
        \/ (tok = js "def"
            /\ exists ws2 rest,
                 tail = name ++ ws2 ++ "(" ++ rest
                 /\ isValidPythonIdentifier name = true /\ spaces ws2)
        \/ (tok = js "class"
            /\ exists ws2 opener rest,
                 tail = name ++ ws2 ++ opener :: rest
                 /\ isValidPythonIdentifier name = true /\ spaces ws2
                 /\ (opener = "("%char \/ opener = ":"%char))
        \/ (tok = name
            /\ exists a t, tail = a :: t /\ (a = ":"%char \/ a = "="%char))).
Proof.
  assert (Hsp : forall a, is_space a = true -> ident_char a = false)
    by exact space_not_ident.
  intros H.
  destruct H as [ws ws1 ws2 name ws3 rest Hws Hws1 Hne1 Hws2 Hne2 Hname Hws3
                |ws ws1 name ws2 rest Hws Hws1 Hne1 Hname Hws2
                |ws ws1 name ws2 opener rest Hws Hws1 Hne1 Hname Hws2 Ho
                |ws name ws1 rest Hws Hname Hws1
                |ws name ws1 ann rest Hws Hname Hws1 Hne Hann
                |ws name ws1 ann Hws Hname Hws1 Hne Hann].
  - exists ws, (js "async"), ws1,
      ("def" ++ ws2 ++ name ++ ws3 ++ "(" ++ rest).
    repeat split; auto.
    + destruct ws1 as [|a w]; [congruence|]. simpl.
      unfold spaces in Hws1. simpl in Hws1.
      apply andb_true_iff in Hws1 as [Ha _]. apply Hsp, Ha.
    + left. split; [reflexivity|]. exists ws2, ws3, rest. auto.
  - exists ws, (js "def"), ws1, (name ++ ws2 ++ "(" ++ rest).
    repeat split; auto.
    + apply stops_identifier, Hname.
    + destruct ws1 as [|a w]; [congruence|]. simpl.
      unfold spaces in Hws1. simpl in Hws1.
      apply andb_true_iff in Hws1 as [Ha _]. apply Hsp, Ha.
    + right. left. split; [reflexivity|]. exists ws2, rest. auto.
  - exists ws, (js "class"), ws1, (name ++ ws2 ++ opener :: rest).
    repeat split; auto.
    + apply stops_identifier, Hname.
    + destruct ws1 as [|a w]; [congruence|]. simpl.
      unfold spaces in Hws1. simpl in Hws1.
      apply andb_true_iff in Hws1 as [Ha _]. apply Hsp, Ha.
    + right. right. left. split; [reflexivity|]. exists ws2, opener, rest. auto.
  - exists ws, name, ws1, ("=" ++ rest).
    repeat split; auto.
    + apply stops_after_spaces; [exact Hsp | exact Hws1 | reflexivity].
    + right. right. right. split; [reflexivity|]. eexists _, _. split; [reflexivity | auto].
  - exists ws, name, ws1, (":" ++ ann ++ "=" ++ rest).
    repeat split; auto.
    + apply stops_after_spaces; [exact Hsp | exact Hws1 | reflexivity].
    + right. right. right. split; [reflexivity|]. eexists _, _. split; [reflexivity | auto].
  - exists ws, name, ws1, (":" ++ ann).
    repeat split; auto.
    + apply stops_after_spaces; [exact Hsp | exact Hws1 | reflexivity].
    + right. right. right. split; [reflexivity|]. eexists _, _. split; [reflexivity | auto].
Qed.

Lemma identifier_run_unique n1 n2 x1 x2 :
  isValidPythonIdentifier n1 = true -> isValidPythonIdentifier n2 = true ->
  stops ident_char x1 -> stops ident_char x2 ->
  n1 ++ x1 = n2 ++ x2 -> n1 = n2.
Proof.
  intros H1 H2 S1 S2 E.
  apply (run_unique ident_char n1 n2 x1 x2
           (proj1 (identifier_chars _ H1)) (proj1 (identifier_chars _ H2))
           S1 S2 E).
Qed.

Lemma identifier_not_punctuation n x a t :
  isValidPythonIdentifier n = true ->
  n ++ x = a :: t -> a = ":"%char \/ a = "="%char -> False.
Proof.
  intros H E Ha. apply identifier_chars in H as [_ (b & w & -> & Hb)].
  injection E as -> _. destruct Ha as [-> | ->]; discriminate.
Qed.

Lemma stops_before_opener (ws rest : jsstring) opener :
  spaces ws -> opener = "("%char \/ opener = ":"%char ->
  stops ident_char (ws ++ opener :: rest).
Proof.
  intros Hws Ho. apply stops_after_spaces; [exact space_not_ident | exact Hws|].
  destruct Ho as [-> | ->]; reflexivity.
Qed.

Lemma declaration_line_unique line n1 n2 :
  declaration_line line n1 -> declaration_line line n2 -> n1 = n2.
Proof.
  intros H1 H2.
  apply declaration_line_head in H1
    as (ws1 & tok1 & sp1 & tail1 & E1 & Hw1 & Ht1 & Hs1 & St1 & Si1 & K1).
  apply declaration_line_head in H2
    as (ws2 & tok2 & sp2 & tail2 & E2 & Hw2 & Ht2 & Hs2 & St2 & Si2 & K2).
  rewrite E1 in E2.
  destruct (line_head_unique _ _ _ _ _ _ _ _
              Hw1 Hw2 Ht1 Ht2 Hs1 Hs2 St1 St2 Si1 Si2 E2) as (<- & <- & <-).
  clear E1 E2 Hw1 Hw2 Hs1 Hs2 St1 St2 Si1 Si2.
  destruct K1 as [[T1 (a2 & a3 & ar & Ea & Ha2 & Hn1 & Ha3)]
                 |[[T1 (a2 & ar & Ea & Hn1 & Ha2)]
                  |[[T1 (a2 & ao & ar & Ea & Hn1 & Ha2 & Hao)]
                   |[T1 (aa & at' & Ea & Haa)]]]];
  destruct K2 as [[T2 (b2 & b3 & br & Eb & Hb2 & Hn2 & Hb3)]
                 |[[T2 (b2 & br & Eb & Hn2 & Hb2)]
                  |[[T2 (b2 & bo & br & Eb & Hn2 & Hb2 & Hbo)]
                   |[T2 (ba & bt & Eb & Hba)]]]];
    try (rewrite T1 in T2; discriminate T2);
    try congruence.
  - (* async, async *)
    rewrite Ea in Eb. apply app_inv_head in Eb.
    destruct (run_unique is_space a2 b2 _ _ Ha2 Hb2
                (stops_identifier n1 _ Hn1) (stops_identifier n2 _ Hn2) Eb)
      as [_ Eb'].
    apply (identifier_run_unique n1 n2 _ _ Hn1 Hn2) in Eb'; [exact Eb'| |];
      apply (stops_before_opener _ _ "("); auto.
  - (* async, plain name *)
    rewrite Ea in Eb. injection Eb as <- _. destruct Hba; discriminate.
  - (* def, def *)
    rewrite Ea in Eb.
    apply (identifier_run_unique n1 n2 _ _ Hn1 Hn2) in Eb; [exact Eb| |];
      apply (stops_before_opener _ _ "("); auto.
  - (* def, plain name *)
    rewrite Ea in Eb. exfalso.
    apply (identifier_not_punctuation _ _ _ _ Hn1 Eb Hba).
  - (* class, class *)
    rewrite Ea in Eb.
    apply (identifier_run_unique n1 n2 _ _ Hn1 Hn2) in Eb; [exact Eb| |];
      apply stops_before_opener; auto.
  - (* class, plain name *)
    rewrite Ea in Eb. exfalso.
    apply (identifier_not_punctuation _ _ _ _ Hn1 Eb Hba).
  - (* plain name, async *)
    rewrite Eb in Ea. injection Ea as <- _. destruct Haa; discriminate.
  - (* plain name, def *)
    rewrite Eb in Ea. exfalso.
    apply (identifier_not_punctuation _ _ _ _ Hn2 Ea Haa).
  - (* plain name, class *)
    rewrite Eb in Ea. exfalso.
    apply (identifier_not_punctuation _ _ _ _ Hn2 Ea Haa).
Qed.

(** ** [extractSymbolNameFromLine], declaratively *)

Lemma patterns_anchored p :
  In p patterns -> exists r, p = Seq Bol r.
Proof.
  unfold patterns. simpl.
  intros [<-|[<-|[<-|[<-|[<-|[]]]]]]; eexists; reflexivity.
Qed.

Lemma exec_pattern_matches p line c :
  In p patterns -> exec p line = Some c ->
  exists b' s', matches p true line [] b' s' c.
Proof.
  intros Hin H. destruct (patterns_anchored p Hin) as (r & ->).
  rewrite exec_anchored in H.
  destruct (match_here (Seq Bol r) true line) as [[s' c']|] eqn:E; [|discriminate].
  injection H as ->. unfold match_here in E.
  apply rmatch_matches in E as (b1 & s1 & c1 & Hm & [= <- <-]).
  eauto.
Qed.

Lemma matches_exec_pattern p line b' s' c' :
  In p patterns -> matches p true line [] b' s' c' -> exec p line <> None.
Proof.
  intros Hin Hm. destruct (patterns_anchored p Hin) as (r & ->).
  rewrite exec_anchored. unfold match_here.
  assert (H := proj1 (matches_rmatch _ _ _ _ _ _ _ Hm
                        (fun _ s c => Some (s, c)) ltac:(discriminate))).
  destruct (rmatch (Seq Bol r) true line [] _); [discriminate | congruence].
Qed.

Lemma first_match_some ps line name :
  first_match ps line = Some name ->
  exists p c, In p ps /\ exec p line = Some c /\ capture 1 c = Some name.
Proof.
  induction ps as [|p ps IH]; simpl; [discriminate|].
  destruct (exec p line) as [c|] eqn:E.
  - intros H. exists p, c. auto.
  - intros H. destruct (IH H) as (q & c & Hq & Hc). exists q, c. auto.
Qed.

Lemma extract_declares line name :
  extractSymbolNameFromLine line = Some name -> declaration_line line name.
Proof.
  unfold extractSymbolNameFromLine.
  rewrite (first_capture_first_match patterns line (fun p H => H)).
  intros H. apply first_match_some in H as (p & c & Hin & He & Hc).
  apply (exec_pattern_matches p line c Hin) in He as (b' & s' & Hm).
  apply (patterns_sound p line b' s' c Hin) in Hm as (n & Hn & Hd).
  congruence.
Qed.

Lemma extract_iff_declaration (line name : jsstring) :
  extractSymbolNameFromLine line = Some name <-> declaration_line line name.
Proof.
  split; [apply extract_declares|].
  intros Hd.
  destruct (declaration_line_matched line name Hd)
    as (p & Hin & b' & s' & c' & Hm).
  assert (He := matches_exec_pattern p line b' s' c' Hin Hm).
  destruct (extractSymbolNameFromLine line) as [n|] eqn:E.
  - f_equal. apply (declaration_line_unique line n name); [|exact Hd].
    apply extract_declares, E.
  - exfalso. unfold extractSymbolNameFromLine in E.
    rewrite (first_capture_first_match patterns line (fun p H => H)) in E.
    apply (first_match_none patterns line (fun p H => H)) in E.
    rewrite Forall_forall in E. apply He, E, Hin.
Qed.

(** X10. [extractSymbolNameFromLine] returns [name] exactly for the lines
    that declare it in one of these shapes, where [name] is an identifier
    and [ws] stands for optional whitespace: [ws async ws+ def ws+ name ws
    (...], [ws def ws+ name ws (...], [ws class ws+ name ws (...] or
    [... :...], [ws name ws =...], [ws name ws : annotation =...] and
    [ws name ws : annotation] with a non-empty annotation without [=]; it
    returns nothing exactly for the lines of none of these shapes. *)
Theorem extractSymbolNameFromLine_declaration (line name : jsstring) :
  (extractSymbolNameFromLine line = Some name <-> declaration_line line name)
  /\ (extractSymbolNameFromLine line = None <->
      forall n, ~ declaration_line line n).
Proof.
  split; [apply extract_iff_declaration|].
  split.
  - intros H n Hd. apply extract_iff_declaration in Hd. congruence.
  - intros H. destruct (extractSymbolNameFromLine line) as [n|] eqn:E;
      [|reflexivity].
    exfalso. apply (H n), extract_iff_declaration, E.
Qed.

(** X11. The name [extractSymbolNameFromLine] returns is always a valid
    Python identifier, and a line that is empty or only whitespace yields
    nothing. *)
Theorem extractSymbolNameFromLine_identifier (line name : jsstring) :
  (extractSymbolNameFromLine line = Some name ->
   isValidPythonIdentifier name = true)
  /\ (spaces line -> extractSymbolNameFromLine line = None).
Proof.
  split.
  - intros H. apply extract_declares in H.
    destruct H; assumption.
  - intros Hs. destruct (extractSymbolNameFromLine line) as [n|] eqn:E;
      [|reflexivity].
    exfalso. apply extract_declares in E.
    apply declaration_line_head in E
      as (ws & tok & sp & tail & -> & _ & Ht & _).
    unfold spaces in Hs. rewrite !forallb_app in Hs.
    apply andb_true_iff in Hs as [_ Hs]. apply andb_true_iff in Hs as [Hs _].
    apply identifier_chars in Ht as [_ (a & w & -> & Ha)].
    simpl in Hs. apply andb_true_iff in Hs as [Hs _].
    apply ident_start_char, ident_char_not_space in Ha. congruence.
Qed.

Lemma extractSymbolNameFromLine_identifier_witness :
  isValidPythonIdentifier (js "get_current_user") = true
  /\ extractSymbolNameFromLine (js "   ") = None.
Proof.
  destruct (extractSymbolNameFromLine_identifier
              (js "async def get_current_user(request):")
              (js "get_current_user")) as [H _].
  destruct (extractSymbolNameFromLine_identifier (js "   ") []) as [_ H'].
  split; [apply H; reflexivity | apply H'; reflexivity].
Defined.

(** X12. Indentation and what follows the opening parenthesis do not
    matter: a function declaration line, however it is indented and
    continued, yields the declared name, with or without [async]. *)
Theorem extractSymbolNameFromLine_function
    (indent gap1 gap2 name gap3 rest : jsstring) (is_async : bool) :
  spaces indent -> spaces gap1 -> gap1 <> [] -> spaces gap2 -> gap2 <> [] ->
  spaces gap3 -> isValidPythonIdentifier name = true ->
  extractSymbolNameFromLine
    (indent ++ (if is_async then "async" ++ gap1 else [])
       ++ "def" ++ gap2 ++ name ++ gap3 ++ "(" ++ rest)
  = Some name.
Proof.
  intros Hi H1 N1 H2 N2 H3 Hn.
  apply extract_iff_declaration.
  destruct is_async.
  - rewrite <- !app_assoc.
    exact (async_function_declaration indent gap1 gap2 name gap3 rest
             Hi H1 N1 H2 N2 Hn H3).
  - exact (function_declaration indent gap2 name gap3 rest Hi H2 N2 Hn H3).
Qed.

Lemma extractSymbolNameFromLine_function_witness :
  extractSymbolNameFromLine
    (js "    " ++ ("async" ++ js " ") ++ "def" ++ js "  " ++ js "fetch_all"
       ++ js " " ++ "(" ++ js "self, *args) -> None:")
  = Some (js "fetch_all").
Proof.
  apply (extractSymbolNameFromLine_function (js "    ") (js " ") (js "  ")
           (js "fetch_all") (js " ") (js "self, *args) -> None:") true);
    try reflexivity; discriminate.
Defined.

(** * Properties of [src/extension.ts] *)

(** ** [pathBasename] *)

(** [/[\\/]+$/] at the current position. *)
Lemma match_here_trailing b s :
  match_here re_trailing_separators b s
  = match s with
    | a :: s' =>
        if is_sep a && forallb is_sep s' then Some ([], []) else None
    | [] => None
    end.
Proof.
  unfold match_here, re_trailing_separators, Plus.
  rewrite !rmatch_seq. destruct s as [|a s']; [reflexivity|].
  rewrite rmatch_chr_cons. destruct (is_sep a); [|reflexivity]. cbn [andb].
  rewrite star_chr_to_end by reflexivity.
  destruct (forallb is_sep s'); reflexivity.
Qed.

Lemma replace_trailing_separators (s : jsstring) :
  replace_first_empty re_trailing_separators s = drop_while_end is_sep s.
Proof.
  unfold replace_first_empty. generalize true.
  induction s as [|a s IH]; intros b.
  - cbn [replace_first_from]. rewrite match_here_trailing. reflexivity.
  - cbn [replace_first_from]. rewrite match_here_trailing, drop_while_end_cons.
    cbn [forallb]. destruct (is_sep a && forallb is_sep s); [reflexivity|].
    rewrite IH. reflexivity.
Qed.

Lemma split_separators (s : jsstring) :
  filter truthy (split re_separators s)
  = filter truthy (Path.split_on is_sep s).
Proof.
  unfold split. destruct s as [|a s].
  - rewrite match_here_separators. reflexivity.
  - apply (split_loop_pieces _ true [] (a :: s)); [lia | reflexivity].
Qed.

(** [pathBasename]: the last non-empty piece between separators. *)
Lemma pathBasename_eq (path : jsstring) :
  pathBasename path
  = last (filter truthy (Path.split_on is_sep (drop_while_end is_sep path))) [].
Proof.
  unfold pathBasename. cbv zeta.
  rewrite replace_trailing_separators, split_separators. reflexivity.
Qed.

Lemma split_on_nonempty p (s : jsstring) : Path.split_on p s <> [].
Proof.
  destruct s as [|a s]; simpl; [discriminate|].
  destruct (p a); [discriminate|].
  destruct (Path.split_on p s); discriminate.
Qed.

Lemma split_on_app p (x : jsstring) c (y : jsstring) :
  p c = true ->
  Path.split_on p (x ++ c :: y) = Path.split_on p x ++ Path.split_on p y.
Proof.
  intros Hc. induction x as [|a x IH]; simpl.
  - rewrite Hc. reflexivity.
  - rewrite IH. destruct (p a); [reflexivity|].
    destruct (Path.split_on p x) as [|w ws] eqn:E; [|reflexivity].
    exfalso. apply (split_on_nonempty p x E).
Qed.

Lemma last_filter_clean (l : list jsstring) (name : jsstring) :
  name <> [] -> last (filter truthy (l ++ [name])) [] = name.
Proof.
  intros Hn. rewrite filter_app. simpl.
  rewrite (proj2 (truthy_true name) Hn). apply last_last.
Qed.

Lemma clean_last (name : jsstring) :
  clean name -> exists r z, name = r ++ [z] /\ is_sep z = false.
Proof.
  intros [Hne Hns]. destruct (exists_last Hne) as (r & z & ->).
  exists r, z. split; [reflexivity|].
  unfold no_sep in Hns. rewrite forallb_app in Hns.
  apply andb_true_iff in Hns as [_ Hz]. simpl in Hz.
  destruct (is_sep z); [discriminate | reflexivity].
Qed.

(** X13. [pathBasename] returns the last component of a path in either
    separator style: after any directory part and a separator, a
    component without separators is returned as it is, trailing
    separators are ignored, and the result never contains a separator. *)
Theorem pathBasename_last_component (dir name seps : jsstring) (sep : ascii) :
  name <> [] -> no_sep name -> is_sep sep = true ->
  forallb is_sep seps = true ->
  pathBasename (dir ++ sep :: name ++ seps) = name
  /\ pathBasename (name ++ seps) = name
  /\ no_sep (pathBasename dir).
Proof.
  intros Hne Hns Hsep Hseps.
  destruct (clean_last name (conj Hne Hns)) as (r & z & Ez & Hz).
  assert (Hfree : Path.split_on is_sep name = [name])
    by (apply split_on_prefix_free, Hns).
  split; [|split].
  - rewrite pathBasename_eq.
    replace (dir ++ sep :: name ++ seps) with ((dir ++ sep :: name) ++ seps)
      by (rewrite <- app_assoc; reflexivity).
    rewrite drop_while_end_app_all by exact Hseps.
    replace (dir ++ sep :: name) with ((dir ++ sep :: r) ++ [z])
      by (rewrite Ez, <- app_assoc; reflexivity).
    rewrite drop_while_end_last_false by exact Hz.
    replace ((dir ++ sep :: r) ++ [z]) with (dir ++ sep :: name)
      by (rewrite Ez, <- app_assoc; reflexivity).
    rewrite split_on_app by exact Hsep. rewrite Hfree.
    apply last_filter_clean, Hne.
  - rewrite pathBasename_eq.
    rewrite drop_while_end_app_all by exact Hseps.
    rewrite Ez at 1. rewrite drop_while_end_last_false by exact Hz.
    rewrite <- Ez, Hfree. simpl.
    rewrite (proj2 (truthy_true name) Hne). reflexivity.
  - rewrite pathBasename_eq.
    assert (H : Forall no_sep
                  (filter truthy
                     (Path.split_on is_sep (drop_while_end is_sep dir)))).
    { apply Forall_forall. intros x Hx. apply filter_In in Hx as [Hx _].
      assert (H := split_on_pieces is_sep (drop_while_end is_sep dir)).
      rewrite Forall_forall in H. apply H, Hx. }
    induction (filter truthy (Path.split_on is_sep (drop_while_end is_sep dir)))
      as [|x l IH]; [reflexivity|].
    inversion H as [|? ? Hx Hl]; subst.
    destruct l as [|y l]; [exact Hx | apply IH, Hl].
Qed.

Lemma pathBasename_last_component_witness :
  pathBasename (js "C:\Users\me" ++ "/"%char :: js "my-project" ++ js "\/")
  = js "my-project".
Proof.
  apply (pathBasename_last_component (js "C:\Users\me") (js "my-project")
           (js "\/") "/"%char); try reflexivity; discriminate.
Defined.

Lemma sep_is_slash a :
  negb (ascii_eqb a backslash) = true -> is_sep a = is_slash a.
Proof.
  unfold is_sep, is_slash. intros H. apply negb_true_iff in H. rewrite H.
  apply orb_false_r.
Qed.

Lemma drop_while_ext p q (s : jsstring) :
  forallb (fun a => Bool.eqb (p a) (q a)) s = true ->
  drop_while p s = drop_while q s.
Proof.
  induction s as [|a s IH]; simpl; [reflexivity|].
  intros H. apply andb_true_iff in H as [Ha Hs].
  apply Bool.eqb_prop in Ha. rewrite Ha, (IH Hs). reflexivity.
Qed.

Lemma no_backslash_agree (s : jsstring) :
  no_backslash s ->
  forallb (fun a => Bool.eqb (is_slash a) (is_sep a)) s = true.
Proof.
  unfold no_backslash. induction s as [|a s IH]; simpl; [reflexivity|].
  intros H. apply andb_true_iff in H as [Ha Hs].
  rewrite (sep_is_slash a Ha), (IH Hs). destruct (is_slash a); reflexivity.
Qed.

(** X14. On a path without backslashes [pathBasename] agrees with Node's
    [path.basename]: the folder name the extension offers as the
    workspace package name is the base name of the folder path. *)
Theorem pathBasename_is_basename (path : jsstring) :
  no_backslash path -> pathBasename path = Path.basename path.
Proof.
  intros Hp. rewrite pathBasename_eq, basename_spec.
  assert (Hrev : no_backslash (rev path))
    by (unfold no_backslash; rewrite forallb_rev; exact Hp).
  rewrite (drop_while_ext is_slash is_sep (rev path) (no_backslash_agree _ Hrev)).
  unfold drop_while_end.
  assert (Hr : no_backslash (drop_while is_sep (rev path)))
    by (apply forallb_drop_while, Hrev).
  assert (Hhead : stops is_sep (drop_while is_sep (rev path))).
  { destruct (drop_while is_sep (rev path)) as [|z r'] eqn:E; [exact I|].
    simpl. apply (drop_while_head _ _ _ _ E). }
  set (r := drop_while is_sep (rev path)) in *.
  assert (Ht : no_sep (rev (take_while not_slash r))).
  { unfold no_sep. rewrite forallb_rev.
    clear Hhead. induction r as [|a r IH]; [reflexivity|].
    unfold no_backslash in Hr. simpl in Hr.
    apply andb_true_iff in Hr as [Ha Hr]. simpl.
    destruct (not_slash a) eqn:Ea; [|reflexivity].
    simpl. rewrite (sep_is_slash a Ha). unfold not_slash in Ea.
    rewrite Ea. simpl. apply IH, Hr. }
  rewrite <- (take_drop_while not_slash r) at 1.
  rewrite rev_app_distr.
  destruct (drop_while not_slash r) as [|c d] eqn:Ed.
  - simpl rev at 1. cbn [app].
    rewrite split_on_prefix_free by exact Ht. simpl.
    destruct (rev (take_while not_slash r)); reflexivity.
  - assert (Hc : is_sep c = true).
    { assert (H := drop_while_head _ _ _ _ Ed). unfold not_slash in H.
      apply negb_false_iff in H. unfold is_sep. unfold is_slash in H.
      rewrite H. reflexivity. }
    simpl rev at 1. rewrite <- app_assoc. cbn [app].
    rewrite split_on_app by exact Hc.
    rewrite (split_on_prefix_free is_sep _ Ht).
    apply last_filter_clean.
    destruct r as [|z r']; [discriminate|]. simpl in Hhead.
    simpl. unfold not_slash. rewrite (is_sep_false_slash z Hhead). simpl.
    intros E. apply (f_equal (@length ascii)) in E.
    rewrite length_app in E. simpl in E. lia.
Qed.

Lemma pathBasename_is_basename_witness :
  pathBasename (js "/home/user/my_project/")
  = Path.basename (js "/home/user/my_project/").
Proof.
  apply (pathBasename_is_basename (js "/home/user/my_project/")). reflexivity.
Defined.

(** ** [findMostSpecificDocumentSymbol] *)

Section MostSpecific.
Variable contains : Range -> Position -> bool.
Variable position : Position.

Lemma symbol_candidate_eq name range children :
  symbol_candidate contains position (mk_document_symbol name range children)
  = if negb (contains range position) then None
    else Some (match findMostSpecificDocumentSymbol contains position children with
               | Some c => c
               | None => mk_document_symbol name range children
               end).
Proof.
  simpl. destruct (negb (contains range position)); reflexivity.
Qed.

Lemma innermost_contains s d :
  innermost contains position s d -> contains (ds_range s) position = true.
Proof. intros H. destruct H; assumption. Qed.

Lemma innermost_result s d :
  innermost contains position s d ->
  contains (ds_range d) position = true
  /\ forall c, In c (ds_children d) -> contains (ds_range c) position = false.
Proof. induction 1; [split|]; assumption. Qed.

Lemma keep_smaller_some c best : exists d, keep_smaller c best = Some d.
Proof.
  unfold keep_smaller. destruct best as [b|]; [|eauto].
  destruct (rangeSize (ds_range c) <? rangeSize (ds_range b))%Z; eauto.
Qed.

Lemma loop_none symbols :
  Forall (candidate_ok contains position) symbols ->
  forall best,
    most_specific_loop contains position symbols best = None
    <-> best = None
        /\ forall s, In s symbols -> contains (ds_range s) position = false.
Proof.
  induction 1 as [|s rest [Hs _] _ IH]; intros best; simpl.
  - split; [intros ->; split; [reflexivity|intros ? []]|intros [-> _]; reflexivity].
  - destruct (symbol_candidate contains position s) as [c|] eqn:Ec.
    + split.
      * intros H. apply IH in H as [H _].
        destruct (keep_smaller_some c best) as [d Hd]. congruence.
      * intros [_ H]. specialize (H s (or_introl eq_refl)).
        apply Hs in H. discriminate.
    + rewrite IH. split; intros [Hb H]; (split; [exact Hb|]).
      * intros x [<-|Hx]; [apply Hs; reflexivity|apply H, Hx].
      * intros x Hx. apply H. right. exact Hx.
Qed.

Lemma loop_some symbols :
  Forall (candidate_ok contains position) symbols ->
  forall best d,
    most_specific_loop contains position symbols best = Some d ->
    (best = Some d \/ exists s, In s symbols /\ innermost contains position s d)
    /\ (forall b, best = Some b -> (ds_size d <= ds_size b)%Z)
    /\ (forall s d', In s symbols -> innermost contains position s d' ->
                      (ds_size d <= ds_size d')%Z).
Proof.
  induction 1 as [|s rest [Hn Hs] _ IH]; intros best d; simpl.
  - intros ->. split; [left; reflexivity|]. split.
    + intros b [= ->]. lia.
    + intros ? ? [].
  - destruct (symbol_candidate contains position s) as [c|] eqn:Ec.
    + intros H. apply IH in H as (Hfrom & Hbest & Hrest).
      destruct (Hs c eq_refl) as [Hc Hmin].
      assert (Hk : (forall b, best = Some b -> (ds_size d <= ds_size b)%Z)
                   /\ (ds_size d <= ds_size c)%Z
                   /\ (keep_smaller c best = Some d ->
                       best = Some d \/ d = c)).
      { unfold keep_smaller in *. fold (ds_size c) in *.
        destruct best as [b|].
        - fold (ds_size b) in *. destruct (ds_size c <? ds_size b)%Z eqn:E.
          + apply Z.ltb_lt in E. specialize (Hbest c eq_refl).
            split; [intros ? [= <-]; lia|]. split; [lia|].
            intros [= ->]. right. reflexivity.
          + apply Z.ltb_ge in E. specialize (Hbest b eq_refl).
            split; [intros ? [= <-]; lia|]. split; [lia|].
            intros H. left. exact H.
        - specialize (Hbest c eq_refl).
          split; [discriminate|]. split; [lia|].
          intros [= ->]. right. reflexivity. }
      destruct Hk as (Hk1 & Hk2 & Hk3). split; [|split].
      * destruct Hfrom as [Hfrom|(x & Hx & Hd)].
        -- destruct (Hk3 Hfrom) as [Hb| ->]; [left; exact Hb|].
           right. exists s. split; [left; reflexivity|exact Hc].
        -- right. exists x. split; [right; exact Hx|exact Hd].
      * exact Hk1.
      * intros x d' [<-|Hx] Hd'.
        -- specialize (Hmin d' Hd'). lia.
        -- apply (Hrest x d' Hx Hd').
    + intros H. apply IH in H as (Hfrom & Hbest & Hrest). split; [|split].
      * destruct Hfrom as [Hfrom|(x & Hx & Hd)]; [left; exact Hfrom|].
        right. exists x. split; [right; exact Hx|exact Hd].
      * exact Hbest.
      * intros x d' [<-|Hx] Hd'; [|apply (Hrest x d' Hx Hd')].
        exfalso. apply innermost_contains in Hd'.
        rewrite (proj1 Hn eq_refl) in Hd'. discriminate.
Qed.

Lemma candidate_ok_all symbol : candidate_ok contains position symbol.
Proof.
  induction symbol as [name range children IH]
    using DocumentSymbol_nested_ind.
  unfold candidate_ok. rewrite symbol_candidate_eq. cbn [ds_range].
  destruct (contains range position) eqn:Ec; cbn [negb].
  - split; [split; discriminate|].
    intros d [= <-]. unfold findMostSpecificDocumentSymbol.
    destruct (most_specific_loop contains position children None) as [c|] eqn:El.
    + apply (loop_some _ IH) in El as (Hfrom & _ & Hmin).
      destruct Hfrom as [Hfrom|(x & Hx & Hd)]; [discriminate|]. split.
      * apply (innermost_below _ _ _ x); assumption.
      * intros d' Hd'. inversion Hd' as [? _ Hnone|? x' ? _ Hx' Hi]; subst.
        -- exfalso. apply innermost_contains in Hd.
           rewrite (Hnone x Hx) in Hd. discriminate.
        -- apply (Hmin x' d' Hx' Hi).
    + apply (loop_none _ IH) in El as [_ Hnone]. split.
      * apply innermost_here; assumption.
      * intros d' Hd'. inversion Hd' as [|? x' ? _ Hx' Hi]; subst; [lia|].
        exfalso. apply innermost_contains in Hi.
        rewrite (Hnone x' Hx') in Hi. discriminate.
  - split; [split; reflexivity|discriminate].
Qed.

Lemma candidates_ok symbols : Forall (candidate_ok contains position) symbols.
Proof. apply Forall_forall. intros s _. apply candidate_ok_all. Qed.

End MostSpecific.

(** X15. The symbol [findMostSpecificDocumentSymbol] returns is an
    innermost one: it is reached from a listed symbol through ranges that
    all contain the position, its own range contains the position, none of
    its children's does, and no innermost symbol has a smaller range
    size. *)
Theorem findMostSpecificDocumentSymbol_innermost
    (contains : Range -> Position -> bool) (position : Position)
    (symbols : list DocumentSymbol) (d : DocumentSymbol) :
  findMostSpecificDocumentSymbol contains position symbols = Some d ->
  (exists s, In s symbols /\ innermost contains position s d)
  /\ contains (ds_range d) position = true
  /\ (forall c, In c (ds_children d) ->
                contains (ds_range c) position = false)
  /\ forall s d', In s symbols -> innermost contains position s d' ->
                  (rangeSize (ds_range d) <= rangeSize (ds_range d'))%Z.
Proof.
  unfold findMostSpecificDocumentSymbol. intros H.
  apply (loop_some _ _ _ (candidates_ok contains position symbols)) in H
    as (Hfrom & _ & Hmin).
  destruct Hfrom as [Hfrom|(s & Hs & Hd)]; [discriminate|].
  destruct (innermost_result _ _ _ _ Hd) as [Hc Hn].
  split; [exists s; split; assumption|]. split; [exact Hc|].
  split; [exact Hn|]. exact Hmin.
Qed.

Lemma findMostSpecificDocumentSymbol_innermost_witness :
  (exists s,
      In s [mk_document_symbol (js "Job") (lines 0 10)
              [mk_document_symbol (js "run") (lines 2 4) []]]
      /\ innermost position_within (mk_position 3 7) s
           (mk_document_symbol (js "run") (lines 2 4) []))
  /\ position_within (lines 2 4) (mk_position 3 7) = true.
Proof.
  destruct (findMostSpecificDocumentSymbol_innermost
              position_within (mk_position 3 7)
              [mk_document_symbol (js "Job") (lines 0 10)
                 [mk_document_symbol (js "run") (lines 2 4) []]]
              (mk_document_symbol (js "run") (lines 2 4) []) eq_refl)
    as (Hfrom & Hc & _).
  split; [exact Hfrom|exact Hc].
Defined.

Lemma findMostSpecificDocumentSymbol_none_iff
    (contains : Range -> Position -> bool) (position : Position)
    (symbols : list DocumentSymbol) :
  findMostSpecificDocumentSymbol contains position symbols = None
  <-> forall s, In s symbols -> contains (ds_range s) position = false.
Proof.
  unfold findMostSpecificDocumentSymbol.
  rewrite (loop_none _ _ _ (candidates_ok contains position symbols)).
  split; [intros [_ H]; exact H|intros H; split; [reflexivity|exact H]].
Qed.

(** X16. [findMostSpecificDocumentSymbol] finds a symbol exactly when
    the range of some listed symbol contains the position, and nothing
    exactly when none does; symbols below the listed ones are not looked
    at then. *)
Theorem findMostSpecificDocumentSymbol_finds
    (contains : Range -> Position -> bool) (position : Position)
    (symbols : list DocumentSymbol) :
  ((exists d, findMostSpecificDocumentSymbol contains position symbols = Some d)
   <-> exists s, In s symbols /\ contains (ds_range s) position = true)
  /\ (findMostSpecificDocumentSymbol contains position symbols = None
      <-> forall s, In s symbols -> contains (ds_range s) position = false).
Proof.
  assert (Hnone := findMostSpecificDocumentSymbol_none_iff
                     contains position symbols).
  split; [|exact Hnone]. split.
  - intros (d & Hd).
    unfold findMostSpecificDocumentSymbol in Hd.
    apply (loop_some _ _ _ (candidates_ok contains position symbols)) in Hd
      as (Hfrom & _).
    destruct Hfrom as [Hfrom|(s & Hs & Hi)]; [discriminate|].
    exists s. split; [exact Hs|apply (innermost_contains _ _ _ _ Hi)].
  - intros (s & Hs & Hc).
    destruct (findMostSpecificDocumentSymbol contains position symbols)
      as [d|]; [exists d; reflexivity|].
    rewrite (proj1 Hnone eq_refl s Hs) in Hc. discriminate.
Qed.

(** ** [getSymbolNameFromDocumentSymbols] *)

Lemma insert_sorted_head {A : Type} (size : A -> Z) (x : A) (sorted : list A) :
  hd_error (insert_sorted size x sorted)
  = match hd_error sorted with
    | Some y => if (size x <=? size y)%Z then Some x else Some y
    | None => Some x
    end.
Proof.
  destruct sorted as [|y rest]; simpl; [reflexivity|].
  replace (size x - size y <=? 0)%Z with (size x <=? size y)%Z
    by (destruct (Z.leb_spec (size x) (size y)),
                 (Z.leb_spec (size x - size y) 0); (reflexivity || lia)).
  destruct (size x <=? size y)%Z; reflexivity.
Qed.

Lemma sort_by_size_empty {A : Type} (size : A -> Z) (l : list A) :
  hd_error (sort_by_size size l) = None <-> l = [].
Proof.
  destruct l as [|a l]; simpl; [split; reflexivity|].
  rewrite insert_sorted_head. split; [|discriminate].
  destruct (hd_error (sort_by_size size l)) as [y|];
    [destruct (size a <=? size y)%Z|]; discriminate.
Qed.

Lemma sort_by_size_head {A : Type} (size : A -> Z) (l : list A) (x : A) :
  hd_error (sort_by_size size l) = Some x ->
  In x l /\ forall y, In y l -> (size x <= size y)%Z.
Proof.
  revert x. induction l as [|a l IH]; intros x; simpl; [discriminate|].
  rewrite insert_sorted_head.
  destruct (hd_error (sort_by_size size l)) as [y|] eqn:E.
  - destruct (IH y eq_refl) as [Hy Hmin].
    destruct (Z.leb_spec (size a) (size y)); intros [= <-].
    + split; [left; reflexivity|].
      intros z [<-|Hz]; [lia|]. specialize (Hmin z Hz). lia.
    + split; [right; exact Hy|].
      intros z [<-|Hz]; [lia|]. apply Hmin, Hz.
  - intros [= <-]. split; [left; reflexivity|].
    intros z [<-|Hz]; [lia|].
    apply sort_by_size_empty in E. subst l. destruct Hz.
Qed.

Lemma in_only_document_symbols symbols d :
  In d (only_document_symbols symbols) <-> In (IsDocumentSymbol d) symbols.
Proof.
  unfold only_document_symbols. rewrite in_flat_map. split.
  - intros ([x|x] & Hx & H); simpl in H; [|destruct H].
    destruct H as [<-|[]]. exact Hx.
  - intros H. exists (IsDocumentSymbol d). split; [exact H|left; reflexivity].
Qed.

Lemma in_only_symbol_informations symbols i :
  In i (only_symbol_informations symbols) <-> In (IsSymbolInformation i) symbols.
Proof.
  unfold only_symbol_informations. rewrite in_flat_map. split.
  - intros ([x|x] & Hx & H); simpl in H; [destruct H|].
    destruct H as [<-|[]]. exact Hx.
  - intros H. exists (IsSymbolInformation i). split; [exact H|left; reflexivity].
Qed.

Lemma length_positive {A : Type} (l : list A) :
  (0 <? length l) = match l with [] => false | _ => true end.
Proof. destruct l; reflexivity. Qed.

Lemma getSymbolNameFromDocumentSymbols_eq env uri position symbols :
  executeDocumentSymbolProvider env uri = Some symbols ->
  getSymbolNameFromDocumentSymbols env uri position
  = match only_document_symbols symbols with
    | _ :: _ =>
        option_map ds_name
          (findMostSpecificDocumentSymbol (range_contains env) position
             (only_document_symbols symbols))
    | [] =>
        option_map si_name
          (hd_error
             (sort_by_size (fun s => rangeSize (si_location_range s))
                (filter (fun s => range_contains env (si_location_range s)
                                    position)
                   (only_symbol_informations symbols))))
    end.
Proof.
  intros E. unfold getSymbolNameFromDocumentSymbols. rewrite E.
  destruct symbols as [|s symbols]; [reflexivity|].
  cbn [length Nat.eqb]. rewrite !length_positive.
  destruct (only_document_symbols (s :: symbols)); [|reflexivity].
  destruct (only_symbol_informations (s :: symbols)); reflexivity.
Qed.

(** X17. A name [getSymbolNameFromDocumentSymbols] returns is the name of
    an innermost [DocumentSymbol] around the position, or, when the
    provider gave no [DocumentSymbol] at all, the name of a
    [SymbolInformation] whose range contains the position and is of the
    least size among those that do. *)
Theorem getSymbolNameFromDocumentSymbols_found env uri position symbols name :
  executeDocumentSymbolProvider env uri = Some symbols ->
  getSymbolNameFromDocumentSymbols env uri position = Some name ->
  (exists s d,
      In (IsDocumentSymbol s) symbols
      /\ innermost (range_contains env) position s d
      /\ ds_name d = name)
  \/ ((forall d, ~ In (IsDocumentSymbol d) symbols)
      /\ exists i,
          In (IsSymbolInformation i) symbols
          /\ si_name i = name
          /\ range_contains env (si_location_range i) position = true
          /\ forall j,
              In (IsSymbolInformation j) symbols ->
              range_contains env (si_location_range j) position = true ->
              (rangeSize (si_location_range i)
               <= rangeSize (si_location_range j))%Z).
Proof.
  intros E. rewrite (getSymbolNameFromDocumentSymbols_eq _ _ _ _ E).
  destruct (only_document_symbols symbols) as [|d0 ds] eqn:Ed.
  - intros H. right. split.
    + intros d Hd. apply in_only_document_symbols in Hd.
      rewrite Ed in Hd. destruct Hd.
    + destruct (hd_error _) as [i|] eqn:Eh; [|discriminate].
      injection H as <-. apply sort_by_size_head in Eh as [Hi Hmin].
      apply filter_In in Hi as [Hi Hc].
      apply in_only_symbol_informations in Hi.
      exists i. split; [exact Hi|]. split; [reflexivity|].
      split; [exact Hc|]. intros j Hj Hcj. apply Hmin.
      apply filter_In. split; [|exact Hcj].
      apply in_only_symbol_informations, Hj.
  - rewrite <- Ed. intros H. left.
    destruct (findMostSpecificDocumentSymbol _ _ _) as [d|] eqn:Ef;
      [|discriminate].
    injection H as <-.
    unfold findMostSpecificDocumentSymbol in Ef.
    apply (loop_some _ _ _ (candidates_ok _ _ _)) in Ef as (Hfrom & _).
    destruct Hfrom as [Hfrom|(s & Hs & Hd)]; [discriminate|].
    exists s, d. split; [apply in_only_document_symbols, Hs|].
    split; [exact Hd|reflexivity].
Qed.

Lemma getSymbolNameFromDocumentSymbols_found_witness :
  (exists s d,
      In (IsDocumentSymbol s)
        [IsDocumentSymbol
           (mk_document_symbol (js "Cart") (lines 2 9)
              [mk_document_symbol (js "total") (lines 4 6) []])]
      /\ innermost position_within (mk_position 2 6) s d
      /\ ds_name d = js "Cart")
  \/ ((forall d,
          ~ In (IsDocumentSymbol d)
              [IsDocumentSymbol
                 (mk_document_symbol (js "Cart") (lines 2 9)
                    [mk_document_symbol (js "total") (lines 4 6) []])])
      /\ exists i,
          In (IsSymbolInformation i)
            [IsDocumentSymbol
               (mk_document_symbol (js "Cart") (lines 2 9)
                  [mk_document_symbol (js "total") (lines 4 6) []])]
          /\ si_name i = js "Cart"
          /\ position_within (si_location_range i) (mk_position 2 6) = true
          /\ forall j,
              In (IsSymbolInformation j)
                [IsDocumentSymbol
                   (mk_document_symbol (js "Cart") (lines 2 9)
                      [mk_document_symbol (js "total") (lines 4 6) []])] ->
              position_within (si_location_range j) (mk_position 2 6) = true ->
              (rangeSize (si_location_range i)
               <= rangeSize (si_location_range j))%Z).
Proof.
  apply (getSymbolNameFromDocumentSymbols_found
           (shop_session None
              (Some [IsDocumentSymbol
                       (mk_document_symbol (js "Cart") (lines 2 9)
                          [mk_document_symbol (js "total") (lines 4 6) []])])
              [])
           cart_module (mk_position 2 6) _ (js "Cart") eq_refl eq_refl).
Defined.

(** X18. [getSymbolNameFromDocumentSymbols] returns [undefined] exactly
    when the provider gave nothing, or gave [DocumentSymbol]s none of
    which contains the position at the top level, or gave no
    [DocumentSymbol] and no [SymbolInformation] containing the position.
    A containing [SymbolInformation] is not used when a [DocumentSymbol]
    is present. *)
Theorem getSymbolNameFromDocumentSymbols_undefined env uri position :
  getSymbolNameFromDocumentSymbols env uri position = None
  <-> executeDocumentSymbolProvider env uri = None
      \/ exists symbols,
          executeDocumentSymbolProvider env uri = Some symbols
          /\ (((exists d, In (IsDocumentSymbol d) symbols)
               /\ forall d, In (IsDocumentSymbol d) symbols ->
                    range_contains env (ds_range d) position = false)
              \/ ((forall d, ~ In (IsDocumentSymbol d) symbols)
                  /\ forall i, In (IsSymbolInformation i) symbols ->
                       range_contains env (si_location_range i) position
                       = false)).
Proof.
  destruct (executeDocumentSymbolProvider env uri) as [symbols|] eqn:E.
  - rewrite (getSymbolNameFromDocumentSymbols_eq _ _ _ _ E).
    assert (Hdocs : forall d, In d (only_document_symbols symbols)
                              <-> In (IsDocumentSymbol d) symbols)
      by (intros d; apply in_only_document_symbols).
    destruct (only_document_symbols symbols) as [|d0 ds] eqn:Ed.
    + assert (Hno : forall d, ~ In (IsDocumentSymbol d) symbols)
        by (intros d Hd; apply Hdocs in Hd; destruct Hd).
      split.
      * intros H. right. exists symbols. split; [reflexivity|]. right.
        split; [exact Hno|]. intros i Hi.
        destruct (range_contains env (si_location_range i) position) eqn:Ec;
          [|reflexivity].
        destruct (hd_error _) as [x|] eqn:Eh; [discriminate|].
        apply sort_by_size_empty in Eh.
        assert (Hin : In i (filter (fun s => range_contains env
                                      (si_location_range s) position)
                              (only_symbol_informations symbols))).
        { apply filter_In. split; [|exact Ec].
          apply in_only_symbol_informations, Hi. }
        rewrite Eh in Hin. destruct Hin.
      * intros [H|(symbols' & [= <-] & [[(d & Hd) _]|[_ H]])];
          [discriminate|destruct (Hno d Hd)|].
        destruct (hd_error _) as [x|] eqn:Eh; [|reflexivity].
        apply sort_by_size_head in Eh as [Hx _].
        apply filter_In in Hx as [Hx Hc].
        apply in_only_symbol_informations in Hx.
        rewrite (H x Hx) in Hc. discriminate.
    + assert (Hnone := findMostSpecificDocumentSymbol_none_iff
                         (range_contains env) position (d0 :: ds)).
      split.
      * intros H. right. exists symbols. split; [reflexivity|]. left.
        split; [exists d0; apply Hdocs; left; reflexivity|].
        intros d Hd. apply Hnone; [|apply Hdocs, Hd].
        destruct (findMostSpecificDocumentSymbol _ _ _); [discriminate|].
        reflexivity.
      * intros [H|(symbols' & [= <-] & [[_ H]|[H _]])];
          [discriminate| |destruct (H d0); apply Hdocs; left; reflexivity].
        replace (findMostSpecificDocumentSymbol (range_contains env) position
                   (d0 :: ds)) with (@None DocumentSymbol); [reflexivity|].
        symmetry. apply Hnone. intros d Hd. apply H, Hdocs, Hd.
  - unfold getSymbolNameFromDocumentSymbols. rewrite E.
    split; [intros _; left; reflexivity|reflexivity].
Qed.

(** ** [getBestDefinition] *)

Lemma find_first {A : Type} (f : A -> bool) (l : list A) (x : A) :
  find f l = Some x ->
  exists before after,
    l = before ++ x :: after /\ f x = true
    /\ forall y, In y before -> f y = false.
Proof.
  induction l as [|a l IH]; simpl; [discriminate|].
  destruct (f a) eqn:Ea.
  - intros [= <-]. exists [], l. split; [reflexivity|].
    split; [exact Ea|intros ? []].
  - intros H. destruct (IH H) as (before & after & -> & Hx & Hb).
    exists (a :: before), after. split; [reflexivity|].
    split; [exact Hx|]. intros y [<-|Hy]; [exact Ea|apply Hb, Hy].
Qed.

Lemma getBestDefinition_eq env uri position definitions :
  executeDefinitionProvider env uri position = Some definitions ->
  getBestDefinition env uri position
  = match find (in_workspace env) definitions with
    | Some d => Some d
    | None =>
        match find is_file definitions with
        | Some d => Some d
        | None => hd_error definitions
        end
    end.
Proof.
  intros E. unfold getBestDefinition. rewrite E.
  destruct definitions; reflexivity.
Qed.

Lemma getBestDefinition_first env uri position d rest :
  executeDefinitionProvider env uri position = Some (d :: rest) ->
  in_workspace env d = true ->
  getBestDefinition env uri position = Some d.
Proof.
  intros E Hd. rewrite (getBestDefinition_eq _ _ _ _ E).
  simpl. rewrite Hd. reflexivity.
Qed.

Lemma getBestDefinition_in_workspace env uri position definitions d :
  executeDefinitionProvider env uri position = Some definitions ->
  In d definitions -> in_workspace env d = true ->
  exists d', getBestDefinition env uri position = Some d'
             /\ in_workspace env d' = true.
Proof.
  intros E Hin Hd. rewrite (getBestDefinition_eq _ _ _ _ E).
  destruct (find (in_workspace env) definitions) as [d'|] eqn:Ef.
  - exists d'. split; [reflexivity|]. apply (find_some _ _ Ef).
  - rewrite (find_none _ _ Ef d Hin) in Hd. discriminate.
Qed.

(** X19. The definition [getBestDefinition] picks out of the provider's
    list is the first one in a local file of the workspace; failing that,
    the first one in a local file; failing that, the first one. *)
Theorem getBestDefinition_choice env uri position definitions d :
  executeDefinitionProvider env uri position = Some definitions ->
  getBestDefinition env uri position = Some d ->
  exists before after,
    definitions = before ++ d :: after
    /\ ((in_workspace env d = true
         /\ forall x, In x before -> in_workspace env x = false)
        \/ ((forall x, In x definitions -> in_workspace env x = false)
            /\ is_file d = true
            /\ forall x, In x before -> is_file x = false)
        \/ ((forall x, In x definitions -> is_file x = false)
            /\ before = [])).
Proof.
  intros E. rewrite (getBestDefinition_eq _ _ _ _ E).
  destruct (find (in_workspace env) definitions) as [d1|] eqn:E1.
  - intros [= <-].
    destruct (find_first _ _ _ E1) as (before & after & Hl & Hd & Hb).
    exists before, after. split; [exact Hl|]. left. split; assumption.
  - assert (H1 := find_none _ _ E1).
    destruct (find is_file definitions) as [d2|] eqn:E2.
    + intros [= <-].
      destruct (find_first _ _ _ E2) as (before & after & Hl & Hd & Hb).
      exists before, after. split; [exact Hl|]. right. left.
      split; [exact H1|]. split; assumption.
    + assert (H2 := find_none _ _ E2).
      destruct definitions as [|d0 rest]; [discriminate|].
      intros [= <-]. exists [], rest. split; [reflexivity|].
      right. right. split; [exact H2|reflexivity].
Qed.

Lemma getBestDefinition_choice_witness :
  exists before after,
    [Location (mk_uri "git" "/home/user/shop/src/shop/cart.py") (lines 2 2);
     Location (mk_uri "file" "/usr/lib/python3/shop/cart.pyi") (lines 7 7);
     Location cart_module (lines 2 2)]
    = before ++ Location cart_module (lines 2 2) :: after
    /\ in_workspace
         (shop_session
            (Some [Location (mk_uri "git" "/home/user/shop/src/shop/cart.py")
                     (lines 2 2);
                   Location (mk_uri "file" "/usr/lib/python3/shop/cart.pyi")
                     (lines 7 7);
                   Location cart_module (lines 2 2)]) None [])
         (Location cart_module (lines 2 2)) = true.
Proof.
  destruct (getBestDefinition_choice
              (shop_session
                 (Some [Location
                          (mk_uri "git" "/home/user/shop/src/shop/cart.py")
                          (lines 2 2);
                        Location
                          (mk_uri "file" "/usr/lib/python3/shop/cart.pyi")
                          (lines 7 7);
                        Location cart_module (lines 2 2)]) None [])
              (mk_uri "file" "/home/user/shop/main.py") (mk_position 4 10)
              _ (Location cart_module (lines 2 2)) eq_refl eq_refl)
    as (before & after & Hl & _).
  exists before, after. split; [exact Hl|reflexivity].
Defined.

(** X20. [getBestDefinition] returns [undefined] only when the provider
    gave [undefined] or an empty list. *)
Theorem getBestDefinition_undefined env uri position :
  getBestDefinition env uri position = None
  <-> executeDefinitionProvider env uri position = None
      \/ executeDefinitionProvider env uri position = Some [].
Proof.
  destruct (executeDefinitionProvider env uri position) as [definitions|] eqn:E.
  - rewrite (getBestDefinition_eq _ _ _ _ E). split.
    + destruct (find (in_workspace env) definitions); [discriminate|].
      destruct (find is_file definitions); [discriminate|].
      destruct definitions; [|discriminate]. intros _. right. reflexivity.
    + intros [H|[= ->]]; [discriminate|reflexivity].
  - unfold getBestDefinition. rewrite E.
    split; [intros _; left; reflexivity|reflexivity].
Qed.

(** ** [copyPythonImport] *)

Lemma module_path_nonempty proc filePath root sourceRoot options m :
  toPythonModulePath proc filePath root sourceRoot options = Some m -> m <> [].
Proof.
  rewrite toPythonModulePath_eq. cbv zeta.
  destruct (outside_root _); [discriminate|].
  destruct (recognized _) eqn:Er; cbn [negb]; [|discriminate].
  assert (Hseg := dir_segments_clean proc (relativePath proc root filePath)
                    sourceRoot options).
  destruct (dir_segments _ _ _ _) as [|x l].
  - destruct (str_eqb _ _); cbn [length Nat.ltb Nat.leb app join].
    + intros H. apply fallback_name_spec in H as (name & _ & -> & Hv).
      apply truthy_true, isValidPythonIdentifier_nonempty, Hv.
    + intros [= <-]. apply file_stem_nonempty, Er.
  - inversion Hseg as [|? ? [Hx _] _]; subst.
    destruct (str_eqb _ _); intros H;
      change (0 <? length (x :: l)) with true in H; cbv iota in H;
      match type of H with
      | Some ?j = _ => assert (Hm : m = j) by congruence
      end; rewrite Hm.
    + apply join_nonempty, Hx.
    + apply (join_nonempty "." x (l ++ [file_stem (relativePath proc root filePath)]) Hx).
Qed.

(** X21. [toPythonModulePath] never returns the empty string, so the
    test [!modulePath] of [copyPythonImport] holds only for [undefined]. *)
Theorem module_path_falsy proc filePath root sourceRoot options :
  truthy_name (toPythonModulePath proc filePath root sourceRoot options) = false
  <-> toPythonModulePath proc filePath root sourceRoot options = None.
Proof.
  destruct (toPythonModulePath proc filePath root sourceRoot options)
    as [m|] eqn:E; simpl.
  - split; [|discriminate]. intros H. apply truthy_false in H.
    destruct (module_path_nonempty _ _ _ _ _ _ E H).
  - split; reflexivity.
Qed.

Lemma declaration_name_valid line name :
  declaration_line line name -> isValidPythonIdentifier name = true.
Proof. intros H. destruct H; assumption. Qed.

Lemma extract_truthy line :
  truthy_name (extractSymbolNameFromLine line) = false
  <-> extractSymbolNameFromLine line = None.
Proof.
  destruct (extractSymbolNameFromLine line) as [n|] eqn:E; simpl.
  - split; [|discriminate]. intros H. apply extract_declares in E.
    apply declaration_name_valid, isValidPythonIdentifier_nonempty in E.
    congruence.
  - split; reflexivity.
Qed.

Lemma extract_none_iff line :
  extractSymbolNameFromLine line = None
  <-> forall n, ~ declaration_line line n.
Proof.
  split.
  - intros H n Hd. apply extract_iff_declaration in Hd. congruence.
  - intros H. destruct (extractSymbolNameFromLine line) as [n|] eqn:E;
      [|reflexivity].
    exfalso. apply (H n), extract_iff_declaration, E.
Qed.

Lemma resolveSymbolName_by_line env definition sourceEditor name :
  truthy_name (getSymbolNameFromDocumentSymbols env
                 (getDefinitionUri definition)
                 (getDefinitionPosition definition)) = false ->
  declaration_line
    (lineAt_text env (getDefinitionUri definition)
       (pos_line (getDefinitionPosition definition))) name ->
  resolveSymbolName env definition sourceEditor = Some name
  /\ name <> [].
Proof.
  intros Hs Hd. unfold resolveSymbolName. cbv zeta. rewrite Hs.
  assert (Hn : name <> [])
    by (apply truthy_true, isValidPythonIdentifier_nonempty,
          (declaration_name_valid _ _ Hd)).
  apply extract_iff_declaration in Hd. rewrite Hd. simpl.
  apply truthy_true in Hn. rewrite Hn. split; [reflexivity|].
  apply truthy_true, Hn.
Qed.

(** X22. Where the name [resolveSymbolName] returns comes from: a
    non-empty name the document symbols give; failing that, the name the
    line of the definition declares; failing that, the word under the
    cursor of the source editor. *)
Theorem resolveSymbolName_sources env definition sourceEditor name :
  resolveSymbolName env definition sourceEditor = Some name
  <-> (getSymbolNameFromDocumentSymbols env (getDefinitionUri definition)
         (getDefinitionPosition definition) = Some name
       /\ name <> [])
      \/ (truthy_name
            (getSymbolNameFromDocumentSymbols env
               (getDefinitionUri definition)
               (getDefinitionPosition definition)) = false
          /\ (declaration_line
                (lineAt_text env (getDefinitionUri definition)
                   (pos_line (getDefinitionPosition definition))) name
              \/ ((forall n,
                      ~ declaration_line
                          (lineAt_text env (getDefinitionUri definition)
                             (pos_line (getDefinitionPosition definition)))
                          n)
                  /\ word_at_cursor sourceEditor = Some name))).
Proof.
  unfold resolveSymbolName. cbv zeta.
  set (byDocumentSymbols :=
         getSymbolNameFromDocumentSymbols env (getDefinitionUri definition)
           (getDefinitionPosition definition)).
  set (line := lineAt_text env (getDefinitionUri definition)
                 (pos_line (getDefinitionPosition definition))).
  destruct (truthy_name byDocumentSymbols) eqn:Es.
  - split.
    + intros H. left. split; [exact H|].
      rewrite H in Es. apply truthy_true, Es.
    + intros [[H _]|[H _]]; [exact H|discriminate].
  - destruct (truthy_name (extractSymbolNameFromLine line)) eqn:El.
    + assert (Hsome : exists n, extractSymbolNameFromLine line = Some n).
      { destruct (extractSymbolNameFromLine line) as [n|];
          [exists n; reflexivity|discriminate]. }
      destruct Hsome as (n & Hn). split.
      * intros H. right. split; [reflexivity|]. left.
        apply extract_iff_declaration, H.
      * intros [[H Hne]|[_ [H|[H _]]]].
        -- rewrite H in Es. simpl in Es. apply truthy_true in Hne.
           congruence.
        -- apply extract_iff_declaration, H.
        -- apply extract_none_iff in H. congruence.
    + apply extract_truthy in El. split.
      * intros H. right. split; [reflexivity|]. right.
        split; [apply extract_none_iff, El|exact H].
      * intros [[H Hne]|[_ [H|[_ H]]]].
        -- rewrite H in Es. simpl in Es. apply truthy_true in Hne.
           congruence.
        -- apply extract_iff_declaration in H. congruence.
        -- exact H.
Qed.

Lemma copyPythonImport_run env editor definition folder m n :
  activeTextEditor env = Some editor ->
  languageId editor = js "python" ->
  getBestDefinition env (document_uri editor) (selection_active editor)
  = Some definition ->
  scheme (getDefinitionUri definition) = js "file" ->
  getWorkspaceFolder env (getDefinitionUri definition) = Some folder ->
  toPythonModulePath (node_process env) (fsPath (getDefinitionUri definition))
    (fsPath (folder_uri folder)) (getConfiguredSourceRoot env)
    (mk_options (Some (pathBasename (fsPath (folder_uri folder))))
       (Some (process_platform (node_process env)))) = Some m ->
  resolveSymbolName env definition editor = Some n ->
  n <> [] ->
  copyPythonImport env = Returned ("from " ++ m ++ " import " ++ n).
Proof.
  intros He Hl Hd Hs Hf Hm Hn Hne. unfold copyPythonImport.
  rewrite He. cbn [required bind]. rewrite Hl, str_eqb_refl.
  cbn [negb throw_if bind]. rewrite Hd. cbn [required bind].
  rewrite Hs, str_eqb_refl. cbn [negb throw_if bind].
  rewrite Hf. cbn [required bind]. rewrite Hm.
  assert (Hmt : truthy m = true)
    by (apply truthy_true, (module_path_nonempty _ _ _ _ _ _ Hm)).
  cbn [truthy_name]. rewrite Hmt. cbn [bind]. rewrite Hn.
  apply truthy_true in Hne. cbn [truthy_name]. rewrite Hne.
  reflexivity.
Qed.

(** X23. [copyPythonImport] completes exactly when the active editor
    shows a Python file, the chosen definition lies in a local file of
    some workspace folder, that file has a module path and a non-empty
    symbol name was found; the text it copies is then
    [from <module path> import <name>]. *)
Theorem copyPythonImport_returns env text :
  copyPythonImport env = Returned text
  <-> exists editor definition folder m n,
      activeTextEditor env = Some editor
      /\ languageId editor = js "python"
      /\ getBestDefinition env (document_uri editor) (selection_active editor)
         = Some definition
      /\ scheme (getDefinitionUri definition) = js "file"
      /\ getWorkspaceFolder env (getDefinitionUri definition) = Some folder
      /\ toPythonModulePath (node_process env)
           (fsPath (getDefinitionUri definition))
           (fsPath (folder_uri folder)) (getConfiguredSourceRoot env)
           (mk_options (Some (pathBasename (fsPath (folder_uri folder))))
              (Some (process_platform (node_process env)))) = Some m
      /\ resolveSymbolName env definition editor = Some n
      /\ n <> []
      /\ text = "from " ++ m ++ " import " ++ n.
Proof.
  split.
  - unfold copyPythonImport.
    destruct (activeTextEditor env) as [editor|]; [|discriminate].
    cbn [required bind].
    destruct (str_eqb (languageId editor) "python") eqn:El; [|discriminate].
    cbn [negb throw_if bind].
    destruct (getBestDefinition env (document_uri editor)
                (selection_active editor)) as [definition|] eqn:Ed;
      [|discriminate].
    cbn [required bind].
    destruct (str_eqb (scheme (getDefinitionUri definition)) "file") eqn:Es;
      [|discriminate].
    cbn [negb throw_if bind].
    destruct (getWorkspaceFolder env (getDefinitionUri definition))
      as [folder|] eqn:Ef; [|discriminate].
    cbn [required bind].
    destruct (toPythonModulePath _ _ _ _ _) as [m|] eqn:Em.
    + cbn [truthy_name]. destruct (truthy m); cbn [bind].
      * destruct (resolveSymbolName env definition editor) as [n|] eqn:En;
          [|discriminate].
        cbn [truthy_name]. destruct (truthy n) eqn:Et; [|discriminate].
        cbn [negb throw_if bind]. intros [= <-].
        exists editor, definition, folder, m, n.
        apply str_eqb_eq in El, Es. apply truthy_true in Et.
        exact (conj eq_refl (conj El (conj Ed (conj Es (conj Ef
                 (conj Em (conj En (conj Et eq_refl)))))))).
      * destruct (str_eqb (fsPath (getDefinitionUri definition)) _);
          cbn [bind]; discriminate.
    + cbn [truthy_name].
      destruct (str_eqb (fsPath (getDefinitionUri definition)) _);
        cbn [bind]; discriminate.
  - intros (editor & definition & folder & m & n
            & He & Hl & Hd & Hs & Hf & Hm & Hn & Hne & ->).
    apply (copyPythonImport_run env editor definition folder m n);
      assumption.
Qed.

Lemma in_workspace_spec env definition :
  in_workspace env definition = true
  <-> scheme (getDefinitionUri definition) = js "file"
      /\ exists folder,
          getWorkspaceFolder env (getDefinitionUri definition) = Some folder.
Proof.
  unfold in_workspace, is_file. rewrite andb_true_iff, str_eqb_eq.
  destruct (getWorkspaceFolder env (getDefinitionUri definition)) as [f|].
  - split; intros [H _]; (split; [exact H|]); [exists f|]; reflexivity.
  - split; intros [H H']; [discriminate|].
    destruct H' as (f & H'). discriminate.
Qed.



(** X25. When the language server gives some definition in a local file
    of a workspace folder, [getBestDefinition] returns the first such
    definition of its list, whatever else the list holds: the definition
    [copyPythonImport] goes on with is found, has the scheme [file] and
    lies in a workspace folder, so that the three checks on it pass. *)
Theorem getBestDefinition_workspace_definition
    env uri position definitions d :
  executeDefinitionProvider env uri position = Some definitions ->
  In d definitions ->
  in_workspace env d = true ->
  exists before best after folder,
    definitions = before ++ best :: after
    /\ (forall x, In x before -> in_workspace env x = false)
    /\ getBestDefinition env uri position = Some best
    /\ scheme (getDefinitionUri best) = js "file"
    /\ getWorkspaceFolder env (getDefinitionUri best) = Some folder.
Proof.
  intros Hp Hin Hw. rewrite (getBestDefinition_eq _ _ _ _ Hp).
  destruct (find (in_workspace env) definitions) as [best|] eqn:Ef.
  - destruct (find_first _ _ _ Ef) as (before & after & Hl & Hb & Hnone).
    apply in_workspace_spec in Hb as [Hs (folder & Hf)].
    exists before, best, after, folder.
    split; [exact Hl|]. split; [exact Hnone|]. split; [reflexivity|].
    split; assumption.
  - rewrite (find_none _ _ Ef d Hin) in Hw. discriminate.
Qed.

Lemma getBestDefinition_workspace_definition_witness :
  exists before best after folder,
    [Location (mk_uri "file" "/usr/lib/python3/shop/cart.pyi") (lines 7 7);
     Location cart_module (lines 2 2);
     Location (mk_uri "file" "/home/user/shop/README.md") (lines 0 0)]
    = before ++ best :: after
    /\ getBestDefinition
         (shop_session
            (Some [Location (mk_uri "file" "/usr/lib/python3/shop/cart.pyi")
                     (lines 7 7);
                   Location cart_module (lines 2 2);
                   Location (mk_uri "file" "/home/user/shop/README.md")
                     (lines 0 0)]) None [])
         (document_uri shop_editor) (selection_active shop_editor)
       = Some best
    /\ scheme (getDefinitionUri best) = js "file"
    /\ getWorkspaceFolder
         (shop_session
            (Some [Location (mk_uri "file" "/usr/lib/python3/shop/cart.pyi")
                     (lines 7 7);
                   Location cart_module (lines 2 2);
                   Location (mk_uri "file" "/home/user/shop/README.md")
                     (lines 0 0)]) None [])
         (getDefinitionUri best) = Some folder.
Proof.
  destruct (getBestDefinition_workspace_definition
              (shop_session
                 (Some [Location
                          (mk_uri "file" "/usr/lib/python3/shop/cart.pyi")
                          (lines 7 7);
                        Location cart_module (lines 2 2);
                        Location (mk_uri "file" "/home/user/shop/README.md")
                          (lines 0 0)]) None [])
              (document_uri shop_editor) (selection_active shop_editor) _
              (Location (mk_uri "file" "/home/user/shop/README.md")
                 (lines 0 0))
              eq_refl (or_intror (or_intror (or_introl eq_refl))) eq_refl)
    as (before & best & after & folder & Hl & _ & Hb & Hs & Hf).
  exists before, best, after, folder.
  split; [exact Hl|]. split; [exact Hb|]. split; assumption.
Defined.

(** ** [rangeSize] *)

Lemma position_leb_offset p q :
  short_column p -> short_column q -> position_leb p q = true ->
  (pos_line p * 10000 + pos_character p
   <= pos_line q * 10000 + pos_character q)%Z.
Proof.
  unfold short_column, position_leb. intros Hp Hq H.
  apply orb_true_iff in H as [H|H].
  - apply Z.ltb_lt in H. lia.
  - apply andb_true_iff in H as [H1 H2].
    apply Z.eqb_eq in H1. apply Z.leb_le in H2. lia.
Qed.

(** X26. For ranges whose line numbers are below 2^32 and whose columns
    are below 10000, [rangeSize] stays below 2^53 in size, so that
    JavaScript computes it without rounding, and it respects containment:
    a range that lies inside another is not larger. *)
Theorem rangeSize_monotone (inner outer : Range) :
  short_line (range_start inner) -> short_line (range_end inner) ->
  short_line (range_start outer) -> short_line (range_end outer) ->
  short_column (range_start inner) -> short_column (range_end inner) ->
  short_column (range_start outer) -> short_column (range_end outer) ->
  range_within inner outer = true ->
  (Z.abs (rangeSize inner) < 9007199254740992)%Z
  /\ (Z.abs (rangeSize outer) < 9007199254740992)%Z
  /\ (rangeSize inner <= rangeSize outer)%Z.
Proof.
  intros L1 L2 L3 L4 H1 H2 H3 H4 H. unfold range_within in H.
  apply andb_true_iff in H as [Hs He].
  apply (position_leb_offset _ _ H3 H1) in Hs.
  apply (position_leb_offset _ _ H2 H4) in He.
  unfold short_line, short_column in *. unfold rangeSize.
  split; [lia|]. split; lia.
Qed.

Lemma rangeSize_monotone_witness :
  (rangeSize (mk_range (mk_position 3 4) (mk_position 5 0))
   <= rangeSize (mk_range (mk_position 1 0) (mk_position 9 17)))%Z.
Proof.
  apply (rangeSize_monotone
           (mk_range (mk_position 3 4) (mk_position 5 0))
           (mk_range (mk_position 1 0) (mk_position 9 17)));
    (reflexivity || (unfold short_line, short_column; simpl; lia)).
Defined.

(** Without the bound on the columns a range on one long line can be
    larger than a range of two lines that contains it. *)
Lemma rangeSize_long_line :
  range_within (mk_range (mk_position 0 100) (mk_position 0 10200))
    (mk_range (mk_position 0 90) (mk_position 1 0)) = true
  /\ (rangeSize (mk_range (mk_position 0 90) (mk_position 1 0))
      < rangeSize (mk_range (mk_position 0 100) (mk_position 0 10200)))%Z.
Proof. split; reflexivity. Qed.
